(** * A binary-coded genetic algorithm (package [ga]), embedded and verified

    Source: [src/lab1/ga/genetic_algorithm.go].

    Modelling conventions.
    - Go [int] is a 64-bit two's complement integer: a [Z] with the
      wrap-around written out ([wrap64]).
    - A [[]byte] is a reference to a backing array.  The engine shares
      backing arrays between struct copies of an [Individual], so the
      arrays live in an explicit store ([mem]) and an [Individual] holds
      the address of its array.
    - [float64] values that are only stored and compared (fitness values,
      probabilities, the draws of [rng.Float64]) are modelled by the exact
      rational they denote; NaN and the infinities are outside this model.
      [float64] values that are computed with ([BytesToFloat]) are IEEE
      binary64 numbers ([PrimFloat]).
    - [*rand.Rand] is a cursor on a stream of raw draws; [sort.Slice] is a
      parameter of the development, specified by what the Go documentation
      promises (a permutation, ordered by the comparison). *)

From Stdlib Require Import ZArith QArith Qround Qpower Lqa Floats Uint63 Lia.
From Stdlib Require Import Permutation Sorted.
From Stdlib Require Import FunctionalExtensionality.
From stdpp Require Import base list strings sorting.

(** A Go [byte]; the engine only ever stores 0 and 1. *)
Abbreviation byte := Z (only parsing).

(* ===================================================================== *)
(** * Decoding utilities: [BytesToInt], [BytesToFloat]                   *)
(* ===================================================================== *)

Module Decode.

Local Open Scope Z_scope.

(** A Go [int] result, reduced to the signed 64-bit range. *)
Definition wrap64 (z : Z) : Z := (z + 2 ^ 63) mod 2 ^ 64 - 2 ^ 63.

(** [1 << i] on a Go [int]: the bit falls off the word once [i >= 64]. *)
Definition shl1 (i : nat) : Z := wrap64 (Z.shiftl 1 (Z.of_nat i)).

(** The loop of [BytesToInt], started at index [i] with accumulator
    [result]. *)
Fixpoint BytesToInt_from (i : nat) (genes : list byte) (result : Z) : Z :=
  match genes with
  | [] => result
  | g :: rest =>
      BytesToInt_from (S i) rest
        (if g =? 1 then Z.lor result (shl1 i) else result)
  end.

Definition BytesToInt (genes : list byte) : Z := BytesToInt_from 0 genes 0.

(** The conversion [float64(x)] of a Go [int], rounding to nearest even. *)
Definition float64_of_int (z : Z) : float :=
  if z =? - 2 ^ 63 then (-9223372036854775808)%float
  else if z <? 0 then PrimFloat.opp (PrimFloat.of_uint63 (Uint63.of_Z (- z)))
  else PrimFloat.of_uint63 (Uint63.of_Z z).

Definition maxInt_of (genes : list byte) : Z :=
  wrap64 (shl1 (length genes) - 1).

Definition BytesToFloat (genes : list byte) (min max : float) : float :=
  let intVal := BytesToInt genes in
  let maxInt := maxInt_of genes in
  let normalized :=
    PrimFloat.div (float64_of_int intVal) (float64_of_int maxInt) in
  PrimFloat.add min (PrimFloat.mul normalized (PrimFloat.sub max min)).

Definition is_bit (b : byte) : Prop := b = 0 \/ b = 1.

(** The number a bit vector denotes, bit [i] weighing [2^i]. *)
Fixpoint bits_value (genes : list Z) : Z :=
  match genes with
  | [] => 0
  | b :: rest => b + 2 * bits_value rest
  end.

(** The bit [BytesToInt] reads at a position: only the byte 1 counts. *)
Definition as_bit (b : Z) : Z := if b =? 1 then 1 else 0.

End Decode.

(* ===================================================================== *)
(** * Rounding to [float64]                                              *)
(* ===================================================================== *)

(** The arithmetic of [BytesToFloat] is that of [float64]; [PrimFloat]
    computes it, and the Standard Library specifies it by the operations
    of [SpecFloat].  The definitions below say what those operations
    compute: the exact result, rounded to nearest with ties to even. *)

Module Rounding.

Local Open Scope Z_scope.

(** [2^e] for an exponent of either sign. *)
Definition pow2 (e : Z) : Q := (2 ^ e)%Q.
#[global] Arguments pow2 : simpl never.

(** A non-negative number seen from the integers: twice its integer part,
    plus one when it is not an integer. *)
Definition code (y : Q) : Z := Qfloor y + Qceiling y.


(** Rounding to nearest, ties to even, of the number whose double has
    the code [c]. *)
Definition rne (c : Z) : Z :=
  let m := c / 4 in
  let t := c mod 4 in
  if t <? 2 then m
  else if t =? 2 then (if Z.even m then m else m + 1)
  else m + 1.

Definition tag (l : location) : Z :=
  match l with
  | loc_Exact => 0
  | loc_Inexact Lt => 1
  | loc_Inexact Eq => 2
  | loc_Inexact Gt => 3
  end.


(** [m] and [l] say where [r] lies on the grid of step [2^e]. *)
Definition located (r : Q) (m e : Z) (l : location) : Prop :=
  0 <= m /\ code (r * pow2 (1 - e)) = 4 * m + tag l.

(** [E] is the exponent of the floats of the binade of [r]. *)
Definition in_binade (prec emax : Z) (r : Q) (E : Z) : Prop :=
  SpecFloat.emin prec emax <= E /\ (r < pow2 (E + prec))%Q
  /\ (SpecFloat.emin prec emax < E -> (pow2 (E + prec - 1) <= r)%Q).

(** The float of sign [s] for the number of code [c] on the grid of [E]:
    rounded, renormalised when the mantissa overflows, infinite when the
    exponent does. *)
Definition finish (prec emax : Z) (s : bool) (E c : Z) : spec_float :=
  let m := rne c in
  if m =? 0 then S754_zero s
  else if m =? 2 ^ prec then
    (if E + 1 <=? emax - prec
     then S754_finite s (Z.to_pos (2 ^ (prec - 1))) (E + 1)
     else S754_infinity s)
  else if E <=? emax - prec then S754_finite s (Z.to_pos m) E
  else S754_infinity s.

(** The number a finite [spec_float] denotes (0 for the others). *)
Definition SF2Q (f : spec_float) : Q :=
  match f with
  | S754_finite s m e =>
      if s then (- (inject_Z (Z.pos m) * pow2 e))%Q
      else (inject_Z (Z.pos m) * pow2 e)%Q
  | _ => 0%Q
  end.


(** [f] is what the number [v] rounds to: to nearest, ties to even,
    overflow to an infinity. *)
Definition rounds_to (prec emax : Z) (v : Q) (f : spec_float) : Prop :=
  ((0 < v)%Q /\ exists E, in_binade prec emax v E
      /\ f = finish prec emax false E (code (v * pow2 (1 - E))))
  \/ ((v < 0)%Q /\ exists E, in_binade prec emax (- v) E
      /\ f = finish prec emax true E (code (- v * pow2 (1 - E))))
  \/ ((v == 0)%Q /\ exists s, f = S754_zero s).

(** The number a [float64] denotes. *)
Definition F2Q (x : float) : Q := SF2Q (Prim2SF x).

End Rounding.

(* ===================================================================== *)
(** * The engine                                                         *)
(* ===================================================================== *)

Module GA.

(** [Genes] is the address of the backing array of the Go slice (every
    slice of the engine spans a whole array made by [make([]byte, n)]). *)
Record Individual := { Genes : nat; Fitness : Q }.

Record Config := {
  PopulationSize : Z;
  MaxGenerations : Z;
  CrossoverProb : Q;
  MutationProb : Q;
  CrossoverType : string;
  ElitismCount : Z;
  BitsPerGene : Z;
  FitnessFunc : list byte -> Q;
  Seed : Z
}.

(** [*rand.Rand]: the stream of raw draws of the source and a cursor. *)
Record Rand := { tape : nat -> Z; pos : nat }.

(** The fields of the Go struct that [Run] assigns, and [mem], the
    backing arrays of all [Genes] slices.  [ga.config] is never assigned
    after [NewGeneticAlgorithm]; the methods take it as an argument. *)
Record GeneticAlgorithm := {
  population : list Individual;
  bestFitness : list Q;
  rng : Rand;
  mem : list (list byte)
}.

(** ** Computations that may panic *)

Inductive result (A : Type) : Type :=
| Ok (a : A)
| Panic (msg : string).
Arguments Ok {A} a.
Arguments Panic {A} msg.

Definition M (A : Type) : Type := GeneticAlgorithm -> result (A * GeneticAlgorithm).

#[global] Instance M_ret : MRet M := fun A a s => Ok (a, s).
#[global] Instance M_bind : MBind M := fun A B f m s =>
  match m s with
  | Ok (a, s') => f a s'
  | Panic msg => Panic msg
  end.

Definition panic {A} (msg : string) : M A := fun _ => Panic msg.
Definition get : M GeneticAlgorithm := fun s => Ok (s, s).

Definition set_population (p : list Individual) : M unit := fun s =>
  Ok (tt, {| population := p; bestFitness := bestFitness s;
             rng := rng s; mem := mem s |}).
Definition set_bestFitness (h : list Q) : M unit := fun s =>
  Ok (tt, {| population := population s; bestFitness := h;
             rng := rng s; mem := mem s |}).
Definition set_rng (r : Rand) : M unit := fun s =>
  Ok (tt, {| population := population s; bestFitness := bestFitness s;
             rng := r; mem := mem s |}).
Definition set_mem (h : list (list byte)) : M unit := fun s =>
  Ok (tt, {| population := population s; bestFitness := bestFitness s;
             rng := rng s; mem := h |}).

(** [for i := i0; i < i0 + n; i++ { body i }] *)
Fixpoint for_range (n i : nat) (body : nat -> M unit) : M unit :=
  match n with
  | O => mret tt
  | S n' => body i ;; for_range n' (S i) body
  end.

(** ** The random source *)

Definition advance (r : Rand) : Rand := {| tape := tape r; pos := S (pos r) |}.

(** [rng.Float64()]: a value in [0, 1); the model takes the multiples
    of 2^-53. *)
Definition Float64 : M Q :=
  s ← get;
  let raw := tape (rng s) (pos (rng s)) in
  set_rng (advance (rng s)) ;;
  mret (Qmake (raw mod 2 ^ 53) (2 ^ 53)).

(** [rng.Intn(n)]: panics unless [n > 0], else a value in [0, n). *)
Definition Intn (n : Z) : M Z :=
  if (n <=? 0)%Z then panic "invalid argument to Intn"
  else
    s ← get;
    let raw := tape (rng s) (pos (rng s)) in
    set_rng (advance (rng s)) ;;
    mret (raw mod n)%Z.

Definition Qltb (a b : Q) : bool := negb (Qle_bool b a).

(** ** Byte arrays *)

(** [make([]byte, n)] *)
Definition make_bytes (n : Z) : M nat :=
  if (n <? 0)%Z then panic "makeslice: len out of range"
  else
    s ← get;
    set_mem (mem s ++ [replicate (Z.to_nat n) 0%Z]) ;;
    mret (length (mem s)).

Definition load (p : nat) : M (list byte) :=
  s ← get;
  match mem s !! p with
  | Some g => mret g
  | None => panic "invalid memory address"
  end.

(** [genes[i]] *)
Definition load_byte (p i : nat) : M byte :=
  g ← load p;
  match g !! i with
  | Some b => mret b
  | None => panic "index out of range"
  end.

(** [genes[i] = v] *)
Definition store_byte (p i : nat) (v : byte) : M unit :=
  g ← load p;
  if decide (i < length g) then
    s ← get; set_mem (<[p := <[i := v]> g]> (mem s))
  else panic "index out of range".

(** [copy(p[lo:hi], src)] with [src] already read: Go copies
    [min(len(dst), len(src))] elements. *)
Definition store_slice (p lo hi : nat) (src : list byte) : M unit :=
  g ← load p;
  if decide (lo ≤ hi ∧ hi ≤ length g) then
    let n := (hi - lo) `min` length src in
    s ← get;
    set_mem (<[p := take lo g ++ take n src ++ drop (lo + n) g]> (mem s))
  else panic "slice bounds out of range".

(** [src[lo:hi]] *)
Definition load_slice (p lo hi : nat) : M (list byte) :=
  g ← load p;
  if decide (lo ≤ hi ∧ hi ≤ length g) then mret (take (hi - lo) (drop lo g))
  else panic "slice bounds out of range".

Section Engine.

(** [sort.Slice], applied to the comparison on elements that the index
    comparison of [Run] induces, and [rand.NewSource]. *)
Variable sort_slice :
  (Individual -> Individual -> bool) -> list Individual -> list Individual.
Variable NewSource : Z -> nat -> Z.

Definition NewGeneticAlgorithm (config : Config) : GeneticAlgorithm :=
  {| population := [];
     bestFitness := [];
     rng := {| tape := NewSource (Seed config); pos := 0 |};
     mem := [] |}.

(** [ga.config.FitnessFunc(genes)]: the evaluator reads the array. *)
Definition evaluate (config : Config) (p : nat) : M Q :=
  g ← load p; mret (FitnessFunc config g).

(** [Initialize].  [make([]Individual, n)] followed by the assignment of
    the indices 0..n-1 in order: no zero-valued slot is ever read, the
    population is built by appending. *)
Definition Initialize (config : Config) : M unit :=
  if (PopulationSize config <? 0)%Z then panic "makeslice: len out of range"
  else
    set_population [] ;;
    for_range (Z.to_nat (PopulationSize config)) 0 (fun i =>
      genes ← make_bytes (BitsPerGene config);
      for_range (Z.to_nat (BitsPerGene config)) 0 (fun j =>
        d ← Float64;
        if Qltb d (1 # 2) then store_byte genes j 1%Z
        else store_byte genes j 0%Z) ;;
      fit ← evaluate config genes;
      s ← get;
      set_population (population s ++ [{| Genes := genes; Fitness := fit |}])).

(** [ga.population[i]] *)
Definition population_at (i : Z) : M Individual :=
  s ← get;
  if (i <? 0)%Z then panic "index out of range"
  else match population s !! Z.to_nat i with
       | Some x => mret x
       | None => panic "index out of range"
       end.

(** The rounds [i = 1 .. tournamentSize - 1] of the tournament. *)
Fixpoint tournament_rounds (rounds : nat) (best : Individual) : M Individual :=
  match rounds with
  | O => mret best
  | S rounds' =>
      s ← get;
      i ← Intn (Z.of_nat (length (population s)));
      candidate ← population_at i;
      tournament_rounds rounds'
        (if Qltb (Fitness best) (Fitness candidate) then candidate else best)
  end.

Definition tournamentSize : nat := 3.

Definition tournamentSelection : M Individual :=
  s ← get;
  i ← Intn (Z.of_nat (length (population s)));
  best ← population_at i;
  tournament_rounds (tournamentSize - 1) best.

Definition onepointCrossover (parent1 parent2 : Individual)
  : M (Individual * Individual) :=
  g1 ← load (Genes parent1);
  g2 ← load (Genes parent2);
  point ← Intn (Z.of_nat (length g1));
  let point := Z.to_nat point in
  child1Genes ← make_bytes (Z.of_nat (length g1));
  child2Genes ← make_bytes (Z.of_nat (length g2));
  (src ← load_slice (Genes parent1) 0 point;
   store_slice child1Genes 0 point src) ;;
  (src ← load_slice (Genes parent2) point (length g2);
   store_slice child1Genes point (length g1) src) ;;
  (src ← load_slice (Genes parent2) 0 point;
   store_slice child2Genes 0 point src) ;;
  (src ← load_slice (Genes parent1) point (length g1);
   store_slice child2Genes point (length g2) src) ;;
  mret ({| Genes := child1Genes; Fitness := 0 |},
        {| Genes := child2Genes; Fitness := 0 |}).

Definition uniformCrossover (parent1 parent2 : Individual)
  : M (Individual * Individual) :=
  g1 ← load (Genes parent1);
  g2 ← load (Genes parent2);
  child1Genes ← make_bytes (Z.of_nat (length g1));
  child2Genes ← make_bytes (Z.of_nat (length g2));
  for_range (length g1) 0 (fun i =>
    d ← Float64;
    if Qltb d (1 # 2) then
      (b ← load_byte (Genes parent1) i; store_byte child1Genes i b) ;;
      (b ← load_byte (Genes parent2) i; store_byte child2Genes i b)
    else
      (b ← load_byte (Genes parent2) i; store_byte child1Genes i b) ;;
      (b ← load_byte (Genes parent1) i; store_byte child2Genes i b)) ;;
  mret ({| Genes := child1Genes; Fitness := 0 |},
        {| Genes := child2Genes; Fitness := 0 |}).

Definition crossover (config : Config) (parent1 parent2 : Individual)
  : M (Individual * Individual) :=
  if String.eqb (CrossoverType config) "onepoint"
  then onepointCrossover parent1 parent2
  else uniformCrossover parent1 parent2.

(** [mutate(&individual)]: writes through the slice of the (copied)
    struct, that is, into the shared backing array. *)
Definition mutate (config : Config) (individual : Individual) : M unit :=
  g ← load (Genes individual);
  for_range (length g) 0 (fun i =>
    d ← Float64;
    if Qltb d (MutationProb config) then
      b ← load_byte (Genes individual) i;
      if (b =? 0)%Z then store_byte (Genes individual) i 1%Z
      else store_byte (Genes individual) i 0%Z
    else mret tt).

(** [a.Fitness > b.Fitness], the comparison handed to [sort.Slice]. *)
Definition by_fitness (a b : Individual) : bool :=
  Qltb (Fitness b) (Fitness a).

(** The loop [for len(newPopulation) < PopulationSize], by recursion on
    [room = PopulationSize - len(newPopulation)]: the loop test holds
    exactly when [room] is positive, and so does the test that guards the
    second append once the first child is in. *)
Fixpoint reproduce (config : Config) (room : nat)
    (newPopulation : list Individual) : M (list Individual) :=
  match room with
  | O => mret newPopulation
  | S room' =>
      parent1 ← tournamentSelection;
      parent2 ← tournamentSelection;
      d ← Float64;
      '(child1, child2) ←
        (if Qltb d (CrossoverProb config)
         then crossover config parent1 parent2
         else mret (parent1, parent2));
      mutate config child1 ;;
      mutate config child2 ;;
      fit1 ← evaluate config (Genes child1);
      fit2 ← evaluate config (Genes child2);
      let child1 := {| Genes := Genes child1; Fitness := fit1 |} in
      let child2 := {| Genes := Genes child2; Fitness := fit2 |} in
      let newPopulation := newPopulation ++ [child1] in
      match room' with
      | O => mret newPopulation
      | S room'' => reproduce config room'' (newPopulation ++ [child2])
      end
  end.

(** One iteration of the generation loop of [Run]. *)
Definition generation (config : Config) : M unit :=
  s ← get;
  set_population (sort_slice by_fitness (population s)) ;;
  top ← population_at 0;
  s ← get;
  set_bestFitness (bestFitness s ++ [Fitness top]) ;;
  (if (PopulationSize config <? 0)%Z
   then panic "makeslice: cap out of range" else mret tt) ;;
  s ← get;
  let newPopulation := take (Z.to_nat (ElitismCount config)) (population s) in
  newPopulation ←
    reproduce config
      (Z.to_nat (PopulationSize config) - length newPopulation) newPopulation;
  set_population newPopulation.

Definition Run (config : Config) : M (Individual * list Q) :=
  Initialize config ;;
  for_range (Z.to_nat (MaxGenerations config)) 0
    (fun _ => generation config) ;;
  s ← get;
  set_population (sort_slice by_fitness (population s)) ;;
  top ← population_at 0;
  s ← get;
  mret (top, bestFitness s).

Definition GetBestFitnessHistory : M (list Q) :=
  s ← get; mret (bestFitness s).

End Engine.

(** ** [sort.Slice] on at most 12 elements

    For [n <= 12] the Go library sorts by straight insertion
    ([insertionSortLessFunc]): element [i] is swapped leftwards while it
    is less than its left neighbour. *)

(** [sorted_rev] is the sorted prefix, last element first. *)
Fixpoint insert_leftwards {A} (less : A -> A -> bool) (x : A)
    (sorted_rev : list A) : list A :=
  match sorted_rev with
  | [] => [x]
  | y :: rest =>
      if less x y then y :: insert_leftwards less x rest
      else x :: sorted_rev
  end.

Definition insertionSort {A} (less : A -> A -> bool) (data : list A) : list A :=
  rev (fold_left (fun acc x => insert_leftwards less x acc) data []).

(** [StdDev]; [math.Pow] is the library's, a parameter here. *)
Definition StdDev (Pow : float -> float -> float) (values : list float)
    (mean : float) : float :=
  let sum :=
    fold_left (fun sum v => PrimFloat.add sum (Pow (PrimFloat.sub v mean) 2%float))
      values 0%float in
  PrimFloat.sqrt
    (PrimFloat.div sum (Decode.float64_of_int (Z.of_nat (length values)))).

End GA.

(* ===================================================================== *)
(** * The experiment runner (package [experiment])                       *)
(* ===================================================================== *)

Module Runner.
Import GA.

(** [ParamGrid]; its field [MaxGenerations] is [MaxGenerationsGrid] here,
    the name being taken by the field of [ExperimentConfig]. *)
Record ParamGrid := {
  PopulationSizes : list Z;
  MaxGenerationsGrid : list Z;
  CrossoverProbs : list Q;
  MutationProbs : list Q;
  CrossoverTypes : list string;
  ElitismCounts : list Z
}.

Record ExperimentConfig := {
  PopulationSize : Z;
  MaxGenerations : Z;
  CrossoverProb : Q;
  MutationProb : Q;
  CrossoverType : string;
  ElitismCount : Z
}.

Record LinearSearchResult := {
  TaskName : string;
  BestValue : Q;
  ExecutionTime : Q
}.

(** [generateConfigs]: six nested [range] loops, the innermost appending
    one configuration. *)
Definition generateConfigs (paramGrid : ParamGrid) : list ExperimentConfig :=
  popSize ← PopulationSizes paramGrid;
  maxGen ← MaxGenerationsGrid paramGrid;
  crossProb ← CrossoverProbs paramGrid;
  mutProb ← MutationProbs paramGrid;
  crossType ← CrossoverTypes paramGrid;
  elitism ← ElitismCounts paramGrid;
  [{| PopulationSize := popSize; MaxGenerations := maxGen;
      CrossoverProb := crossProb; MutationProb := mutProb;
      CrossoverType := crossType; ElitismCount := elitism |}].

(** The closure [arrayFitnessFunc] returns, over the runner's
    [arrayData]; [%] is Go's remainder, truncated towards zero. *)
Definition arrayFitnessFunc (arrayData : list Q) (genes : list Z) : result Q :=
  if decide (length arrayData = 0) then Panic "integer divide by zero"
  else
    let index := Z.rem (Decode.BytesToInt genes) (Z.of_nat (length arrayData)) in
    if (index <? 0)%Z then Panic "index out of range"
    else match arrayData !! Z.to_nat index with
         | Some v => Ok v
         | None => Panic "index out of range"
         end.

(** [runLinearSearchArray]; [elapsed] is what the clock measured, in
    milliseconds. *)
Definition runLinearSearchArray (arrayData : list Q) (elapsed : Z)
  : result LinearSearchResult :=
  match arrayData with
  | [] => Panic "index out of range"
  | first :: _ =>
      let maxVal :=
        fold_left (fun maxVal val => if Qltb maxVal val then val else maxVal)
          arrayData first in
      Ok {| TaskName := "array_search"; BestValue := maxVal;
            ExecutionTime := inject_Z elapsed |}
  end.

End Runner.


(* ===================================================================== *)
(** * Vocabulary of the specifications                                   *)
(* ===================================================================== *)

Module Spec.
Import GA.

(** [wp m Q s]: from [s], [m] returns (it does not panic) and the result
    and the final state satisfy [Q]. *)
Definition wp {A} (m : M A) (Q : A -> GeneticAlgorithm -> Prop)
    (s : GeneticAlgorithm) : Prop :=
  match m s with
  | Ok (a, s') => Q a s'
  | Panic _ => False
  end.

(** [s] after [k] further draws and with the arrays [h]. *)
Definition st_after (s : GeneticAlgorithm) (k : nat) (h : list (list byte))
  : GeneticAlgorithm :=
  {| population := population s;
     bestFitness := bestFitness s;
     rng := {| tape := tape (rng s); pos := k + pos (rng s) |};
     mem := h |}.

(** The value [rng.Float64()] returns at cursor position [n]. *)
Definition draw_at (r : Rand) (n : nat) : Q :=
  Qmake (tape r n mod 2 ^ 53) (2 ^ 53).

(** The byte [mutate] stores over [b]. *)
Definition flip_bit (b : byte) : byte := if (b =? 0)%Z then 1%Z else 0%Z.

(** [g] after [mutate], for a loop that started at cursor [k]: position
    [i] is flipped when its draw is below [prob]. *)
Definition mutated (r : Rand) (k : nat) (prob : Q) (g : list byte) : list byte :=
  imap (fun i b => if Qltb (draw_at r (i + k)) prob then flip_bit b else b) g.

(** What [copy(g[lo:hi], src)] leaves in [g]. *)
Definition slice_write (g : list byte) (lo hi : nat) (src : list byte)
  : list byte :=
  let n := (hi - lo) `min` length src in
  take lo g ++ take n src ++ drop (lo + n) g.

(** The child that takes [g1] before the cut [c] and [g2] from it on. *)
Definition onepoint_child (c : nat) (g1 g2 : list byte) : list byte :=
  take c g1 ++ drop c g2.

(** The coin [rng.Float64() < 0.5] of position [i], for a loop that
    started at cursor [k]. *)
Definition coin (r : Rand) (k i : nat) : bool := Qltb (draw_at r (i + k)) (1 # 2).

(** Position [i] takes [a]'s byte on heads and [b]'s on tails. *)
Definition pick (r : Rand) (k : nat) (a b : list byte) : list byte :=
  imap (fun i xy => if coin r k i then xy.1 else xy.2) (zip a b).

(** Every array of [h] is still there in [h'], with its length. *)
Definition shape_le (h h' : list (list byte)) : Prop :=
  forall p g, h !! p = Some g -> exists g', h' !! p = Some g' /\ length g' = length g.

(** [frame s s']: the engine's fields are untouched except for the cursor
    of the random source, and no array was lost or resized. *)
Definition frame (s s' : GeneticAlgorithm) : Prop :=
  population s' = population s /\ bestFitness s' = bestFitness s /\
  tape (rng s') = tape (rng s) /\ shape_le (mem s) (mem s').

(** [individual]'s slice is an array of [L] bytes of [h]. *)
Definition valid (L : nat) (h : list (list byte)) (individual : Individual) : Prop :=
  exists g, h !! Genes individual = Some g /\ length g = L.

(** Each entry of the history is at most the next one. *)
Definition nondecreasing (hs : list Q) : Prop :=
  forall i a b, hs !! i = Some a -> hs !! S i = Some b -> (a <= b)%Q.

(** What [sort.Slice] promises: the result is a permutation of the
    slice ... *)
Definition sort_permutes
    (sort_slice : (Individual -> Individual -> bool) ->
                  list Individual -> list Individual) : Prop :=
  forall less l, sort_slice less l ≡ₚ l.

(** ... and no element is less (here: fitter) than one before it. *)
Definition sort_orders
    (sort_slice : (Individual -> Individual -> bool) ->
                  list Individual -> list Individual) : Prop :=
  forall l, StronglySorted (fun a b => (Fitness b <= Fitness a)%Q)
              (sort_slice by_fitness l).

(** Fitness ascending: the sorted prefix, seen from its right end. *)
Definition ascending : list Individual -> Prop :=
  StronglySorted (fun a b => (Fitness a <= Fitness b)%Q).

(** A configuration the data model calls valid. *)
Definition valid_config (config : Config) : Prop :=
  (1 <= PopulationSize config)%Z /\ (0 <= MaxGenerations config)%Z /\
  (1 <= BitsPerGene config)%Z /\
  (0 <= CrossoverProb config <= 1)%Q /\ (0 <= MutationProb config <= 1)%Q.

(** What [Run] returns, without the final state. *)
Definition outcome {A} (r : result (A * GeneticAlgorithm)) : option A :=
  match r with
  | Ok (a, _) => Some a
  | Panic _ => None
  end.

(** The state [Run] leaves. *)
Definition final_state {A} (r : result (A * GeneticAlgorithm))
  : option GeneticAlgorithm :=
  match r with
  | Ok (_, s) => Some s
  | Panic _ => None
  end.

(** [config] with another [CrossoverType]. *)
Definition with_CrossoverType (type : string) (config : Config) : Config :=
  {| PopulationSize := PopulationSize config;
     MaxGenerations := MaxGenerations config;
     CrossoverProb := CrossoverProb config;
     MutationProb := MutationProb config;
     CrossoverType := type;
     ElitismCount := ElitismCount config;
     BitsPerGene := BitsPerGene config;
     FitnessFunc := FitnessFunc config;
     Seed := Seed config |}.

(** Two configurations with the same settings and evaluators that agree
    on every genotype. *)
Definition same_settings (c1 c2 : Config) : Prop :=
  PopulationSize c1 = PopulationSize c2 /\
  MaxGenerations c1 = MaxGenerations c2 /\
  CrossoverProb c1 = CrossoverProb c2 /\
  MutationProb c1 = MutationProb c2 /\
  CrossoverType c1 = CrossoverType c2 /\
  ElitismCount c1 = ElitismCount c2 /\
  BitsPerGene c1 = BitsPerGene c2 /\
  Seed c1 = Seed c2 /\
  forall genes, FitnessFunc c1 genes = FitnessFunc c2 genes.

(** ** Runs that read the same draws *)

(** Two engine states that agree on everything but the draws of their
    streams before the cursor and from position [K] on. *)
Definition same_but_stream (K : nat) (s1 s2 : GeneticAlgorithm) : Prop :=
  population s1 = population s2 /\ bestFitness s1 = bestFitness s2
  /\ mem s1 = mem s2 /\ pos (rng s1) = pos (rng s2)
  /\ forall n, pos (rng s1) <= n < K -> tape (rng s1) n = tape (rng s2) n.

(** When [m1] returns from [s1], its cursor has not moved back, and if it
    has stayed at or below [K] then [m2] returns the same value from
    [s2], in a state that again differs at most in those draws. *)
Definition follows (K : nat) {A} (m1 m2 : M A) (s1 s2 : GeneticAlgorithm)
  : Prop :=
  forall a s1', m1 s1 = Ok (a, s1') ->
    pos (rng s1) <= pos (rng s1')
    /\ (pos (rng s1') <= K ->
        exists s2', m2 s2 = Ok (a, s2') /\ same_but_stream K s1' s2').

(** [m] reads its stream only at the cursor. *)
Definition reads_at_cursor (K : nat) {A} (m : M A) : Prop :=
  forall s1 s2, same_but_stream K s1 s2 -> follows K m m s1 s2.

(** [source], with every draw from position [K] on replaced by 0. *)
Definition cut_source (K : nat) (source : Z -> nat -> Z) (seed : Z) (n : nat)
  : Z :=
  if (n <? K)%nat then source seed n else 0%Z.

(** ** Bits, candidates and recombination *)

(** [s] with the arrays [h]. *)
Definition with_mem (h : list (list Z)) (s : GeneticAlgorithm) : GeneticAlgorithm :=
  {| population := population s; bestFitness := bestFitness s;
     rng := rng s; mem := h |}.

(** [s] after one draw. *)
Definition drawn (s : GeneticAlgorithm) : GeneticAlgorithm :=
  {| population := population s; bestFitness := bestFitness s;
     rng := advance (rng s); mem := mem s |}.

(** An array of [L] bits. *)
Definition bit_array (L : nat) (g : list Z) : Prop :=
  length g = L /\ Forall Decode.is_bit g.

(** [individual]'s slice is an array of [L] bits of [h]. *)
Definition well_formed (L : nat) (h : list (list Z)) (individual : Individual)
  : Prop :=
  exists g, h !! Genes individual = Some g /\ bit_array L g.

(** Every array of [L] bits of [h] is an array of [L] bits of [h']. *)
Definition bits_kept (L : nat) (h h' : list (list Z)) : Prop :=
  forall p g, h !! p = Some g -> bit_array L g ->
    exists g', h' !! p = Some g' /\ bit_array L g'.

(** [Fitness] is the evaluator's value on the genes as they are now. *)
Definition fresh_fitness (config : Config) (h : list (list Z))
    (individual : Individual) : Prop :=
  exists g, h !! Genes individual = Some g /\
            Fitness individual = FitnessFunc config g.

(** The individual the tournament draws as its [k]-th candidate. *)
Definition candidate (s : GeneticAlgorithm) (k : nat) : option Individual :=
  population s !!
    Z.to_nat (tape (rng s) (k + pos (rng s))
              mod Z.of_nat (length (population s))).

(** The fitter of the champion and a challenger; the champion keeps a
    tie. *)
Definition fitter (best challenger : Individual) : Individual :=
  if Qltb (Fitness best) (Fitness challenger) then challenger else best.

(** At every position the two children hold the two parents' bytes, in
    one order or the other. *)
Definition recombined (g1 g2 h1 h2 : list Z) : Prop :=
  length h1 = length g1 /\ length h2 = length g1 /\
  forall i x y, g1 !! i = Some x -> g2 !! i = Some y ->
    (h1 !! i = Some x /\ h2 !! i = Some y)
    \/ (h1 !! i = Some y /\ h2 !! i = Some x).

(** [keeps L s s']: the engine's fields are untouched except for the
    cursor of the random source, and every array of [L] bits still is
    one. *)
Definition keeps (L : nat) (s s' : GeneticAlgorithm) : Prop :=
  population s' = population s /\ bestFitness s' = bestFitness s /\
  tape (rng s') = tape (rng s) /\ bits_kept L (mem s) (mem s').

(** ** Configurations and states of the examples *)

(** A stream of raw draws for the examples: a congruence, its high
    bits folded onto the low ones. *)
Definition demo_source (seed : Z) (n : nat) : Z :=
  let x := (((seed + 1) * 6364136223846793005 * (Z.of_nat n + 1) ^ 3
             + 1442695040888963407 * Z.of_nat n) mod 2 ^ 63)%Z in
  Z.lxor x (Z.shiftr x 29).

(** An engine with two individuals of four bits. *)
Definition demo_state : GeneticAlgorithm :=
  {| population := [{| Genes := 0; Fitness := 5 |}; {| Genes := 1; Fitness := 2 |}];
     bestFitness := [];
     rng := {| tape := demo_source 42; pos := 0 |};
     mem := [[1; 0; 1; 0]; [0; 1; 0; 0]]%Z |}.

(** Four individuals of three bits, one elite, the evaluator
    [BytesToInt]. *)
Definition demo_config (G : Z) (pc pm : Q) (type : string) : Config :=
  {| PopulationSize := 4; MaxGenerations := G; CrossoverProb := pc;
     MutationProb := pm; CrossoverType := type; ElitismCount := 1;
     BitsPerGene := 3;
     FitnessFunc := fun g => inject_Z (Decode.BytesToInt g);
     Seed := 42 |}.

(** Four individuals of three bits, one elite, one generation. *)
Definition stale_config : Config :=
  {| PopulationSize := 4; MaxGenerations := 1; CrossoverProb := 1 # 2;
     MutationProb := 1 # 10; CrossoverType := "onepoint"; ElitismCount := 1;
     BitsPerGene := 3;
     FitnessFunc := fun g => inject_Z (Decode.BytesToInt g);
     Seed := 8 |}.

(** Probabilities outside [0, 1] and no elite. *)
Definition tiny_config (N G L : Z) (type : string) : Config :=
  {| PopulationSize := N; MaxGenerations := G; CrossoverProb := 2;
     MutationProb := -1; CrossoverType := type; ElitismCount := 0;
     BitsPerGene := L;
     FitnessFunc := fun g => inject_Z (Decode.BytesToInt g);
     Seed := 7 |}.

(** Two individuals of four bits, [elitism] of them elite. *)
Definition pair_config (elitism : Z) : Config :=
  {| PopulationSize := 2; MaxGenerations := 2; CrossoverProb := 1 # 2;
     MutationProb := 1 # 10; CrossoverType := "uniform";
     ElitismCount := elitism; BitsPerGene := 4;
     FitnessFunc := fun g => inject_Z (Decode.BytesToInt g);
     Seed := 1 |}.

End Spec.

(* ===================================================================== *)
(** * Rounding is monotone                                               *)
(* ===================================================================== *)

Module RoundingFacts.
Import Decode Rounding.

Local Open Scope Z_scope.







Lemma pow2_lt a b : a < b -> (pow2 a < pow2 b)%Q.
Proof. intros H. apply Qpower_lt_compat_l; [done|]. reflexivity. Qed.










#[global] Instance code_comp : Proper (Qeq ==> eq) code.
Proof. intros x y H. unfold code. by rewrite H. Qed.







(** ** Shifting a mantissa to the grid of its binade *)













Section Grid.
Variables prec emax : Z.
Hypothesis Hprec : 0 < prec.

Local Abbreviation emin := (SpecFloat.emin prec emax).
Local Abbreviation fexp := (SpecFloat.fexp prec emax).












End Grid.

(** ** The order of the rounded numbers *)


Lemma SFleb_refl_finite s m e : SFleb (S754_finite s m e) (S754_finite s m e) = true.
Proof.
  unfold SFleb. simpl. rewrite Z.compare_refl.
  change (Pos.compare_cont Eq m m) with (m ?= m)%positive.
  rewrite Pos.compare_refl. by destruct s.
Qed.



Section Order.
Variables prec emax : Z.
Hypothesis Hprec : 0 < prec.

Local Abbreviation emin := (SpecFloat.emin prec emax).
Local Abbreviation fexp := (SpecFloat.fexp prec emax).










End Order.

(** ** Sums and differences *)







#[global] Instance located_comp : Proper (Qeq ==> eq ==> eq ==> eq ==> iff) located.
Proof.
  intros r r' Hr m ? <- e ? <- l ? <-. unfold located. by rewrite Hr.
Qed.

Section Sums.
Variables prec emax : Z.
Hypothesis Hprec : 0 < prec.
Hypothesis Hemax : prec < emax.

Local Abbreviation emin := (SpecFloat.emin prec emax).
Local Abbreviation fexp := (SpecFloat.fexp prec emax).

#[local] Instance in_binade_comp :
  Proper (Qeq ==> eq ==> iff) (in_binade prec emax).
Proof.
  intros r r' Hr E ? <-. unfold in_binade. by rewrite Hr.
Qed.

Lemma rounds_to_eq v v' f :
  (v == v')%Q -> rounds_to prec emax v f -> rounds_to prec emax v' f.
Proof.
  intros Hv [[H1 (E & B & ->)]|[[H1 (E & B & ->)]|[H1 ?]]].
  - left. split; [lra|]. exists E. split; [by rewrite <- Hv|].
    f_equal. apply code_comp. by rewrite Hv.
  - right. left. split; [lra|]. exists E. split; [by rewrite <- Hv|].
    f_equal. apply code_comp. by rewrite Hv.
  - right. right. split; [lra|done].
Qed.

#[local] Instance rounds_to_comp :
  Proper (Qeq ==> eq ==> iff) (rounds_to prec emax).
Proof.
  intros v v' Hv f ? <-. split; apply rounds_to_eq; [done|by symmetry].
Qed.








End Sums.

(** ** Products and quotients *)



Section Products.
Variables prec emax : Z.
Hypothesis Hprec : 0 < prec.
Hypothesis Hemax : prec < emax.

Local Abbreviation emin := (SpecFloat.emin prec emax).
Local Abbreviation fexp := (SpecFloat.fexp prec emax).






End Products.

(** ** The [float64] format *)










Lemma F2Q_zero : (F2Q 0 == 0)%Q.
Proof. reflexivity. Qed.










(** The steps of [BytesToFloat], each monotone. *)
Section Steps.
Variables min max : float.
Hypothesis Hle : (min <=? max)%float = true.
Hypothesis Hfin : is_finite (max - min) = true.







End Steps.

End RoundingFacts.

(* ===================================================================== *)
(** * The decoding utilities                                             *)
(* ===================================================================== *)

Module DecodeFacts.
Import Decode Rounding RoundingFacts.

Local Open Scope Z_scope.

Lemma shl1_small i : (i <= 62)%nat -> shl1 i = 2 ^ Z.of_nat i.
Proof.
  intros Hi.
  assert (forallb (fun i => shl1 i =? 2 ^ Z.of_nat i) (seq 0 63) = true) as H
    by (vm_compute; reflexivity).
  rewrite forallb_forall in H. apply Z.eqb_eq, H, in_seq. lia.
Qed.


Lemma lor_pow2_above r i : 0 <= r < 2 ^ i -> 0 <= i -> Z.lor r (2 ^ i) = r + 2 ^ i.
Proof.
  intros Hr Hi. rewrite <- Z.add_lor_land.
  assert (Z.land r (2 ^ i) = 0) as ->; [|lia].
  apply Z.bits_inj'. intros n Hn. rewrite Z.land_spec, Z.bits_0.
  rewrite Z.pow2_bits_eqb by done.
  destruct (Z.eqb_spec i n) as [->|Hne]; [|apply andb_false_r].
  rewrite andb_true_r. apply Z.testbit_false; [done|].
  rewrite Z.div_small by lia. done.
Qed.

Lemma bits_value_range genes :
  Forall is_bit genes -> 0 <= bits_value genes < 2 ^ Z.of_nat (length genes).
Proof.
  induction 1 as [|b rest Hb Hrest IH]; simpl length; simpl bits_value; [lia|].
  rewrite Nat2Z.inj_succ, Z.pow_succ_r by lia. destruct Hb as [-> | ->]; lia.
Qed.

Lemma BytesToInt_from_value genes : forall i result,
  Forall is_bit genes -> (i + length genes <= 63)%nat ->
  0 <= result < 2 ^ Z.of_nat i ->
  BytesToInt_from i genes result = result + 2 ^ Z.of_nat i * bits_value genes.
Proof.
  induction genes as [|b rest IH]; intros i result Hbits Hlen Hr; simpl.
  - lia.
  - apply Forall_cons in Hbits as [Hb Hrest]. simpl in Hlen.
    assert (2 ^ Z.of_nat (S i) = 2 * 2 ^ Z.of_nat i) as Hpow
      by (rewrite Nat2Z.inj_succ, Z.pow_succ_r; lia).
    destruct Hb as [-> | ->]; simpl.
    + rewrite IH; [|done|lia|lia]. lia.
    + rewrite shl1_small by lia. rewrite lor_pow2_above by lia.
      rewrite IH; [|done|lia|lia]. lia.
Qed.

Lemma BytesToInt_value genes :
  Forall is_bit genes -> (length genes <= 63)%nat ->
  BytesToInt genes = bits_value genes.
Proof.
  intros Hbits Hlen. unfold BytesToInt.
  rewrite BytesToInt_from_value; simpl; (done || lia).
Qed.







Lemma BytesToInt_from_as_bit genes : forall i result,
  BytesToInt_from i (as_bit <$> genes) result = BytesToInt_from i genes result.
Proof.
  induction genes as [|b rest IH]; intros i result; simpl; [done|].
  rewrite IH. unfold as_bit. by destruct (b =? 1).
Qed.

Lemma as_bit_is_bit genes : Forall is_bit (as_bit <$> genes).
Proof.
  apply Forall_fmap, Forall_true. intros b. unfold as_bit; simpl.
  destruct (b =? 1); [by right|by left].
Qed.

Lemma BytesToInt_as_bit genes : BytesToInt genes = BytesToInt (as_bit <$> genes).
Proof. unfold BytesToInt. by rewrite BytesToInt_from_as_bit. Qed.

Lemma BytesToInt_range genes :
  (length genes <= 63)%nat ->
  0 <= BytesToInt genes <= 2 ^ Z.of_nat (length genes) - 1.
Proof.
  intros Hlen. rewrite BytesToInt_as_bit.
  rewrite BytesToInt_value; [|apply as_bit_is_bit|by rewrite length_fmap].
  pose proof (bits_value_range _ (as_bit_is_bit genes)) as Hr.
  rewrite length_fmap in Hr. lia.
Qed.




(** ** More on [BytesToInt] and [BytesToFloat] *)

(** X12. [BytesToInt] reads a byte only through [== 1]: every other value
    counts as a 0 bit, and for at most 63 bytes the result lies in
    [0, 2^L - 1] whatever the bytes are. *)
Theorem BytesToInt_only_ones_count genes :
  BytesToInt genes = BytesToInt (as_bit <$> genes)
  /\ ((length genes <= 63)%nat ->
      0 <= BytesToInt genes <= 2 ^ Z.of_nat (length genes) - 1).
Proof. split; [apply BytesToInt_as_bit|apply BytesToInt_range]. Qed.

Lemma bits_value_inj g1 : forall g2,
  length g1 = length g2 -> Forall is_bit g1 -> Forall is_bit g2 ->
  bits_value g1 = bits_value g2 -> g1 = g2.
Proof.
  induction g1 as [|a r1 IH]; intros [|b r2] Hlen H1 H2 Hv; try done.
  apply Forall_cons in H1 as [Ha H1]. apply Forall_cons in H2 as [Hb H2].
  simpl in Hv, Hlen.
  assert (a = b /\ bits_value r1 = bits_value r2) as [-> Hr].
  { destruct Ha as [-> | ->], Hb as [-> | ->]; lia. }
  f_equal. apply IH; (done || lia).
Qed.

(** X13. On bit vectors of one length, at most 63, [BytesToInt] is
    injective: two genotypes with the same integer are the same
    genotype. *)
Theorem BytesToInt_injective g1 g2 :
  length g1 = length g2 -> (length g1 <= 63)%nat ->
  Forall is_bit g1 -> Forall is_bit g2 ->
  BytesToInt g1 = BytesToInt g2 -> g1 = g2.
Proof.
  intros Hlen H63 H1 H2 Heq.
  rewrite !BytesToInt_value in Heq by (done || lia).
  by apply bits_value_inj.
Qed.

Lemma BytesToInt_injective_witness :
  BytesToInt [1; 0; 1] = 5 /\ BytesToInt (rev [1; 0; 1]) = 5 /\
  [1; 0; 1] = rev [1; 0; 1].
Proof.
  split; [reflexivity|]. split; [reflexivity|].
  apply (BytesToInt_injective [1; 0; 1] (rev [1; 0; 1]) eq_refl).
  - simpl. lia.
  - repeat constructor; (by left) || (by right).
  - repeat constructor; (by left) || (by right).
  - reflexivity.
Defined.

Lemma shl1_large i : (64 <= i)%nat -> shl1 i = 0.
Proof.
  intros Hi. unfold shl1, wrap64. rewrite Z.shiftl_1_l.
  replace (Z.of_nat i) with (64 + (Z.of_nat i - 64)) by lia.
  rewrite Z.pow_add_r by lia.
  rewrite Z.add_comm, Z.mul_comm, Z.mod_add by lia. reflexivity.
Qed.

Lemma BytesToInt_from_large genes : forall i result,
  (64 <= i)%nat -> BytesToInt_from i genes result = result.
Proof.
  induction genes as [|b rest IH]; intros i result Hi; simpl; [done|].
  rewrite IH by lia. destruct (b =? 1); [|done].
  by rewrite shl1_large, Z.lor_0_r.
Qed.

Lemma BytesToInt_from_app g1 : forall g2 i result,
  BytesToInt_from i (g1 ++ g2) result
  = BytesToInt_from (i + length g1) g2 (BytesToInt_from i g1 result).
Proof.
  induction g1 as [|b rest IH]; intros g2 i result; simpl.
  - by rewrite Nat.add_0_r.
  - rewrite IH. f_equal. lia.
Qed.

(** X14. A Go [int] has 64 bits: the bytes at positions 64 and beyond do
    not reach the result of [BytesToInt]. *)
Theorem BytesToInt_ignores_beyond_64 genes extra :
  (64 <= length genes)%nat -> BytesToInt (genes ++ extra) = BytesToInt genes.
Proof.
  intros Hlen. unfold BytesToInt.
  rewrite BytesToInt_from_app. by apply BytesToInt_from_large.
Qed.

Lemma BytesToInt_ignores_beyond_64_witness :
  BytesToInt (replicate 64 1 ++ [1; 1]) = BytesToInt (replicate 64 1).
Proof.
  apply BytesToInt_ignores_beyond_64. rewrite length_replicate. lia.
Defined.

Lemma nan_mul x : PrimFloat.mul nan x = nan.
Proof.
  apply Prim2SF_inj. rewrite FloatAxioms.mul_spec. reflexivity.
Qed.

Lemma add_nan x : PrimFloat.add x nan = nan.
Proof.
  apply Prim2SF_inj. rewrite FloatAxioms.add_spec.
  change (Prim2SF nan) with S754_nan. unfold SF64add, SFadd.
  by destruct (Prim2SF x).
Qed.

(** X15. Of the empty vector [BytesToInt] is 0 and [maxInt] is 0 too:
    [BytesToFloat] divides 0 by 0 and returns NaN, whatever the bounds. *)
Theorem BytesToFloat_empty min max :
  BytesToInt [] = 0 /\ BytesToFloat [] min max = nan.
Proof.
  split; [done|]. unfold BytesToFloat.
  change (PrimFloat.div (float64_of_int (BytesToInt []))
            (float64_of_int (maxInt_of []))) with nan.
  by rewrite nan_mul, add_nan.
Qed.

End DecodeFacts.

(* ===================================================================== *)
(** * Reasoning about computations                                       *)
(* ===================================================================== *)

Module Logic.
Import GA Spec.

Lemma wp_ok {A} (m : M A) Q s :
  wp m Q s <-> exists a s', m s = Ok (a, s') /\ Q a s'.
Proof.
  unfold wp. destruct (m s) as [[a s']|msg]; split.
  - eauto.
  - intros (a0 & s0 & E & H). by inversion E; subst.
  - tauto.
  - intros (a0 & s0 & E & _). discriminate.
Qed.

Lemma wp_ret {A} (a : A) Q s : wp (mret a) Q s <-> Q a s.
Proof. reflexivity. Qed.

Lemma wp_bind {A B} (m : M A) (f : A -> M B) Q s :
  wp (m ≫= f) Q s <-> wp m (fun a s' => wp (f a) Q s') s.
Proof.
  unfold wp, mbind, M_bind. by destruct (m s) as [[a s']|msg].
Qed.

Lemma wp_mono {A} (m : M A) (Q Q' : A -> GeneticAlgorithm -> Prop) s :
  wp m Q s -> (forall a s', Q a s' -> Q' a s') -> wp m Q' s.
Proof.
  unfold wp. destruct (m s) as [[a s']|msg]; [|tauto]. intros H HQ. by apply HQ.
Qed.

Lemma wp_get Q s : wp get Q s <-> Q s s.
Proof. reflexivity. Qed.

Lemma wp_panic_bind {A B} (m : M A) (f : A -> M B) s msg :
  m s = Panic msg -> (m ≫= f) s = Panic msg.
Proof. unfold mbind, M_bind. by intros ->. Qed.

Lemma bind_ok {A B} (m : M A) (f : A -> M B) s a s' :
  m s = Ok (a, s') -> (m ≫= f) s = f a s'.
Proof. unfold mbind, M_bind. by intros ->. Qed.

(** The invariant rule of the counted loop. *)
Lemma wp_for_range (I : nat -> GeneticAlgorithm -> Prop) body n i0 s :
  I i0 s ->
  (forall i s', i0 <= i < i0 + n -> I i s' ->
     wp (body i) (fun _ s'' => I (S i) s'') s') ->
  wp (for_range n i0 body) (fun _ s' => I (i0 + n) s') s.
Proof.
  revert i0 s. induction n as [|n IH]; intros i0 s Hi Hbody; simpl.
  - apply wp_ret. by rewrite Nat.add_0_r.
  - apply wp_bind. eapply wp_mono; [apply (Hbody i0 s); [lia|done]|].
    intros u s' Hs'. simpl in Hs'.
    replace (i0 + S n) with (S i0 + n) by lia.
    apply IH; [done|]. intros i s'' Hr. apply Hbody. lia.
Qed.

Lemma draw_at_range r n : (0 <= draw_at r n)%Q /\ (draw_at r n < 1)%Q.
Proof.
  unfold draw_at, Qle, Qlt; simpl.
  pose proof (Z.mod_pos_bound (tape r n) (2 ^ 53) ltac:(lia)) as Hb.
  split; lia.
Qed.

Lemma Qltb_lt a b : Qltb a b = true <-> (a < b)%Q.
Proof.
  unfold Qltb. rewrite negb_true_iff. split.
  - intros H. apply Qnot_le_lt. intros Hle.
    apply Qle_bool_iff in Hle. congruence.
  - intros H. destruct (Qle_bool b a) eqn:E; [|done].
    apply Qle_bool_iff in E. exfalso. by apply (Qlt_not_le a b).
Qed.

Lemma Qltb_ge a b : Qltb a b = false <-> (b <= a)%Q.
Proof.
  unfold Qltb. rewrite negb_false_iff. apply Qle_bool_iff.
Qed.

Lemma Float64_eq s k h :
  Float64 (st_after s k h)
  = Ok (draw_at (rng s) (k + pos (rng s)), st_after s (S k) h).
Proof. reflexivity. Qed.

Lemma wp_Float64 Q s k h :
  Q (draw_at (rng s) (k + pos (rng s))) (st_after s (S k) h) ->
  wp Float64 Q (st_after s k h).
Proof. done. Qed.

Lemma wp_load Q s p g : mem s !! p = Some g -> Q g s -> wp (load p) Q s.
Proof. intros Hp HQ. unfold wp, load, mbind, M_bind; simpl. by rewrite Hp. Qed.

Lemma wp_load_byte Q s p i g b :
  mem s !! p = Some g -> g !! i = Some b -> Q b s -> wp (load_byte p i) Q s.
Proof.
  intros Hp Hi HQ. unfold load_byte. apply wp_bind.
  eapply wp_load; [done|]. by rewrite Hi.
Qed.

Lemma wp_store_byte Q s k h p i v g :
  h !! p = Some g -> i < length g ->
  Q tt (st_after s k (<[p := <[i := v]> g]> h)) ->
  wp (store_byte p i v) Q (st_after s k h).
Proof.
  intros Hp Hi HQ. unfold store_byte. apply wp_bind.
  eapply wp_load; [done|]. by rewrite decide_True.
Qed.

Lemma insert_take_drop {A} (m g : list A) i x :
  length m = length g -> m !! i = Some x ->
  <[i := x]> (take i m ++ drop i g) = take (S i) m ++ drop (S i) g.
Proof.
  intros Hlen Hm.
  assert (i < length g) as Hi by (rewrite <- Hlen; by eapply lookup_lt_Some).
  destruct (lookup_lt_is_Some_2 g i Hi) as [y Hy].
  rewrite (take_S_r m i x Hm), (drop_S g y i Hy).
  rewrite insert_app_r_alt; rewrite length_take; [|lia].
  replace (i - i `min` length m) with 0 by lia. simpl.
  by rewrite <- app_assoc.
Qed.

Lemma mutated_length r k prob g : length (mutated r k prob g) = length g.
Proof. apply length_imap. Qed.

Lemma mutated_lookup r k prob g i b :
  g !! i = Some b ->
  mutated r k prob g !! i
  = Some (if Qltb (draw_at r (i + k)) prob then flip_bit b else b).
Proof. intros H. unfold mutated. by rewrite list_lookup_imap, H. Qed.

Lemma mutate_spec config individual s g :
  mem s !! Genes individual = Some g ->
  mutate config individual s
  = Ok (tt, st_after s (length g)
              (<[Genes individual :=
                   mutated (rng s) (pos (rng s)) (MutationProb config) g]> (mem s))).
Proof.
  intros Hg. set (p := Genes individual) in *.
  set (m := mutated (rng s) (pos (rng s)) (MutationProb config) g).
  assert (p < length (mem s)) as Hp by (by eapply lookup_lt_Some).
  assert (wp (mutate config individual)
            (fun _ s' => s' = st_after s (length g) (<[p := m]> (mem s))) s) as H.
  { unfold mutate. apply wp_bind. eapply wp_load; [done|].
    eapply wp_mono.
    - apply (wp_for_range
               (fun i s' => s' = st_after s i
                              (<[p := take i m ++ drop i g]> (mem s)))).
      + simpl. rewrite list_insert_id by done. by destruct s as [? ? [? ?] ?].
      + intros i s' Hi ->. simpl in Hi.
        destruct (lookup_lt_is_Some_2 g i ltac:(lia)) as [b Hb].
        pose proof (mutated_lookup (rng s) (pos (rng s)) (MutationProb config)
                      g i b Hb) as Hm. fold m in Hm.
        assert (length m = length g) as Hlen by apply mutated_length.
        apply wp_bind, wp_Float64.
        assert ((take i m ++ drop i g) !! i = Some b) as Hcur.
        { rewrite lookup_app_r; rewrite length_take; [|lia].
          replace (i - i `min` length m) with 0 by lia.
          by rewrite lookup_drop, Nat.add_0_r. }
        destruct (Qltb _ _) eqn:E.
        * apply wp_bind. eapply wp_load_byte; [by apply list_lookup_insert_eq|done|].
          simpl. fold p.
          assert (forall v, v = flip_bit b ->
             wp (store_byte p i v) (fun _ s'' => s'' = st_after s (S i)
                 (<[p:=take (S i) m ++ drop (S i) g]> (mem s)))
               (st_after s (S i) (<[p:=take i m ++ drop i g]> (mem s)))) as Hst.
          { intros v ->. eapply wp_store_byte.
            - by apply list_lookup_insert_eq.
            - rewrite length_app, length_take, length_drop. lia.
            - rewrite list_insert_insert_eq. do 2 f_equal.
              by apply insert_take_drop. }
          unfold flip_bit in Hst. destruct (b =? 0)%Z; exact (Hst _ eq_refl).
        * apply wp_ret. do 2 f_equal.
          rewrite <- (insert_take_drop m g i b Hlen Hm).
          symmetry. by apply list_insert_id.
    - intros u s' ->. simpl. do 2 f_equal.
      assert (length m = length g) as Hlen by apply mutated_length.
      rewrite take_ge, drop_all by lia.
      by rewrite app_nil_r. }
  apply wp_ok in H as (u & s' & -> & ->). by destruct u.
Qed.

(** ** Crossover *)

Lemma Intn_eq s k h n :
  (0 < n)%Z ->
  Intn n (st_after s k h)
  = Ok ((tape (rng s) (k + pos (rng s)) mod n)%Z, st_after s (S k) h).
Proof.
  intros Hn. unfold Intn. destruct (Z.leb_spec n 0); [lia|]. reflexivity.
Qed.

Lemma wp_Intn Q s k h n :
  (0 < n)%Z ->
  Q (tape (rng s) (k + pos (rng s)) mod n)%Z (st_after s (S k) h) ->
  wp (Intn n) Q (st_after s k h).
Proof. intros Hn HQ. unfold wp. by rewrite Intn_eq. Qed.

Lemma wp_make_bytes Q s k h (n : nat) :
  Q (length h) (st_after s k (h ++ [replicate n 0%Z])) ->
  wp (make_bytes (Z.of_nat n)) Q (st_after s k h).
Proof.
  intros HQ. unfold wp, make_bytes.
  destruct (Z.ltb_spec (Z.of_nat n) 0); [lia|].
  simpl. by rewrite Nat2Z.id.
Qed.

Lemma wp_load_slice Q s p lo hi g :
  mem s !! p = Some g -> lo <= hi <= length g ->
  Q (take (hi - lo) (drop lo g)) s ->
  wp (load_slice p lo hi) Q s.
Proof.
  intros Hp Hr HQ. unfold load_slice. apply wp_bind.
  eapply wp_load; [done|]. by rewrite decide_True.
Qed.

Lemma wp_store_slice Q s k h p lo hi src g :
  h !! p = Some g -> lo <= hi <= length g ->
  Q tt (st_after s k (<[p := slice_write g lo hi src]> h)) ->
  wp (store_slice p lo hi src) Q (st_after s k h).
Proof.
  intros Hp Hr HQ. unfold store_slice. apply wp_bind.
  eapply wp_load; [done|]. by rewrite decide_True.
Qed.

Lemma slice_write_prefix g c x :
  c <= length g -> c <= length x ->
  slice_write g 0 c (take (c - 0) (drop 0 x)) = take c x ++ drop c g.
Proof.
  intros Hg Hx. unfold slice_write. rewrite Nat.sub_0_r, drop_0. simpl.
  rewrite length_take. replace (c `min` (c `min` length x)) with c by lia.
  by rewrite take_take, Nat.min_id.
Qed.

Lemma slice_write_suffix g c y n :
  c <= n -> length g = n -> length y = n ->
  slice_write g c n (take (n - c) (drop c y)) = take c g ++ drop c y.
Proof.
  intros Hc Hg Hy. unfold slice_write.
  rewrite length_take, length_drop, Hy.
  replace ((n - c) `min` ((n - c) `min` (n - c))) with (n - c) by lia.
  rewrite take_take, Nat.min_id.
  rewrite (take_ge (drop c y)) by (rewrite length_drop; lia).
  rewrite (drop_ge g) by lia. by rewrite app_nil_r.
Qed.

Lemma lookup_child1 {A} (h : list A) c1 c2 : (h ++ [c1; c2]) !! length h = Some c1.
Proof. by rewrite lookup_app_r, Nat.sub_diag. Qed.

Lemma lookup_child2 {A} (h : list A) c1 c2 :
  (h ++ [c1; c2]) !! S (length h) = Some c2.
Proof.
  rewrite lookup_app_r by lia. by replace (S (length h) - length h) with 1 by lia.
Qed.

Lemma insert_child1 {A} (h : list A) c1 c2 x :
  <[length h := x]> (h ++ [c1; c2]) = h ++ [x; c2].
Proof. by rewrite insert_app_r_alt, Nat.sub_diag. Qed.

Lemma insert_child2 {A} (h : list A) c1 c2 x :
  <[S (length h) := x]> (h ++ [c1; c2]) = h ++ [c1; x].
Proof.
  rewrite insert_app_r_alt by lia.
  by replace (S (length h) - length h) with 1 by lia.
Qed.

Lemma onepointCrossover_spec parent1 parent2 s g1 g2 :
  mem s !! Genes parent1 = Some g1 ->
  mem s !! Genes parent2 = Some g2 ->
  length g1 = length g2 -> 0 < length g1 ->
  let c := Z.to_nat (tape (rng s) (pos (rng s)) mod Z.of_nat (length g1)) in
  onepointCrossover parent1 parent2 s
  = Ok (({| Genes := length (mem s); Fitness := 0 |},
         {| Genes := S (length (mem s)); Fitness := 0 |}),
        st_after s 1 (mem s ++ [onepoint_child c g1 g2; onepoint_child c g2 g1])).
Proof.
  intros H1 H2 Hlen Hpos c.
  assert (c < length g1) as Hc.
  { subst c. pose proof (Z.mod_pos_bound (tape (rng s) (pos (rng s)))
                           (Z.of_nat (length g1)) ltac:(lia)). lia. }
  set (h := mem s) in *.
  assert (Genes parent1 < length h) as Hp1 by (by eapply lookup_lt_Some).
  assert (Genes parent2 < length h) as Hp2 by (by eapply lookup_lt_Some).
  match goal with |- ?m s = Ok (?a, ?s') =>
    assert (wp m (fun a' s'' => a' = a /\ s'' = s') s) as H end.
  { unfold onepointCrossover.
    apply wp_bind. eapply wp_load; [done|].
    apply wp_bind. eapply wp_load; [done|].
    assert (s = st_after s 0 h) as Hs by (by destruct s as [? ? [? ?] ?]).
    rewrite Hs at 1.
    apply wp_bind, wp_Intn; [lia|]. simpl. fold c. clearbody c.
    rewrite <- Hlen.
    apply wp_bind, wp_make_bytes.
    apply wp_bind, wp_make_bytes.
    rewrite length_app. simpl. rewrite Nat.add_1_r, <- app_assoc. simpl.
    set (z := replicate (length g1) 0%Z).
    assert (length z = length g1) as Hz by apply length_replicate.
    (* copy(child1Genes[:point], parent1.Genes[:point]) *)
    apply wp_bind, wp_bind.
    eapply wp_load_slice; [simpl; by rewrite lookup_app_l|lia|].
    eapply wp_store_slice; [apply lookup_child1|lia|].
    rewrite insert_child1, slice_write_prefix by lia.
    (* copy(child1Genes[point:], parent2.Genes[point:]) *)
    apply wp_bind, wp_bind.
    eapply wp_load_slice; [simpl; by rewrite lookup_app_l|lia|].
    set (w := take c g1 ++ drop c z).
    assert (length w = length g1) as Hw.
    { unfold w. rewrite length_app, length_take, length_drop. lia. }
    eapply wp_store_slice; [apply lookup_child1|lia|].
    rewrite insert_child1, slice_write_suffix by lia.
    replace (take c w) with (take c g1)
      by (unfold w; rewrite take_app_le, take_take by (rewrite length_take; lia);
          f_equal; lia).
    (* copy(child2Genes[:point], parent2.Genes[:point]) *)
    apply wp_bind, wp_bind.
    eapply wp_load_slice; [simpl; by rewrite lookup_app_l|lia|].
    eapply wp_store_slice; [apply lookup_child2|lia|].
    rewrite insert_child2, slice_write_prefix by lia.
    (* copy(child2Genes[point:], parent1.Genes[point:]) *)
    apply wp_bind, wp_bind.
    eapply wp_load_slice; [simpl; by rewrite lookup_app_l|lia|].
    set (w2 := take c g2 ++ drop c z).
    assert (length w2 = length g1) as Hw2.
    { unfold w2. rewrite length_app, length_take, length_drop. lia. }
    eapply wp_store_slice; [apply lookup_child2|lia|].
    rewrite insert_child2, slice_write_suffix by lia.
    replace (take c w2) with (take c g2)
      by (unfold w2; rewrite take_app_le, take_take by (rewrite length_take; lia);
          f_equal; lia).
    apply wp_ret. done. }
  apply wp_ok in H as (a & s' & -> & -> & ->). done.
Qed.

Lemma pick_length r k a b : length a = length b -> length (pick r k a b) = length a.
Proof. intros H. unfold pick. rewrite length_imap, length_zip. lia. Qed.

Lemma pick_lookup r k a b i x y :
  a !! i = Some x -> b !! i = Some y ->
  pick r k a b !! i = Some (if coin r k i then x else y).
Proof.
  intros Ha Hb. unfold pick. rewrite list_lookup_imap.
  by rewrite (proj2 (lookup_zip_Some a b i x y) (conj Ha Hb)).
Qed.

Lemma uniformCrossover_spec parent1 parent2 s g1 g2 :
  mem s !! Genes parent1 = Some g1 ->
  mem s !! Genes parent2 = Some g2 ->
  length g1 = length g2 ->
  uniformCrossover parent1 parent2 s
  = Ok (({| Genes := length (mem s); Fitness := 0 |},
         {| Genes := S (length (mem s)); Fitness := 0 |}),
        st_after s (length g1)
          (mem s ++ [pick (rng s) (pos (rng s)) g1 g2;
                     pick (rng s) (pos (rng s)) g2 g1])).
Proof.
  intros H1 H2 Hlen.
  set (h := mem s) in *.
  set (u1 := pick (rng s) (pos (rng s)) g1 g2).
  set (u2 := pick (rng s) (pos (rng s)) g2 g1).
  assert (length u1 = length g1) as Hu1 by (by apply pick_length).
  assert (length u2 = length g1) as Hu2 by (unfold u2; rewrite pick_length; done).
  assert (Genes parent1 < length h) as Hp1 by (by eapply lookup_lt_Some).
  assert (Genes parent2 < length h) as Hp2 by (by eapply lookup_lt_Some).
  match goal with |- ?m s = Ok (?a, ?s') =>
    assert (wp m (fun a' s'' => a' = a /\ s'' = s') s) as H end.
  { unfold uniformCrossover.
    apply wp_bind. eapply wp_load; [done|].
    apply wp_bind. eapply wp_load; [done|].
    assert (s = st_after s 0 h) as Hs by (by destruct s as [? ? [? ?] ?]).
    rewrite Hs at 1. rewrite <- Hlen.
    apply wp_bind, wp_make_bytes.
    apply wp_bind, wp_make_bytes.
    rewrite length_app. simpl. rewrite Nat.add_1_r, <- app_assoc. simpl.
    set (z := replicate (length g1) 0%Z).
    assert (length z = length g1) as Hz by apply length_replicate.
    apply wp_bind. eapply wp_mono.
    - apply (wp_for_range
               (fun i s' => s' = st_after s i
                  (h ++ [take i u1 ++ drop i z; take i u2 ++ drop i z]))).
      + by rewrite !take_0, !drop_0.
      + intros i s' Hi ->. simpl in Hi.
        destruct (lookup_lt_is_Some_2 g1 i ltac:(lia)) as [x Hx].
        destruct (lookup_lt_is_Some_2 g2 i ltac:(lia)) as [y Hy].
        pose proof (pick_lookup (rng s) (pos (rng s)) g1 g2 i x y Hx Hy) as Hk1.
        pose proof (pick_lookup (rng s) (pos (rng s)) g2 g1 i y x Hy Hx) as Hk2.
        fold u1 in Hk1. fold u2 in Hk2.
        assert (forall u : list byte, length u = length g1 ->
                  i < length (take i u ++ drop i z)) as Hin.
        { intros u Hu. rewrite length_app, length_take, length_drop. lia. }
        apply wp_bind, wp_Float64. fold (coin (rng s) (pos (rng s)) i).
        destruct (coin (rng s) (pos (rng s)) i).
        * apply wp_bind, wp_bind.
          eapply wp_load_byte; [simpl; by rewrite lookup_app_l|done|].
          eapply wp_store_byte; [apply lookup_child1|by apply Hin|].
          rewrite insert_child1, (insert_take_drop u1 z i x) by (done || lia).
          apply wp_bind.
          eapply wp_load_byte; [simpl; by rewrite lookup_app_l|done|].
          eapply wp_store_byte; [apply lookup_child2|by apply Hin|].
          by rewrite insert_child2, (insert_take_drop u2 z i y) by (done || lia).
        * apply wp_bind, wp_bind.
          eapply wp_load_byte; [simpl; by rewrite lookup_app_l|done|].
          eapply wp_store_byte; [apply lookup_child1|by apply Hin|].
          rewrite insert_child1, (insert_take_drop u1 z i y) by (done || lia).
          apply wp_bind.
          eapply wp_load_byte; [simpl; by rewrite lookup_app_l|done|].
          eapply wp_store_byte; [apply lookup_child2|by apply Hin|].
          by rewrite insert_child2, (insert_take_drop u2 z i x) by (done || lia).
    - intros u s' ->. apply wp_ret. split; [done|]. simpl.
      rewrite !take_ge, !drop_ge by lia. by rewrite !app_nil_r. }
  apply wp_ok in H as (a & s' & -> & -> & ->). done.
Qed.

(** ** Frames: what a step of the engine leaves alone *)

Lemma shape_le_refl h : shape_le h h.
Proof. intros p g Hp. eauto. Qed.

Lemma shape_le_trans h1 h2 h3 : shape_le h1 h2 -> shape_le h2 h3 -> shape_le h1 h3.
Proof.
  intros H12 H23 p g Hp.
  destruct (H12 p g Hp) as (g' & Hp' & Hl').
  destruct (H23 p g' Hp') as (g'' & Hp'' & Hl''). exists g''. split; [done|lia].
Qed.

Lemma shape_le_app h l : shape_le h (h ++ l).
Proof. intros p g Hp. exists g. split; [|done]. by apply lookup_app_l_Some. Qed.

Lemma shape_le_insert h p g g' :
  h !! p = Some g -> length g' = length g -> shape_le h (<[p := g']> h).
Proof.
  intros Hp Hl q x Hq. destruct (decide (p = q)) as [->|Hne].
  - exists g'. split; [|congruence].
    apply list_lookup_insert_eq. by eapply lookup_lt_Some.
  - exists x. by rewrite list_lookup_insert_ne.
Qed.

Lemma frame_refl s : frame s s.
Proof. repeat split. apply shape_le_refl. Qed.

Lemma frame_trans s1 s2 s3 : frame s1 s2 -> frame s2 s3 -> frame s1 s3.
Proof.
  intros (P1 & B1 & T1 & M1) (P2 & B2 & T2 & M2).
  repeat split; try congruence. by eapply shape_le_trans.
Qed.

Lemma frame_st_after s k h : shape_le (mem s) h -> frame s (st_after s k h).
Proof. by repeat split. Qed.

Lemma valid_shape_le L h h' x : shape_le h h' -> valid L h x -> valid L h' x.
Proof.
  intros Hle (g & Hg & Hl). destruct (Hle _ _ Hg) as (g' & Hg' & Hl').
  exists g'. split; [done|lia].
Qed.

Lemma Forall_valid_shape_le L h h' l :
  shape_le h h' -> Forall (valid L h) l -> Forall (valid L h') l.
Proof.
  intros Hle H. eapply Forall_impl; [done|]. intros x. by apply valid_shape_le.
Qed.

Lemma eta_st_after s : s = st_after s 0 (mem s).
Proof. by destruct s as [? ? [? ?] ?]. Qed.

Lemma st_after_after s k h k' h' :
  st_after (st_after s k h) k' h' = st_after s (k' + k) h'.
Proof. unfold st_after; simpl. by rewrite Nat.add_assoc. Qed.

Lemma wp_Float64_frame (Q : Q -> GeneticAlgorithm -> Prop) s :
  (forall d s', frame s s' -> mem s' = mem s -> Q d s') -> wp Float64 Q s.
Proof.
  intros HQ. rewrite (eta_st_after s). apply wp_Float64.
  apply HQ; [apply frame_st_after, shape_le_refl|done].
Qed.

Lemma wp_population_at Q s (i : Z) :
  (0 <= i < Z.of_nat (length (population s)))%Z ->
  (forall x, x ∈ population s -> Q x s) ->
  wp (population_at i) Q s.
Proof.
  intros Hi HQ. unfold population_at. apply wp_bind, wp_get.
  destruct (Z.ltb_spec i 0); [lia|].
  destruct (lookup_lt_is_Some_2 (population s) (Z.to_nat i) ltac:(lia)) as [x Hx].
  rewrite Hx. apply wp_ret, HQ. by eapply list_elem_of_lookup_2.
Qed.

Lemma wp_tournament_rounds Q s k h rounds best :
  population s ≠ [] ->
  (forall x, x ∈ best :: population s -> Q x (st_after s (rounds + k) h)) ->
  wp (tournament_rounds rounds best) Q (st_after s k h).
Proof.
  intros Hne. revert k best. induction rounds as [|n IH]; intros k best HQ; simpl.
  - apply wp_ret, HQ. left.
  - assert (0 < length (population s)) as Hlen.
    { destruct (population s); [done|simpl; lia]. }
    apply wp_bind, wp_get. simpl.
    apply wp_bind, wp_Intn; [lia|].
    apply wp_bind, wp_population_at.
    { simpl. apply Z.mod_pos_bound. lia. }
    simpl. intros cand Hcand. apply IH. intros x Hx.
    replace (n + S k) with (S (n + k)) by lia. apply HQ.
    apply elem_of_cons in Hx as [->|Hx]; [|by right].
    destruct (Qltb _ _); [by right|left].
Qed.

Lemma wp_tournamentSelection Q s :
  population s ≠ [] ->
  (forall x s', x ∈ population s -> frame s s' -> mem s' = mem s -> Q x s') ->
  wp tournamentSelection Q s.
Proof.
  intros Hne HQ. unfold tournamentSelection.
  assert (0 < length (population s)) as Hlen.
  { destruct (population s); [done|simpl; lia]. }
  rewrite (eta_st_after s) at 1.
  apply wp_bind, wp_get. simpl.
  apply wp_bind, wp_Intn; [lia|].
  apply wp_bind, wp_population_at.
  { simpl. apply Z.mod_pos_bound. lia. }
  intros best Hbest. simpl in Hbest.
  apply (wp_tournament_rounds Q s 1 (mem s) (tournamentSize - 1) best); [done|].
  intros x Hx. apply HQ; [|apply frame_st_after, shape_le_refl|done].
  apply elem_of_cons in Hx as [->|Hx]; done.
Qed.

Lemma wp_crossover Q config L s parent1 parent2 :
  1 <= L -> valid L (mem s) parent1 -> valid L (mem s) parent2 ->
  (forall c1 c2 s', frame s s' -> valid L (mem s') c1 -> valid L (mem s') c2 ->
     Q (c1, c2) s') ->
  wp (crossover config parent1 parent2) Q s.
Proof.
  intros HL (g1 & H1 & Hl1) (g2 & H2 & Hl2) HQ. unfold crossover.
  assert (length g1 = length g2) as Hlen by lia.
  destruct (String.eqb _ _).
  - apply wp_ok. eexists _, _. split.
    { apply (onepointCrossover_spec _ _ _ g1 g2); (done || lia). }
    apply HQ.
    + apply frame_st_after, shape_le_app.
    + eexists. split; [apply lookup_child1|].
      unfold onepoint_child. rewrite length_app, length_take, length_drop. lia.
    + eexists. split; [apply lookup_child2|].
      unfold onepoint_child. rewrite length_app, length_take, length_drop. lia.
  - apply wp_ok. eexists _, _. split.
    { by apply (uniformCrossover_spec _ _ _ g1 g2). }
    apply HQ.
    + apply frame_st_after, shape_le_app.
    + eexists. split; [apply lookup_child1|]. rewrite pick_length; lia.
    + eexists. split; [apply lookup_child2|]. rewrite pick_length; lia.
Qed.

Lemma wp_mutate Q config L s individual :
  valid L (mem s) individual ->
  (forall s', frame s s' -> Q tt s') ->
  wp (mutate config individual) Q s.
Proof.
  intros (g & Hg & Hl) HQ. apply wp_ok. eexists _, _. split.
  { by apply (mutate_spec _ _ _ g). }
  apply HQ, frame_st_after. eapply shape_le_insert; [done|].
  apply mutated_length.
Qed.

Lemma wp_evaluate Q config L s p f :
  valid L (mem s) {| Genes := p; Fitness := f |} ->
  (forall fit, Q fit s) -> wp (evaluate config p) Q s.
Proof.
  intros (g & Hg & Hl) HQ. unfold evaluate. apply wp_bind.
  eapply wp_load; [done|]. apply wp_ret, HQ.
Qed.

Lemma valid_Genes L h x y : Genes x = Genes y -> valid L h x -> valid L h y.
Proof. unfold valid. by intros ->. Qed.

Lemma frame_population_ne s s' : frame s s' -> population s ≠ [] -> population s' ≠ [].
Proof. intros (-> & _). done. Qed.

Lemma wp_reproduce config L room :
  forall newPopulation s (Q : list Individual -> GeneticAlgorithm -> Prop),
  1 <= L -> population s ≠ [] ->
  Forall (valid L (mem s)) (population s) ->
  Forall (valid L (mem s)) newPopulation ->
  (forall np s', frame s s' -> length np = length newPopulation + room ->
     newPopulation `prefix_of` np -> Forall (valid L (mem s')) np -> Q np s') ->
  wp (reproduce config room newPopulation) Q s.
Proof.
  induction room as [room IH] using lt_wf_ind.
  intros newPopulation s Q HL Hne Hpop Hnew HQ.
  destruct room as [|room']; simpl.
  { apply wp_ret, HQ; [apply frame_refl|lia|done|done]. }
  apply wp_bind, wp_tournamentSelection; [done|]. intros p1 s1 Hp1 F1 M1.
  apply wp_bind, wp_tournamentSelection; [by eapply frame_population_ne|].
  intros p2 s2 Hp2 F2 M2.
  apply wp_bind, wp_Float64_frame. intros d s3 F3 M3.
  assert (frame s s3) as F03 by (eauto using frame_trans).
  assert (mem s3 = mem s) as M03 by congruence.
  assert (valid L (mem s3) p1) as V1.
  { rewrite M03. rewrite Forall_forall in Hpop. by apply Hpop. }
  assert (valid L (mem s3) p2) as V2.
  { rewrite M03. rewrite Forall_forall in Hpop. apply Hpop.
    destruct F1 as (<- & _). done. }
  apply wp_bind.
  apply (wp_mono _ (fun cc s4 => frame s3 s4 /\ valid L (mem s4) cc.1
                                 /\ valid L (mem s4) cc.2)).
  { destruct (Qltb d _).
    - apply (wp_crossover _ _ L); [done..|]. intros c1 c2 s4 F4 W1 W2. done.
    - apply wp_ret. split; [apply frame_refl|done]. }
  intros [c1 c2] s4 (F4 & W1 & W2). simpl in W1, W2.
  apply wp_bind, (wp_mutate _ _ L); [done|]. intros s5 F5.
  apply wp_bind, (wp_mutate _ _ L).
  { destruct F5 as (_ & _ & _ & F5). by eapply valid_shape_le. }
  intros s6 F6.
  assert (frame s s6) as F06 by (eauto using frame_trans).
  destruct F06 as (P6 & B6 & T6 & S6).
  assert (shape_le (mem s4) (mem s6)) as S46.
  { destruct F5 as (_ & _ & _ & ?), F6 as (_ & _ & _ & ?).
    by eapply shape_le_trans. }
  apply wp_bind, (wp_evaluate _ _ L _ _ 0).
  { eapply valid_Genes, valid_shape_le; [|done|exact W1]. done. }
  intros fit1.
  apply wp_bind, (wp_evaluate _ _ L _ _ 0).
  { eapply valid_Genes, valid_shape_le; [|done|exact W2]. done. }
  intros fit2.
  assert (valid L (mem s6) {| Genes := Genes c1; Fitness := fit1 |}) as X1.
  { eapply valid_Genes, valid_shape_le; [|done|exact W1]. done. }
  assert (valid L (mem s6) {| Genes := Genes c2; Fitness := fit2 |}) as X2.
  { eapply valid_Genes, valid_shape_le; [|done|exact W2]. done. }
  assert (Forall (valid L (mem s6)) newPopulation) as Hnew6
    by exact (Forall_valid_shape_le L _ _ _ S6 Hnew).
  destruct room' as [|room''].
  - apply wp_ret, HQ; [done| |by apply prefix_app_r|].
    + rewrite length_app. simpl. lia.
    + apply Forall_app. split; [done|]. by apply Forall_singleton.
  - apply (IH room''); [lia|done|congruence| | |].
    + rewrite P6. exact (Forall_valid_shape_le L _ _ _ S6 Hpop).
    + rewrite !Forall_app. repeat split; [done|by apply Forall_singleton..].
    + intros np s' F' Hlen Hpre Hval. apply HQ.
      * eapply frame_trans; [|exact F']. done.
      * rewrite !length_app in Hlen. simpl in Hlen. lia.
      * etrans; [|exact Hpre]. rewrite <- app_assoc. by apply prefix_app_r.
      * done.
Qed.

Lemma wp_make_bytes_frame (Q : nat -> GeneticAlgorithm -> Prop) s (n : Z) :
  (0 <= n)%Z ->
  (forall s', frame s s' ->
     mem s' = mem s ++ [replicate (Z.to_nat n) 0%Z] -> Q (length (mem s)) s') ->
  wp (make_bytes n) Q s.
Proof.
  intros Hn HQ. rewrite (eta_st_after s) at 1.
  rewrite <- (Z2Nat.id n Hn). apply wp_make_bytes.
  apply HQ; [apply frame_st_after, shape_le_app|done].
Qed.

Lemma wp_store_byte_frame (Q : unit -> GeneticAlgorithm -> Prop) L s p f i v :
  valid L (mem s) {| Genes := p; Fitness := f |} -> i < L ->
  (forall s', frame s s' -> Q tt s') ->
  wp (store_byte p i v) Q s.
Proof.
  intros (g & Hg & Hl) Hi HQ. simpl in Hg. rewrite (eta_st_after s) at 1.
  eapply wp_store_byte; [done|lia|].
  apply HQ, frame_st_after. eapply shape_le_insert; [done|].
  by rewrite length_insert.
Qed.

Lemma wp_set_population (Q : unit -> GeneticAlgorithm -> Prop) s p :
  Q tt {| population := p; bestFitness := bestFitness s;
          rng := rng s; mem := mem s |} ->
  wp (set_population p) Q s.
Proof. done. Qed.

Lemma wp_set_bestFitness (Q : unit -> GeneticAlgorithm -> Prop) s h :
  Q tt {| population := population s; bestFitness := h;
          rng := rng s; mem := mem s |} ->
  wp (set_bestFitness h) Q s.
Proof. done. Qed.

Lemma wp_Initialize config s (Q : unit -> GeneticAlgorithm -> Prop) :
  (0 <= PopulationSize config)%Z -> (0 <= BitsPerGene config)%Z ->
  (forall s', bestFitness s' = bestFitness s ->
     tape (rng s') = tape (rng s) ->
     length (population s') = Z.to_nat (PopulationSize config) ->
     Forall (valid (Z.to_nat (BitsPerGene config)) (mem s')) (population s') ->
     Q tt s') ->
  wp (Initialize config) Q s.
Proof.
  intros HN HL HQ. unfold Initialize.
  destruct (Z.ltb_spec (PopulationSize config) 0); [lia|].
  set (L := Z.to_nat (BitsPerGene config)).
  apply wp_bind, wp_set_population.
  eapply wp_mono.
  - apply (wp_for_range (fun i s' =>
             bestFitness s' = bestFitness s /\ tape (rng s') = tape (rng s) /\
             length (population s') = i /\
             Forall (valid L (mem s')) (population s'))).
    + simpl. repeat split. constructor.
    + intros i s1 _ (B1 & T1 & Len1 & V1).
      apply wp_bind, wp_make_bytes_frame; [done|]. intros s2 F2 M2.
      set (p := length (mem s1)).
      assert (valid L (mem s2) {| Genes := p; Fitness := 0 |}) as Vp.
      { exists (replicate L 0%Z). rewrite M2. simpl. split.
        - by rewrite lookup_app_r, Nat.sub_diag.
        - apply length_replicate. }
      apply wp_bind. eapply wp_mono.
      * apply (wp_for_range (fun (j : nat) s' =>
                 frame s2 s' /\ valid L (mem s') {| Genes := p; Fitness := 0 |})).
        { split; [apply frame_refl|done]. }
        intros j s3 Hj (F3 & V3). simpl in Hj.
        apply wp_bind, wp_Float64_frame. intros d s4 F4 M4.
        assert (forall v, wp (store_byte p j v)
                  (fun _ s'' => frame s2 s'' /\
                     valid L (mem s'') {| Genes := p; Fitness := 0 |}) s4) as Hst.
        { intros v. apply (wp_store_byte_frame _ L _ _ 0); [by rewrite M4|lia|].
          intros s5 F5. split; [eauto using frame_trans|].
          destruct F5 as (_ & _ & _ & S5).
          eapply valid_shape_le; [exact S5|]. by rewrite M4. }
        destruct (Qltb d _); apply Hst.
      * intros u s3 (F3 & V3).
        apply wp_bind, (wp_evaluate _ _ L _ _ 0); [done|]. intros fit.
        apply wp_bind, wp_get. apply wp_set_population. simpl.
        assert (frame s1 s3) as F13 by (eauto using frame_trans).
        destruct F13 as (P3 & B3 & T3 & S3).
        repeat split; try congruence.
        { rewrite length_app, P3. simpl. lia. }
        apply Forall_app. split.
        { rewrite P3. exact (Forall_valid_shape_le L _ _ _ S3 V1). }
        apply Forall_singleton. by eapply valid_Genes; [|exact V3].
  - intros [] s' (B & T & Len & V). by apply HQ.
Qed.

(** ** Generations *)

Lemma nondecreasing_snoc hs t :
  nondecreasing hs -> (forall a, last hs = Some a -> (a <= t)%Q) ->
  nondecreasing (hs ++ [t]).
Proof.
  intros Hnd Hlast i a b Ha Hb.
  destruct (decide (S i < length hs)) as [Hlt|Hge].
  - rewrite lookup_app_l in Ha by lia. rewrite lookup_app_l in Hb by done. eauto.
  - assert (S i = length hs) as Hi.
    { apply lookup_lt_Some in Hb. rewrite length_app in Hb. simpl in Hb. lia. }
    rewrite lookup_app_l in Ha by lia.
    rewrite lookup_app_r in Hb by lia.
    replace (S i - length hs) with 0 in Hb by lia. simpl in Hb.
    inversion Hb; subst b. apply Hlast.
    rewrite last_lookup. by replace (pred (length hs)) with i by lia.
Qed.

Section Runs.

Variable sort_slice :
  (Individual -> Individual -> bool) -> list Individual -> list Individual.

Hypothesis sort_perm : sort_permutes sort_slice.

Lemma sorted_head_max l top rest x :
  sort_orders sort_slice -> sort_slice by_fitness l = top :: rest -> x ∈ l ->
  (Fitness x <= Fitness top)%Q.
Proof.
  intros Hso Heq Hx. pose proof (Hso l) as Hs. rewrite Heq in Hs.
  apply StronglySorted_inv in Hs as [_ Hall].
  assert (x ∈ top :: rest) as Hx'.
  { rewrite <- Heq. by rewrite (sort_perm by_fitness l). }
  apply elem_of_cons in Hx' as [->|Hx']; [apply Qle_refl|].
  rewrite List.Forall_forall in Hall. apply Hall. by apply list_elem_of_In.
Qed.

Lemma wp_generation config s (Q : unit -> GeneticAlgorithm -> Prop) :
  let N := Z.to_nat (PopulationSize config) in
  let L := Z.to_nat (BitsPerGene config) in
  1 <= N -> 1 <= L ->
  length (population s) = N ->
  Forall (valid L (mem s)) (population s) ->
  (forall s' top rest,
     sort_slice by_fitness (population s) = top :: rest ->
     bestFitness s' = bestFitness s ++ [Fitness top] ->
     tape (rng s') = tape (rng s) ->
     length (population s') = N ->
     Forall (valid L (mem s')) (population s') ->
     take (Z.to_nat (ElitismCount config)) (top :: rest)
       `prefix_of` population s' ->
     Q tt s') ->
  wp (generation sort_slice config) Q s.
Proof.
  intros N L HN HL Hlen Hval HQ. unfold generation.
  assert (N = Z.to_nat (PopulationSize config)) as HeqN by done.
  assert (L = Z.to_nat (BitsPerGene config)) as HeqL by done.
  clearbody N L.
  pose proof (sort_perm by_fitness (population s)) as Hperm.
  destruct (sort_slice by_fitness (population s)) as [|top rest] eqn:Hsort.
  { apply Permutation_length in Hperm. simpl in Hperm. lia. }
  apply wp_bind, wp_get. rewrite Hsort.
  apply wp_bind, wp_set_population.
  apply wp_bind. unfold population_at. apply wp_bind, wp_get. simpl.
  apply wp_ret. apply wp_bind, wp_get. simpl.
  apply wp_bind, wp_set_bestFitness.
  apply wp_bind. destruct (Z.ltb_spec (PopulationSize config) 0); [exfalso; lia|].
  apply wp_ret. apply wp_bind, wp_get. simpl.
  set (elite := take (Z.to_nat (ElitismCount config)) (top :: rest)).
  assert (length (top :: rest) = N) as Hlen'.
  { rewrite <- Hlen. by apply Permutation_length. }
  assert (Forall (valid L (mem s)) (top :: rest)) as Hval'.
  { by rewrite Hperm. }
  apply wp_bind.
  apply (wp_reproduce _ L); simpl; [done|done|done| |].
  { by apply Forall_take. }
  intros np s' (P' & B' & T' & S') Hnp Hpre Hnpv. simpl in *.
  apply wp_set_population. apply (HQ _ top rest); simpl; try done.
  assert (length elite <= N) as He.
  { unfold elite. rewrite length_take. simpl in *. lia. }
  lia.
Qed.

(** [Run] returns: the history grows by one entry per generation, the
    final population is sorted and the individual returned is its head;
    when [sort.Slice] orders and an elite is kept, the new entries never
    decrease; without generations the population sorted at the end is the
    initial one. *)
Lemma wp_Run config s (Q : Individual * list Q -> GeneticAlgorithm -> Prop) :
  let N := Z.to_nat (PopulationSize config) in
  let L := Z.to_nat (BitsPerGene config) in
  1 <= N -> 1 <= L ->
  (forall top hs s' l,
     bestFitness s' = bestFitness s ++ hs ->
     length hs = Z.to_nat (MaxGenerations config) ->
     population s' = sort_slice by_fitness l ->
     length l = N ->
     head (population s') = Some top ->
     (sort_orders sort_slice -> (1 <= ElitismCount config)%Z -> nondecreasing hs) ->
     (Z.to_nat (MaxGenerations config) = 0 ->
        exists s0, Initialize config s = Ok (tt, s0) /\ l = population s0) ->
     Q (top, bestFitness s') s') ->
  wp (Run sort_slice config) Q s.
Proof.
  intros N L HN HL HQ. unfold Run.
  assert (N = Z.to_nat (PopulationSize config)) as HeqN by done.
  assert (L = Z.to_nat (BitsPerGene config)) as HeqL by done.
  clearbody N L.
  assert (wp (Initialize config) (fun _ s' =>
            bestFitness s' = bestFitness s /\
            length (population s') = N /\
            Forall (valid L (mem s')) (population s')) s) as Hinit.
  { apply wp_Initialize; [lia..|]. intros s0 B0 _ Len0 V0.
    by rewrite <- HeqL in V0; rewrite <- HeqN in Len0. }
  apply wp_ok in Hinit as ([] & s0 & Hinit & B0 & Len0 & V0).
  apply wp_bind. unfold wp at 1. rewrite Hinit.
  apply wp_bind. eapply wp_mono.
  - apply (wp_for_range (fun i s' =>
      length (population s') = N /\ Forall (valid L (mem s')) (population s') /\
      (i = 0 -> population s' = population s0) /\
      exists hs, bestFitness s' = bestFitness s ++ hs /\ length hs = i /\
        (sort_orders sort_slice -> (1 <= ElitismCount config)%Z ->
           nondecreasing hs /\
           forall a, last hs = Some a ->
             exists x, x ∈ population s' /\ (a <= Fitness x)%Q))).
    + split; [done|]. split; [done|]. split; [done|]. exists []. rewrite app_nil_r.
      split; [done|]. split; [done|]. intros _ _. split.
      * intros i a b Ha. by rewrite lookup_nil in Ha.
      * intros a Ha. done.
    + intros i s1 _ (Len1 & V1 & _ & hs & B1 & Lhs & K1).
      apply wp_generation; [lia|lia|lia|by rewrite <- HeqL|].
      rewrite <- HeqN, <- HeqL.
      intros s2 top rest Hsort B2 T2 Len2 V2 Hpre.
      split; [done|]. split; [done|]. split; [done|].
      exists (hs ++ [Fitness top]).
      rewrite B2, B1, <- app_assoc. split; [done|].
      split; [rewrite length_app; simpl; lia|].
      intros Hso HE. destruct (K1 Hso HE) as (Knd & Klast). split.
      * apply nondecreasing_snoc; [done|]. intros a Ha.
        destruct (Klast a Ha) as (x & Hx & Hle).
        eapply Qle_trans; [exact Hle|]. by eapply sorted_head_max.
      * intros a Ha. rewrite last_snoc in Ha. inversion Ha; subst a.
        exists top. split; [|apply Qle_refl].
        destruct (Z.to_nat (ElitismCount config)) as [|e] eqn:He; [lia|].
        simpl in Hpre. destruct Hpre as (k & ->). left.
  - intros [] s1 (Len1 & V1 & Hzero & hs & B1 & Lhs & K1). simpl in Lhs, Hzero.
    apply wp_bind, wp_get. cbv beta.
    pose proof (sort_perm by_fitness (population s1)) as Hperm.
    destruct (sort_slice by_fitness (population s1)) as [|top rest] eqn:Hsort.
    { apply Permutation_length in Hperm. simpl in Hperm. lia. }
    apply wp_bind, wp_set_population.
    apply wp_bind. unfold population_at. apply wp_bind, wp_get. simpl.
    apply wp_ret. apply wp_bind, wp_get. simpl. apply wp_ret.
    match goal with |- Q _ ?st =>
      apply (HQ top hs st (population s1)); simpl; try done end.
    + intros Hso HE. by destruct (K1 Hso HE).
    + intros HG. exists s0. split; [done|]. by apply Hzero.
Qed.

End Runs.

(** ** Straight insertion sorts *)

Lemma insert_leftwards_perm {A} (less : A -> A -> bool) x acc :
  insert_leftwards less x acc ≡ₚ x :: acc.
Proof.
  induction acc as [|y rest IH]; simpl; [done|].
  destruct (less x y); [|done]. rewrite IH. apply Permutation_swap.
Qed.

Lemma insertion_fold_perm {A} (less : A -> A -> bool) data acc :
  fold_left (fun acc x => insert_leftwards less x acc) data acc ≡ₚ data ++ acc.
Proof.
  revert acc. induction data as [|x data IH]; intros acc; simpl; [done|].
  rewrite IH, insert_leftwards_perm. by rewrite Permutation_middle.
Qed.

Lemma insertionSort_perm : sort_permutes (@insertionSort Individual).
Proof.
  intros less l. unfold insertionSort.
  rewrite <- Permutation_rev, insertion_fold_perm. by rewrite app_nil_r.
Qed.

Lemma insert_leftwards_ascending x acc :
  ascending acc -> ascending (insert_leftwards by_fitness x acc).
Proof.
  unfold ascending. induction acc as [|y rest IH]; simpl; intros Hs.
  - repeat constructor.
  - apply StronglySorted_inv in Hs as [Hrest Hy].
    destruct (by_fitness x y) eqn:E; unfold by_fitness in E.
    + apply Qltb_lt in E. constructor; [by apply IH|].
      apply List.Forall_forall. intros z Hz.
      apply list_elem_of_In in Hz. rewrite insert_leftwards_perm in Hz.
      apply elem_of_cons in Hz as [->|Hz]; [by apply Qlt_le_weak|].
      rewrite List.Forall_forall in Hy. by apply Hy, list_elem_of_In.
    + apply Qltb_ge in E. constructor; [by constructor|].
      constructor; [done|]. eapply List.Forall_impl; [|exact Hy].
      intros z Hz. simpl in Hz. by eapply Qle_trans.
Qed.

Lemma ascending_rev l :
  ascending l ->
  StronglySorted (fun a b => (Fitness b <= Fitness a)%Q) (rev l).
Proof.
  unfold ascending. induction l as [|a l IH]; simpl; intros Hs; [constructor|].
  apply StronglySorted_inv in Hs as [Hl Ha].
  apply StronglySorted_app. split; [|split; [by apply IH|repeat constructor]].
  intros x1 x2 Hx1 Hx2. apply list_elem_of_singleton in Hx2 as ->.
  rewrite List.Forall_forall in Ha. apply Ha.
  apply in_rev. by apply list_elem_of_In.
Qed.

Lemma insertionSort_orders : sort_orders (@insertionSort Individual).
Proof.
  intros l. unfold insertionSort. apply ascending_rev.
  assert (forall data acc, ascending acc ->
            ascending (fold_left
              (fun acc x => insert_leftwards by_fitness x acc) data acc)) as H.
  { induction data as [|x data IH]; intros acc Hacc; simpl; [done|].
    by apply IH, insert_leftwards_ascending. }
  apply H. constructor.
Qed.


End Logic.

(* ===================================================================== *)
(** * The operators and the generational engine                          *)
(* ===================================================================== *)

Import GA Spec Logic.

Lemma mutated_never r k prob g :
  (prob == 0)%Q -> mutated r k prob g = g.
Proof.
  intros Hp. apply list_eq. intros i. destruct (g !! i) as [b|] eqn:Hb.
  - rewrite (mutated_lookup _ _ _ _ _ _ Hb).
    assert (Qltb (draw_at r (i + k)) prob = false) as ->; [|done].
    apply Qltb_ge. rewrite Hp. apply draw_at_range.
  - apply lookup_ge_None. rewrite mutated_length. by apply lookup_ge_None.
Qed.

Lemma mutated_always r k prob g :
  (prob == 1)%Q -> mutated r k prob g = flip_bit <$> g.
Proof.
  intros Hp. apply list_eq. intros i. rewrite list_lookup_fmap.
  destruct (g !! i) as [b|] eqn:Hb; simpl.
  - rewrite (mutated_lookup _ _ _ _ _ _ Hb).
    assert (Qltb (draw_at r (i + k)) prob = true) as ->; [|done].
    apply Qltb_lt. rewrite Hp. apply draw_at_range.
  - apply lookup_ge_None. rewrite mutated_length. by apply lookup_ge_None.
Qed.

(** C8. Mutation with [MutationProb = 0] leaves the genotype (and every
    other array) as it was, and with [MutationProb = 1] it overwrites
    every byte with its flip_bit, whatever the random source draws; on bits
    the flip_bit is the complement.  Both consume one draw per position. *)
Theorem mutate_extremes config individual s g :
  mem s !! Genes individual = Some g ->
  ((MutationProb config == 0)%Q ->
     mutate config individual s = Ok (tt, st_after s (length g) (mem s)))
  /\ ((MutationProb config == 1)%Q ->
        mutate config individual s
        = Ok (tt, st_after s (length g)
                    (<[Genes individual := flip_bit <$> g]> (mem s))))
  /\ (Forall Decode.is_bit g -> flip_bit <$> g = (fun b => 1 - b)%Z <$> g).
Proof.
  intros Hg. split; [|split].
  - intros Hp. rewrite (mutate_spec _ _ _ g Hg), mutated_never by done.
    by rewrite list_insert_id.
  - intros Hp. by rewrite (mutate_spec _ _ _ g Hg), mutated_always.
  - intros Hbits. apply list_eq. intros i. rewrite !list_lookup_fmap.
    destruct (g !! i) as [b|] eqn:Hb; [|done]. simpl. f_equal.
    rewrite Forall_forall in Hbits.
    by destruct (Hbits b (list_elem_of_lookup_2 _ _ _ Hb)) as [->| ->].
Qed.

Lemma mutate_extremes_witness :
  mutate (demo_config 1 0 0 "uniform") {| Genes := 0; Fitness := 5 |} demo_state
  = Ok (tt, st_after demo_state 4 (mem demo_state))
  /\ mutate (demo_config 1 0 1 "uniform") {| Genes := 0; Fitness := 5 |} demo_state
     = Ok (tt, st_after demo_state 4 [[0; 1; 0; 1]; [0; 1; 0; 0]]%Z).
Proof.
  split.
  - apply (proj1 (mutate_extremes (demo_config 1 0 0 "uniform")
                    {| Genes := 0; Fitness := 5 |} demo_state [1; 0; 1; 0]%Z
                    eq_refl)).
    reflexivity.
  - apply (proj1 (proj2 (mutate_extremes (demo_config 1 0 1 "uniform")
                    {| Genes := 0; Fitness := 5 |} demo_state [1; 0; 1; 0]%Z
                    eq_refl))).
    reflexivity.
Defined.

(** C6. One-point crossover of two parents of equal gene length [L >= 1]
    draws the cut [c] with [rng.Intn(L)], so [0 <= c < L]; child 1 has
    parent 1's genes before the cut and parent 2's from the cut on,
    child 2 is the mirror image; both have length [L] and carry the zero
    fitness of a struct whose [Fitness] was never assigned. *)
Theorem onepoint_recombination parent1 parent2 s g1 g2 :
  mem s !! Genes parent1 = Some g1 ->
  mem s !! Genes parent2 = Some g2 ->
  length g1 = length g2 -> 1 <= length g1 ->
  exists c child1 child2 s' h1 h2,
    onepointCrossover parent1 parent2 s = Ok ((child1, child2), s')
    /\ Z.of_nat c = (tape (rng s) (pos (rng s)) mod Z.of_nat (length g1))%Z
    /\ c < length g1
    /\ mem s' !! Genes child1 = Some h1 /\ mem s' !! Genes child2 = Some h2
    /\ take c h1 = take c g1 /\ drop c h1 = drop c g2
    /\ take c h2 = take c g2 /\ drop c h2 = drop c g1
    /\ length h1 = length g1 /\ length h2 = length g1
    /\ Fitness child1 = 0%Q /\ Fitness child2 = 0%Q.
Proof.
  intros H1 H2 Hlen Hpos.
  pose proof (onepointCrossover_spec parent1 parent2 s g1 g2 H1 H2 Hlen
                ltac:(lia)) as Hspec.
  cbv zeta in Hspec.
  pose proof (Z.mod_pos_bound (tape (rng s) (pos (rng s)))
                (Z.of_nat (length g1)) ltac:(lia)) as Hb.
  set (c := Z.to_nat (tape (rng s) (pos (rng s)) mod Z.of_nat (length g1))) in *.
  assert (c < length g1) as Hc by lia.
  assert (forall a b : list Z, length a = length b -> c < length a ->
            take c (onepoint_child c a b) = take c a /\
            drop c (onepoint_child c a b) = drop c b /\
            length (onepoint_child c a b) = length a) as Hchild.
  { intros a b Hab Hca. unfold onepoint_child.
    assert (length (take c a) = c) as Ht by (rewrite length_take; lia).
    split; [|split].
    - rewrite take_app_le by lia. rewrite take_take. f_equal. lia.
    - rewrite drop_app_ge by lia. rewrite Ht, Nat.sub_diag. done.
    - rewrite length_app, length_drop. lia. }
  destruct (Hchild g1 g2 Hlen Hc) as (A1 & A2 & A3).
  destruct (Hchild g2 g1 (eq_sym Hlen) ltac:(lia)) as (B1 & B2 & B3).
  eexists c, _, _, _, _, _. split; [exact Hspec|].
  split; [lia|]. split; [done|].
  split; [apply lookup_child1|]. split; [apply lookup_child2|].
  repeat split; (done || lia).
Qed.

Lemma onepoint_recombination_witness :
  exists c child1 child2 s' h1 h2,
    onepointCrossover {| Genes := 0; Fitness := 5 |} {| Genes := 1; Fitness := 2 |}
      demo_state = Ok ((child1, child2), s')
    /\ Z.of_nat c = (tape (rng demo_state) (pos (rng demo_state)) mod 4)%Z
    /\ c < 4
    /\ mem s' !! Genes child1 = Some h1 /\ mem s' !! Genes child2 = Some h2
    /\ take c h1 = take c [1; 0; 1; 0]%Z /\ drop c h1 = drop c [0; 1; 0; 0]%Z
    /\ take c h2 = take c [0; 1; 0; 0]%Z /\ drop c h2 = drop c [1; 0; 1; 0]%Z
    /\ length h1 = 4 /\ length h2 = 4
    /\ Fitness child1 = 0%Q /\ Fitness child2 = 0%Q.
Proof.
  apply (onepoint_recombination {| Genes := 0; Fitness := 5 |}
           {| Genes := 1; Fitness := 2 |} demo_state
           [1; 0; 1; 0]%Z [0; 1; 0; 0]%Z eq_refl eq_refl eq_refl).
  simpl. lia.
Defined.

(** C7. Uniform crossover of two parents of equal gene length returns two
    children of that length such that, at every position and whatever
    the coins, one child carries parent 1's byte and the other parent 2's
    byte of that position. *)
Theorem uniform_complementary parent1 parent2 s g1 g2 :
  mem s !! Genes parent1 = Some g1 ->
  mem s !! Genes parent2 = Some g2 ->
  length g1 = length g2 ->
  exists child1 child2 s' h1 h2,
    uniformCrossover parent1 parent2 s = Ok ((child1, child2), s')
    /\ mem s' !! Genes child1 = Some h1 /\ mem s' !! Genes child2 = Some h2
    /\ length h1 = length g1 /\ length h2 = length g1
    /\ Fitness child1 = 0%Q /\ Fitness child2 = 0%Q
    /\ forall i x y, g1 !! i = Some x -> g2 !! i = Some y ->
         (h1 !! i = Some x /\ h2 !! i = Some y)
         \/ (h1 !! i = Some y /\ h2 !! i = Some x).
Proof.
  intros H1 H2 Hlen.
  eexists _, _, _, _, _. split.
  { by apply (uniformCrossover_spec parent1 parent2 s g1 g2). }
  split; [apply lookup_child1|]. split; [apply lookup_child2|].
  split; [by apply pick_length|]. split; [rewrite pick_length; done|].
  split; [done|]. split; [done|].
  intros i x y Hx Hy.
  rewrite (pick_lookup _ _ g1 g2 i x y Hx Hy), (pick_lookup _ _ g2 g1 i y x Hy Hx).
  destruct (coin _ _ i); [by left|by right].
Qed.

Lemma uniform_complementary_witness :
  exists child1 child2 s' h1 h2,
    uniformCrossover {| Genes := 0; Fitness := 5 |} {| Genes := 1; Fitness := 2 |}
      demo_state = Ok ((child1, child2), s')
    /\ mem s' !! Genes child1 = Some h1 /\ mem s' !! Genes child2 = Some h2
    /\ length h1 = 4 /\ length h2 = 4
    /\ Fitness child1 = 0%Q /\ Fitness child2 = 0%Q
    /\ forall i x y, [1; 0; 1; 0]%Z !! i = Some x -> [0; 1; 0; 0]%Z !! i = Some y ->
         (h1 !! i = Some x /\ h2 !! i = Some y)
         \/ (h1 !! i = Some y /\ h2 !! i = Some x).
Proof.
  exact (uniform_complementary {| Genes := 0; Fitness := 5 |}
           {| Genes := 1; Fitness := 2 |} demo_state
           [1; 0; 1; 0]%Z [0; 1; 0; 0]%Z eq_refl eq_refl eq_refl).
Defined.

Section FreshEngine.

Variable sort_slice :
  (Individual -> Individual -> bool) -> list Individual -> list Individual.
Variable NewSource : Z -> nat -> Z.
Hypothesis sort_perm : sort_permutes sort_slice.

(** [Run] on a fresh engine, for a population of at least one individual
    of at least one bit. *)
Lemma Run_fresh config :
  (1 <= PopulationSize config)%Z -> (1 <= BitsPerGene config)%Z ->
  exists top hs s' l,
    Run sort_slice config (NewGeneticAlgorithm NewSource config)
    = Ok ((top, hs), s')
    /\ bestFitness s' = hs
    /\ length hs = Z.to_nat (MaxGenerations config)
    /\ population s' = sort_slice by_fitness l
    /\ length l = Z.to_nat (PopulationSize config)
    /\ head (population s') = Some top
    /\ (sort_orders sort_slice -> (1 <= ElitismCount config)%Z -> nondecreasing hs)
    /\ (Z.to_nat (MaxGenerations config) = 0 ->
          exists s0, Initialize config (NewGeneticAlgorithm NewSource config)
                     = Ok (tt, s0) /\ l = population s0).
Proof.
  intros HN HL.
  set (s := NewGeneticAlgorithm NewSource config).
  assert (wp (Run sort_slice config)
            (fun r s' => exists l,
               bestFitness s' = r.2 /\
               length r.2 = Z.to_nat (MaxGenerations config) /\
               population s' = sort_slice by_fitness l /\
               length l = Z.to_nat (PopulationSize config) /\
               head (population s') = Some r.1 /\
               (sort_orders sort_slice -> (1 <= ElitismCount config)%Z ->
                  nondecreasing r.2) /\
               (Z.to_nat (MaxGenerations config) = 0 ->
                  exists s0, Initialize config s = Ok (tt, s0)
                             /\ l = population s0)) s) as H.
  { apply wp_Run; [done|lia|lia|]. intros top hs s' l B Lhs P Ll Hd K Z0.
    simpl in B. exists l. simpl. rewrite B. done. }
  apply wp_ok in H as ([top hs] & s' & HRun & l & H). simpl in H.
  exists top, hs, s', l. split; [done|]. exact H.
Qed.

(** C2. For every valid configuration, [Run] on a freshly constructed
    engine returns, and the history it returns (which is the history the
    engine keeps) has exactly [MaxGenerations] entries; each generation
    appends exactly one entry to the history it finds. *)
Theorem history_length config :
  valid_config config ->
  (exists best hist s',
     Run sort_slice config (NewGeneticAlgorithm NewSource config)
     = Ok ((best, hist), s')
     /\ Z.of_nat (length hist) = MaxGenerations config
     /\ bestFitness s' = hist)
  /\ (forall s,
        length (population s) = Z.to_nat (PopulationSize config) ->
        Forall (valid (Z.to_nat (BitsPerGene config)) (mem s)) (population s) ->
        exists s' entry,
          generation sort_slice config s = Ok (tt, s')
          /\ bestFitness s' = bestFitness s ++ [entry]
          /\ length (population s') = Z.to_nat (PopulationSize config)
          /\ Forall (valid (Z.to_nat (BitsPerGene config)) (mem s'))
               (population s')).
Proof.
  intros (HN & HG & HL & _ & _). split.
  - destruct (Run_fresh config HN HL)
      as (top & hs & s' & l & HRun & B & Lhs & _).
    exists top, hs, s'. split; [done|]. split; [lia|done].
  - intros s Hlen Hval.
    assert (wp (generation sort_slice config)
              (fun _ s' => exists entry,
                 bestFitness s' = bestFitness s ++ [entry] /\
                 length (population s') = Z.to_nat (PopulationSize config) /\
                 Forall (valid (Z.to_nat (BitsPerGene config)) (mem s'))
                   (population s')) s) as H.
    { apply wp_generation; [done|lia|lia|done|done|].
      intros s' top rest _ B _ Len V _. by exists (Fitness top). }
    apply wp_ok in H as ([] & s' & Hgen & entry & H).
    by exists s', entry.
Qed.

(** X21. For every valid configuration, [Run] returns an individual of
    the final (sorted) population whose [Fitness] field no [Fitness] field
    of that population exceeds (the field is what the engine sorts by;
    it is the evaluator's value on the genes as they were when the
    individual was evaluated); when [MaxGenerations = 0] the history is
    empty and the final population is the population [Initialize] built,
    sorted. *)
Theorem Run_returns_fittest config :
  sort_orders sort_slice -> valid_config config ->
  exists best hist s',
    Run sort_slice config (NewGeneticAlgorithm NewSource config)
    = Ok ((best, hist), s')
    /\ best ∈ population s'
    /\ (forall x, x ∈ population s' -> (Fitness x <= Fitness best)%Q)
    /\ (MaxGenerations config = 0%Z ->
          hist = [] /\
          exists s0,
            Initialize config (NewGeneticAlgorithm NewSource config) = Ok (tt, s0)
            /\ length (population s0) = Z.to_nat (PopulationSize config)
            /\ population s' = sort_slice by_fitness (population s0)).
Proof.
  intros Hso (HN & HG & HL & _ & _).
  destruct (Run_fresh config HN HL)
    as (top & hs & s' & l & HRun & B & Lhs & P & Ll & Hd & _ & Z0).
  exists top, hs, s'. split; [done|].
  destruct (population s') as [|top' rest] eqn:Hpop; [done|].
  simpl in Hd. inversion Hd; subst top'.
  split; [left|]. split.
  - intros x Hx. symmetry in P.
    apply (sorted_head_max sort_slice sort_perm l top rest x Hso P).
    by rewrite <- (sort_perm by_fitness l), P.
  - intros HG0. rewrite HG0 in Lhs, Z0. simpl in Lhs.
    split; [by apply nil_length_inv|].
    destruct (Z0 eq_refl) as (s0 & Hinit & ->). exists s0. done.
Qed.

(** C1. For every valid configuration that keeps at least one elite, the
    history [Run] returns never decreases: every entry with a successor
    is at most its successor. *)
Theorem history_nondecreasing config :
  sort_orders sort_slice -> valid_config config ->
  (1 <= ElitismCount config)%Z ->
  exists best hist s',
    Run sort_slice config (NewGeneticAlgorithm NewSource config)
    = Ok ((best, hist), s')
    /\ forall i : nat, (Z.of_nat i < MaxGenerations config - 1)%Z ->
         exists a b, hist !! i = Some a /\ hist !! S i = Some b /\ (a <= b)%Q.
Proof.
  intros Hso (HN & HG & HL & _ & _) HE.
  destruct (Run_fresh config HN HL)
    as (top & hs & s' & l & HRun & B & Lhs & _ & _ & _ & Hnd & _).
  exists top, hs, s'. split; [done|]. intros i Hi.
  destruct (lookup_lt_is_Some_2 hs i ltac:(lia)) as [a Ha].
  destruct (lookup_lt_is_Some_2 hs (S i) ltac:(lia)) as [b Hb].
  exists a, b. split; [done|]. split; [done|].
  by apply (Hnd Hso HE i a b).
Qed.

End FreshEngine.

Lemma demo_config_valid G type :
  (0 <= G)%Z -> valid_config (demo_config G (4 # 5) (1 # 20) type).
Proof.
  intros HG. unfold valid_config, Qle. cbn. repeat split; lia.
Qed.
Lemma history_length_witness :
  (exists best hist s',
     Run insertionSort (demo_config 3 (4 # 5) (1 # 20) "onepoint")
       (NewGeneticAlgorithm demo_source (demo_config 3 (4 # 5) (1 # 20) "onepoint"))
     = Ok ((best, hist), s')
     /\ Z.of_nat (length hist) = 3%Z
     /\ bestFitness s' = hist).
Proof.
  refine (proj1 (history_length insertionSort demo_source insertionSort_perm
           (demo_config 3 (4 # 5) (1 # 20) "onepoint") _)).
  apply demo_config_valid. lia.
Defined.
Lemma Run_returns_fittest_witness :
  exists best hist s',
    Run insertionSort (demo_config 0 (4 # 5) (1 # 20) "uniform")
      (NewGeneticAlgorithm demo_source (demo_config 0 (4 # 5) (1 # 20) "uniform"))
    = Ok ((best, hist), s')
    /\ best ∈ population s'
    /\ (forall x, x ∈ population s' -> (Fitness x <= Fitness best)%Q)
    /\ hist = [].
Proof.
  destruct (Run_returns_fittest insertionSort demo_source insertionSort_perm
              (demo_config 0 (4 # 5) (1 # 20) "uniform") insertionSort_orders)
    as (best & hist & s' & HRun & Hin & Hmax & Hzero).
  - unfold valid_config, Qle; cbn. repeat split; lia.
  - exists best, hist, s'.
    exact (conj HRun (conj Hin (conj Hmax (proj1 (Hzero eq_refl))))).
Defined.

Lemma history_nondecreasing_witness :
  exists best hist s',
    Run insertionSort (demo_config 3 (4 # 5) (1 # 20) "onepoint")
      (NewGeneticAlgorithm demo_source (demo_config 3 (4 # 5) (1 # 20) "onepoint"))
    = Ok ((best, hist), s')
    /\ forall i : nat, (Z.of_nat i < 3 - 1)%Z ->
         exists a b, hist !! i = Some a /\ hist !! S i = Some b /\ (a <= b)%Q.
Proof.
  refine (history_nondecreasing insertionSort demo_source insertionSort_perm
           (demo_config 3 (4 # 5) (1 # 20) "onepoint") insertionSort_orders _ _).
  - unfold valid_config, Qle; cbn. repeat split; lia.
  - cbn. lia.
Defined.

(** C5, failing on the code.  The elite is a struct copy that shares its
    array with the individual it was copied from, and without crossover
    a child shares the array of its parent; [mutate] writes into that
    array and only the child is evaluated again.  For [stale_config], a
    valid configuration, [Run] returns the elite, the individual on
    array 2: its [Fitness] field still says 5, its genes are [1; 1; 0] by
    then and evaluate to 3, while the second individual of the final
    population, on array 3, has the genes [1; 0; 1], which evaluate to 5.
    The individual returned is not one of maximal fitness in the final
    population. *)
Theorem Run_returns_stale_best :
  let r := Run insertionSort stale_config
             (NewGeneticAlgorithm demo_source stale_config) in
  valid_config stale_config
  /\ outcome r = Some ({| Genes := 2; Fitness := 5 |}, [5%Q])
  /\ (s ← final_state r; Some (population s))
     = Some [{| Genes := 2; Fitness := 5 |}; {| Genes := 3; Fitness := 5 |};
             {| Genes := 2; Fitness := 3 |}; {| Genes := 0; Fitness := 1 |}]
  /\ (s ← final_state r; mem s !! 2) = Some [1; 1; 0]%Z
  /\ (s ← final_state r; mem s !! 3) = Some [1; 0; 1]%Z
  /\ FitnessFunc stale_config [1; 1; 0]%Z = 3%Q
  /\ FitnessFunc stale_config [1; 0; 1]%Z = 5%Q
  /\ (FitnessFunc stale_config [1; 1; 0]%Z
      < FitnessFunc stale_config [1; 0; 1]%Z)%Q.
Proof.
  split; [unfold valid_config, Qle; cbn; repeat split; lia|].
  vm_compute. repeat split.
Qed.

(** C4, refuted as stated: [Run] accepts a negative [MaxGenerations], a
    [MutationProb] above 1 and an unknown [CrossoverType]; each time it
    returns an individual and a history. *)
Lemma Run_accepts_invalid_config :
  outcome (Run insertionSort (demo_config (-1) (4 # 5) (1 # 20) "onepoint")
             (NewGeneticAlgorithm demo_source
                (demo_config (-1) (4 # 5) (1 # 20) "onepoint")))
  = Some ({| Genes := 0; Fitness := 3 |}, [])
  /\ outcome (Run insertionSort (demo_config 2 (4 # 5) (3 # 2) "onepoint")
                (NewGeneticAlgorithm demo_source
                   (demo_config 2 (4 # 5) (3 # 2) "onepoint")))
     = Some ({| Genes := 4; Fitness := 5 |}, [3; 5]%Q)
  /\ outcome (Run insertionSort (demo_config 2 (4 # 5) (1 # 20) "bogus")
                (NewGeneticAlgorithm demo_source
                   (demo_config 2 (4 # 5) (1 # 20) "bogus")))
     = Some ({| Genes := 0; Fitness := 3 |}, [3; 3]%Q).
Proof. vm_compute. repeat split. Qed.

Section Unvalidated.

Variable sort_slice :
  (Individual -> Individual -> bool) -> list Individual -> list Individual.
Variable NewSource : Z -> nat -> Z.
Hypothesis sort_perm : sort_permutes sort_slice.

Lemma sort_slice_nil less : sort_slice less [] = [].
Proof. apply Permutation_nil. symmetry. apply sort_perm. Qed.

(** With an empty population every read of [ga.population[0]] is out of
    range. *)
Lemma top_of_empty_panics {B} (k : Individual -> M B) s :
  population s = [] ->
  exists msg,
    (s0 ← get;
     set_population (sort_slice by_fitness (population s0)) ;;
     top ← population_at 0; k top) s = Panic msg.
Proof.
  intros Hpop. eexists. unfold mbind, M_bind, get; simpl.
  rewrite Hpop, sort_slice_nil. simpl. reflexivity.
Qed.

Lemma generation_empty_panics config s :
  population s = [] -> exists msg, generation sort_slice config s = Panic msg.
Proof. intros Hpop. unfold generation. by apply top_of_empty_panics. Qed.

Lemma Initialize_empty config s :
  PopulationSize config = 0%Z ->
  Initialize config s
  = Ok (tt, {| population := []; bestFitness := bestFitness s;
               rng := rng s; mem := mem s |}).
Proof. intros HN. unfold Initialize. by rewrite HN. Qed.

Lemma Run_empty_population_panics config s :
  PopulationSize config = 0%Z ->
  exists msg, Run sort_slice config s = Panic msg.
Proof.
  intros HN. unfold Run.
  rewrite (bind_ok _ _ _ _ _ (Initialize_empty config s HN)).
  set (s0 := {| population := []; bestFitness := bestFitness s;
                rng := rng s; mem := mem s |}).
  destruct (Z.to_nat (MaxGenerations config)) as [|g].
  - rewrite (bind_ok _ _ s0 tt s0 eq_refl). by apply top_of_empty_panics.
  - destruct (generation_empty_panics config s0 eq_refl) as (msg & Hmsg).
    exists msg. apply wp_panic_bind. simpl. by apply wp_panic_bind.
Qed.

Lemma Run_negative_population_panics config s :
  (PopulationSize config < 0)%Z ->
  exists msg, Run sort_slice config s = Panic msg.
Proof.
  intros HN. eexists. unfold Run. apply wp_panic_bind. unfold Initialize.
  destruct (Z.ltb_spec (PopulationSize config) 0); [reflexivity|lia].
Qed.

Lemma Run_negative_bits_panics config s :
  (1 <= PopulationSize config)%Z -> (BitsPerGene config < 0)%Z ->
  exists msg, Run sort_slice config s = Panic msg.
Proof.
  intros HN HL. eexists. unfold Run. apply wp_panic_bind. unfold Initialize.
  destruct (Z.ltb_spec (PopulationSize config) 0); [lia|].
  destruct (Z.to_nat (PopulationSize config)) as [|n] eqn:En; [lia|].
  rewrite (bind_ok _ _ _ _ _ eq_refl). simpl.
  apply wp_panic_bind, wp_panic_bind. unfold make_bytes.
  destruct (Z.ltb_spec (BitsPerGene config) 0); [reflexivity|lia].
Qed.

(** C4, as the code has it. [Run] validates nothing and has no error
    result.  With at least one individual of at least one bit it returns
    an individual and a history of [max(MaxGenerations, 0)] entries,
    whatever [MaxGenerations], the two probabilities and [CrossoverType]
    are; with [PopulationSize < 1], or with [BitsPerGene < 0], it stops in
    a run-time panic of [make] or of an index, not in a configuration
    error. *)
Theorem Run_without_validation config :
  ((1 <= PopulationSize config)%Z -> (1 <= BitsPerGene config)%Z ->
     exists best hist s',
       Run sort_slice config (NewGeneticAlgorithm NewSource config)
       = Ok ((best, hist), s')
       /\ length hist = Z.to_nat (MaxGenerations config))
  /\ ((PopulationSize config < 1)%Z ->
        exists msg,
          Run sort_slice config (NewGeneticAlgorithm NewSource config)
          = Panic msg)
  /\ ((1 <= PopulationSize config)%Z -> (BitsPerGene config < 0)%Z ->
        exists msg,
          Run sort_slice config (NewGeneticAlgorithm NewSource config)
          = Panic msg).
Proof.
  split; [|split].
  - intros HN HL.
    destruct (Run_fresh sort_slice NewSource sort_perm config HN HL)
      as (top & hs & s' & l & HRun & _ & Lhs & _).
    by exists top, hs, s'.
  - intros HN. destruct (Z.eq_dec (PopulationSize config) 0%Z) as [H0|Hne].
    + by apply Run_empty_population_panics.
    + apply Run_negative_population_panics. lia.
  - apply Run_negative_bits_panics.
Qed.

End Unvalidated.

Lemma Run_without_validation_witness :
  (exists best hist s',
     Run insertionSort (tiny_config 2 (-3) 2 "bogus")
       (NewGeneticAlgorithm demo_source (tiny_config 2 (-3) 2 "bogus"))
     = Ok ((best, hist), s')
     /\ length hist = 0)
  /\ (exists msg,
        Run insertionSort (tiny_config 0 2 2 "uniform")
          (NewGeneticAlgorithm demo_source (tiny_config 0 2 2 "uniform"))
        = Panic msg)
  /\ (exists msg,
        Run insertionSort (tiny_config 2 2 (-1) "uniform")
          (NewGeneticAlgorithm demo_source (tiny_config 2 2 (-1) "uniform"))
        = Panic msg).
Proof.
  split; [|split].
  - refine (proj1 (Run_without_validation insertionSort demo_source
                     insertionSort_perm (tiny_config 2 (-3) 2 "bogus")) _ _);
      cbn; lia.
  - refine (proj1 (proj2 (Run_without_validation insertionSort demo_source
                     insertionSort_perm (tiny_config 0 2 2 "uniform"))) _);
      cbn; lia.
  - refine (proj2 (proj2 (Run_without_validation insertionSort demo_source
                     insertionSort_perm (tiny_config 2 2 (-1) "uniform"))) _ _);
      cbn; lia.
Defined.

Lemma bind_cong {A B} (m m' : M A) (f g : A -> M B) s :
  m s = m' s -> (forall a s', f a s' = g a s') ->
  (m ≫= f) s = (m' ≫= g) s.
Proof.
  intros Hm Hf. unfold mbind, M_bind. rewrite Hm.
  destruct (m' s) as [[a s']|msg]; [apply Hf|done].
Qed.

Lemma for_range_cong n body body' :
  (forall j s, body j s = body' j s) ->
  forall i s, for_range n i body s = for_range n i body' s.
Proof.
  intros Hb. induction n as [|n IH]; intros i s; simpl; [done|].
  apply bind_cong; [apply Hb|]. intros _ s'. apply IH.
Qed.

Section UnknownType.

Variable config : Config.
Hypothesis not_onepoint : CrossoverType config ≠ "onepoint".

Lemma crossover_unknown parent1 parent2 :
  crossover config parent1 parent2 = uniformCrossover parent1 parent2.
Proof.
  unfold crossover. by rewrite (proj2 (String.eqb_neq _ _) not_onepoint).
Qed.

Lemma reproduce_unknown room :
  forall newPopulation s,
    reproduce config room newPopulation s
    = reproduce (with_CrossoverType "uniform" config) room newPopulation s.
Proof.
  induction room as [room IH] using lt_wf_ind. intros newPopulation s.
  destruct room as [|room']; [done|]. simpl.
  apply bind_cong; [done|]. intros parent1 s1.
  apply bind_cong; [done|]. intros parent2 s2.
  apply bind_cong; [done|]. intros d s3.
  apply bind_cong.
  { destruct (Qltb d _); [|done]. by rewrite crossover_unknown. }
  intros [child1 child2] s4.
  apply bind_cong; [done|]. intros _ s5.
  apply bind_cong; [done|]. intros _ s6.
  apply bind_cong; [done|]. intros fit1 s7.
  apply bind_cong; [done|]. intros fit2 s8.
  destruct room' as [|room'']; [done|]. apply IH. lia.
Qed.

Lemma generation_unknown sort_slice s :
  generation sort_slice config s
  = generation sort_slice (with_CrossoverType "uniform" config) s.
Proof.
  unfold generation.
  apply bind_cong; [done|]. intros s0 s1.
  apply bind_cong; [done|]. intros _ s2.
  apply bind_cong; [done|]. intros top s3.
  apply bind_cong; [done|]. intros s4 s5.
  apply bind_cong; [done|]. intros _ s6.
  apply bind_cong; [done|]. intros _ s7.
  apply bind_cong; [done|]. intros s8 s9.
  apply bind_cong; [apply reproduce_unknown|done].
Qed.

Lemma Run_unknown sort_slice s :
  Run sort_slice config s
  = Run sort_slice (with_CrossoverType "uniform" config) s.
Proof.
  unfold Run.
  apply bind_cong; [done|]. intros _ s1.
  apply bind_cong; [|done].
  apply for_range_cong. intros _ s2. apply generation_unknown.
Qed.

End UnknownType.

(** C10. A [CrossoverType] that is not ["onepoint"] (the empty string, a
    misspelling, or ["uniform"] itself) selects uniform crossover, and
    the whole of [Run] — the individual and history returned and the final
    population, arrays and cursor of the random source — is that of the same
    configuration with [CrossoverType = "uniform"]. *)
Theorem unknown_type_runs_uniform sort_slice NewSource config :
  CrossoverType config ≠ "onepoint" ->
  (forall parent1 parent2 s,
     crossover config parent1 parent2 s = uniformCrossover parent1 parent2 s)
  /\ Run sort_slice config (NewGeneticAlgorithm NewSource config)
     = Run sort_slice (with_CrossoverType "uniform" config)
         (NewGeneticAlgorithm NewSource (with_CrossoverType "uniform" config)).
Proof.
  intros Hne. split.
  - intros parent1 parent2 s. by rewrite crossover_unknown.
  - by apply Run_unknown.
Qed.

Lemma unknown_type_runs_uniform_witness :
  Run insertionSort (demo_config 2 (4 # 5) (1 # 20) "")
    (NewGeneticAlgorithm demo_source (demo_config 2 (4 # 5) (1 # 20) ""))
  = Run insertionSort (demo_config 2 (4 # 5) (1 # 20) "uniform")
      (NewGeneticAlgorithm demo_source (demo_config 2 (4 # 5) (1 # 20) "uniform")).
Proof.
  refine (proj2 (unknown_type_runs_uniform insertionSort demo_source
                   (demo_config 2 (4 # 5) (1 # 20) "") _)); cbn; discriminate.
Defined.

(** ** The engine reads its own generator, draw by draw *)

Section Streams.
Variable K : nat.

Lemma same_but_stream_refl s : same_but_stream K s s.
Proof. by repeat split. Qed.

Lemma cursor_ret {A} (a : A) : reads_at_cursor K (mret a).
Proof.
  intros s1 s2 Hs b s1' E. inversion E; subst. split; [done|].
  intros _. by exists s2.
Qed.

Lemma cursor_panic {A} msg : reads_at_cursor K (@panic A msg).
Proof. intros s1 s2 Hs b s1' E. discriminate. Qed.

Lemma follows_bind {A B} (m1 m2 : M A) (k1 k2 : A -> M B) s1 s2 :
  follows K m1 m2 s1 s2 ->
  (forall b t1 t2, m1 s1 = Ok (b, t1) -> same_but_stream K t1 t2 ->
     follows K (k1 b) (k2 b) t1 t2) ->
  follows K (m1 ≫= k1) (m2 ≫= k2) s1 s2.
Proof.
  intros Hm Hk a s1' E. unfold mbind, M_bind in E.
  destruct (m1 s1) as [[b t1]|msg] eqn:E1; [|discriminate].
  destruct (Hm b t1 E1) as [Hle Hnext].
  destruct (Hk b t1 t1 eq_refl (same_but_stream_refl t1) a s1' E) as [Hle' _].
  split; [lia|]. intros HK.
  destruct Hnext as (t2 & E2 & Ht); [lia|].
  destruct (Hk b t1 t2 eq_refl Ht a s1' E) as [_ Hfin].
  destruct (Hfin HK) as (s2' & E2' & Hs'). exists s2'. split; [|done].
  unfold mbind, M_bind. by rewrite E2.
Qed.

Lemma cursor_bind {A B} (m : M A) (k : A -> M B) :
  reads_at_cursor K m -> (forall b, reads_at_cursor K (k b)) -> reads_at_cursor K (m ≫= k).
Proof.
  intros Hm Hk s1 s2 Hs. apply follows_bind; [by apply Hm|].
  intros b t1 t2 _ Ht. by apply Hk.
Qed.

Lemma cursor_get_bind {A} (k : GeneticAlgorithm -> M A) :
  (forall s1 s2, same_but_stream K s1 s2 -> follows K (k s1) (k s2) s1 s2) ->
  reads_at_cursor K (get ≫= k).
Proof. intros Hk s1 s2 Hs. exact (Hk s1 s2 Hs). Qed.

Lemma cursor_set_population p : reads_at_cursor K (set_population p).
Proof.
  intros s1 s2 (Hp & Hb & Hm & Hc & Ht) a s1' E. inversion E; subst; simpl.
  split; [done|]. intros _. eexists. split; [reflexivity|]. by repeat split.
Qed.

Lemma cursor_set_bestFitness h : reads_at_cursor K (set_bestFitness h).
Proof.
  intros s1 s2 (Hp & Hb & Hm & Hc & Ht) a s1' E. inversion E; subst; simpl.
  split; [done|]. intros _. eexists. split; [reflexivity|]. by repeat split.
Qed.

Lemma cursor_set_mem h : reads_at_cursor K (set_mem h).
Proof.
  intros s1 s2 (Hp & Hb & Hm & Hc & Ht) a s1' E. inversion E; subst; simpl.
  split; [done|]. intros _. eexists. split; [reflexivity|]. by repeat split.
Qed.

Lemma cursor_Float64 : reads_at_cursor K Float64.
Proof.
  intros s1 s2 (Hp & Hb & Hm & Hc & Ht) a s1' E.
  unfold Float64, mbind, M_bind, get, set_rng, mret, M_ret in E.
  inversion E; subst; clear E; simpl. split; [lia|]. intros HK.
  exists (drawn s2). split.
  - cbv [Float64 mbind M_bind get set_rng mret M_ret drawn]. cbn.
    rewrite <- Hc, <- (Ht (pos (rng s1))) by lia. reflexivity.
  - unfold drawn. repeat split; simpl; try done; [lia|].
    intros n Hn. apply Ht. lia.
Qed.

Lemma cursor_Intn n : reads_at_cursor K (Intn n).
Proof.
  intros s1 s2 (Hp & Hb & Hm & Hc & Ht) a s1' E. unfold Intn in *.
  destruct (n <=? 0)%Z; [discriminate|].
  unfold mbind, M_bind, get, set_rng, mret, M_ret in *.
  inversion E; subst; clear E; simpl. split; [lia|]. intros HK.
  exists (drawn s2). split.
  - cbv [mbind M_bind get set_rng mret M_ret drawn]. cbn.
    rewrite <- Hc, <- (Ht (pos (rng s1))) by lia. reflexivity.
  - unfold drawn. repeat split; simpl; try done; [lia|].
    intros i Hi. apply Ht. lia.
Qed.

Lemma cursor_for_range n i body :
  (forall j, reads_at_cursor K (body j)) -> reads_at_cursor K (for_range n i body).
Proof.
  intros Hbody. revert i. induction n as [|n IH]; intros i; simpl.
  - apply cursor_ret.
  - apply cursor_bind; [apply Hbody|]. intros []. apply IH.
Qed.

(** A computation that reads the state only through its population,
    history and arrays. *)
Lemma cursor_get_fields {A} (k : GeneticAlgorithm -> M A) :
  (forall s, reads_at_cursor K (k s)) ->
  (forall s1 s2, population s1 = population s2 -> bestFitness s1 = bestFitness s2 ->
     mem s1 = mem s2 -> k s1 = k s2) ->
  reads_at_cursor K (get ≫= k).
Proof.
  intros Hk Hf. apply cursor_get_bind. intros s1 s2 Hs.
  destruct Hs as (Hp & Hb & Hm & Hc & Ht) eqn:E.
  rewrite <- (Hf s1 s2 Hp Hb Hm). by apply Hk.
Qed.

Ltac fields := intros ? ? Hp Hb Hm; simpl; rewrite ?Hp, ?Hb, ?Hm; reflexivity.

Lemma cursor_make_bytes n : reads_at_cursor K (make_bytes n).
Proof.
  unfold make_bytes. destruct (n <? 0)%Z; [apply cursor_panic|].
  apply cursor_get_fields; [|fields].
  intros s. apply cursor_bind; [apply cursor_set_mem|]. intros _. apply cursor_ret.
Qed.

Lemma cursor_load p : reads_at_cursor K (load p).
Proof.
  unfold load. apply cursor_get_fields; [|fields].
  intros s. destruct (mem s !! p); [apply cursor_ret|apply cursor_panic].
Qed.

Lemma cursor_load_byte p i : reads_at_cursor K (load_byte p i).
Proof.
  unfold load_byte. apply cursor_bind; [apply cursor_load|].
  intros g. destruct (g !! i); [apply cursor_ret|apply cursor_panic].
Qed.

Lemma cursor_store_byte p i v : reads_at_cursor K (store_byte p i v).
Proof.
  unfold store_byte. apply cursor_bind; [apply cursor_load|].
  intros g. destruct (decide _); [|apply cursor_panic].
  apply cursor_get_fields; [|fields]. intros s. apply cursor_set_mem.
Qed.

Lemma cursor_store_slice p lo hi src : reads_at_cursor K (store_slice p lo hi src).
Proof.
  unfold store_slice. apply cursor_bind; [apply cursor_load|].
  intros g. destruct (decide _); [|apply cursor_panic].
  apply cursor_get_fields; [|fields]. intros s. apply cursor_set_mem.
Qed.

Lemma cursor_load_slice p lo hi : reads_at_cursor K (load_slice p lo hi).
Proof.
  unfold load_slice. apply cursor_bind; [apply cursor_load|].
  intros g. destruct (decide _); [apply cursor_ret|apply cursor_panic].
Qed.

Lemma cursor_evaluate config p : reads_at_cursor K (evaluate config p).
Proof.
  unfold evaluate. apply cursor_bind; [apply cursor_load|]. intros g. apply cursor_ret.
Qed.

Lemma cursor_population_at i : reads_at_cursor K (population_at i).
Proof.
  unfold population_at. apply cursor_get_fields; [|fields].
  intros s. destruct (i <? 0)%Z; [apply cursor_panic|].
  destruct (population s !! _); [apply cursor_ret|apply cursor_panic].
Qed.

Lemma cursor_tournament_rounds rounds best : reads_at_cursor K (tournament_rounds rounds best).
Proof.
  revert best. induction rounds as [|rounds IH]; intros best; simpl.
  - apply cursor_ret.
  - apply cursor_get_fields; [|fields]. intros s.
    apply cursor_bind; [apply cursor_Intn|]. intros i.
    apply cursor_bind; [apply cursor_population_at|]. intros candidate. apply IH.
Qed.

Lemma cursor_tournamentSelection : reads_at_cursor K tournamentSelection.
Proof.
  unfold tournamentSelection. apply cursor_get_fields; [|fields]. intros s.
  apply cursor_bind; [apply cursor_Intn|]. intros i.
  apply cursor_bind; [apply cursor_population_at|]. intros best.
  apply cursor_tournament_rounds.
Qed.

Ltac step :=
  lazymatch goal with
  | |- reads_at_cursor _ (get ≫= _) => apply cursor_get_fields; [intros ?|fields]
  | |- reads_at_cursor _ (_ ≫= _) => apply cursor_bind; [|intros ?]
  | |- reads_at_cursor _ (mret _) => apply cursor_ret
  | |- reads_at_cursor _ (panic _) => apply cursor_panic
  | |- reads_at_cursor _ Float64 => apply cursor_Float64
  | |- reads_at_cursor _ (Intn _) => apply cursor_Intn
  | |- reads_at_cursor _ (make_bytes _) => apply cursor_make_bytes
  | |- reads_at_cursor _ (load_byte _ _) => apply cursor_load_byte
  | |- reads_at_cursor _ (load _) => apply cursor_load
  | |- reads_at_cursor _ (store_byte _ _ _) => apply cursor_store_byte
  | |- reads_at_cursor _ (store_slice _ _ _ _) => apply cursor_store_slice
  | |- reads_at_cursor _ (load_slice _ _ _) => apply cursor_load_slice
  | |- reads_at_cursor _ (evaluate _ _) => apply cursor_evaluate
  | |- reads_at_cursor _ (population_at _) => apply cursor_population_at
  | |- reads_at_cursor _ tournamentSelection => apply cursor_tournamentSelection
  | |- reads_at_cursor _ (set_population _) => apply cursor_set_population
  | |- reads_at_cursor _ (set_bestFitness _) => apply cursor_set_bestFitness
  | |- reads_at_cursor _ (set_mem _) => apply cursor_set_mem
  | |- reads_at_cursor _ (for_range _ _ _) => apply cursor_for_range; intros ?
  | |- reads_at_cursor _ (if ?c then _ else _) => destruct c
  | |- reads_at_cursor _ (match ?c with Some _ => _ | None => _ end) => destruct c
  end.

Lemma cursor_onepointCrossover parent1 parent2 :
  reads_at_cursor K (onepointCrossover parent1 parent2).
Proof. unfold onepointCrossover. repeat step. Qed.

Lemma cursor_uniformCrossover parent1 parent2 :
  reads_at_cursor K (uniformCrossover parent1 parent2).
Proof.
  unfold uniformCrossover. repeat step.
Qed.

Lemma cursor_crossover config parent1 parent2 :
  reads_at_cursor K (crossover config parent1 parent2).
Proof.
  unfold crossover. destruct (String.eqb _ _);
    [apply cursor_onepointCrossover|apply cursor_uniformCrossover].
Qed.

Lemma cursor_mutate config individual : reads_at_cursor K (mutate config individual).
Proof.
  unfold mutate. repeat step.
Qed.

Lemma cursor_Initialize config : reads_at_cursor K (Initialize config).
Proof.
  unfold Initialize. destruct (_ <? _)%Z; [apply cursor_panic|].
  repeat step.
Qed.

Lemma cursor_reproduce config room : forall newPopulation,
  reads_at_cursor K (reproduce config room newPopulation).
Proof.
  induction room as [room IH] using lt_wf_ind. intros newPopulation.
  destruct room as [|room]; simpl; [apply cursor_ret|].
  apply cursor_bind; [apply cursor_tournamentSelection|]. intros parent1.
  apply cursor_bind; [apply cursor_tournamentSelection|]. intros parent2.
  apply cursor_bind; [apply cursor_Float64|]. intros d.
  apply cursor_bind.
  { destruct (Qltb _ _); [apply cursor_crossover|apply cursor_ret]. }
  intros [child1 child2].
  apply cursor_bind; [apply cursor_mutate|]. intros _.
  apply cursor_bind; [apply cursor_mutate|]. intros _.
  apply cursor_bind; [apply cursor_evaluate|]. intros fit1.
  apply cursor_bind; [apply cursor_evaluate|]. intros fit2.
  destruct room as [|room]; [apply cursor_ret|]. apply IH. lia.
Qed.

Section Sorted.
Variable sort_slice :
  (Individual -> Individual -> bool) -> list Individual -> list Individual.

Lemma cursor_generation config : reads_at_cursor K (generation sort_slice config).
Proof.
  unfold generation. apply cursor_get_fields; [|fields]. intros s.
  apply cursor_bind; [apply cursor_set_population|]. intros _.
  apply cursor_bind; [apply cursor_population_at|]. intros top.
  apply cursor_get_fields; [|fields]. intros s0.
  apply cursor_bind; [apply cursor_set_bestFitness|]. intros _.
  apply cursor_bind.
  { destruct (_ <? _)%Z; [apply cursor_panic|apply cursor_ret]. }
  intros _. apply cursor_get_fields; [|fields]. intros s1.
  apply cursor_bind; [apply cursor_reproduce|]. intros newPopulation.
  apply cursor_set_population.
Qed.

Lemma cursor_Run config : reads_at_cursor K (Run sort_slice config).
Proof.
  unfold Run. apply cursor_bind; [apply cursor_Initialize|]. intros _.
  apply cursor_bind.
  { apply cursor_for_range. intros _. apply cursor_generation. }
  intros _. apply cursor_get_fields; [|fields]. intros s.
  apply cursor_bind; [apply cursor_set_population|]. intros _.
  apply cursor_bind; [apply cursor_population_at|]. intros top.
  apply cursor_get_fields; [|fields]. intros s0. apply cursor_ret.
Qed.
End Sorted.
End Streams.


Lemma same_settings_eq config1 config2 :
  same_settings config1 config2 -> config1 = config2.
Proof.
  intros (H1 & H2 & H3 & H4 & H5 & H6 & H7 & H8 & H9).
  destruct config1, config2; simpl in *; subst.
  assert (FitnessFunc0 = FitnessFunc1) as ->; [|done].
  extensionality genes. apply H9.
Qed.

(** C3. Take two freshly constructed engines, each with its own
    generator, for configurations with the same settings (the seed among
    them) and evaluators that map every genotype to the same value.  If
    the first run returns and the second generator hands out, draw for
    draw, what the first handed out during that run, then the second run
    returns the same individual and the same history, and leaves the
    same population, the same arrays and the cursor at the same place:
    [Run] depends on its generator through the draws it makes, in the
    order it makes them, and on nothing else.  In particular two
    generators that give the same stream for the seed give the same
    outcome, a panic included. *)
Theorem Run_deterministic sort_slice source1 source2 config1 config2 :
  same_settings config1 config2 ->
  (forall best hist s1',
     Run sort_slice config1 (NewGeneticAlgorithm source1 config1)
     = Ok ((best, hist), s1') ->
     (forall n, n < pos (rng s1') ->
        source1 (Seed config1) n = source2 (Seed config2) n) ->
     exists s2',
       Run sort_slice config2 (NewGeneticAlgorithm source2 config2)
       = Ok ((best, hist), s2')
       /\ population s2' = population s1'
       /\ mem s2' = mem s1'
       /\ bestFitness s2' = bestFitness s1'
       /\ pos (rng s2') = pos (rng s1'))
  /\ ((forall n, source1 (Seed config1) n = source2 (Seed config2) n) ->
      Run sort_slice config1 (NewGeneticAlgorithm source1 config1)
      = Run sort_slice config2 (NewGeneticAlgorithm source2 config2)).
Proof.
  intros Hsame. pose proof (same_settings_eq _ _ Hsame) as <-. split.
  - intros best hist s1' HRun Hsrc.
    assert (same_but_stream (pos (rng s1'))
              (NewGeneticAlgorithm source1 config1)
              (NewGeneticAlgorithm source2 config1)) as Hstart.
    { repeat split; try done. simpl. intros n Hn. apply Hsrc. lia. }
    destruct (cursor_Run (pos (rng s1')) sort_slice config1 _ _ Hstart
                _ _ HRun) as [_ Hnext].
    destruct (Hnext (le_n _)) as (s2' & HRun2 & Hp & Hb & Hm & Hc & _).
    exists s2'. by repeat split.
  - intros Hsrc. f_equal. unfold NewGeneticAlgorithm. do 2 f_equal.
    extensionality n. apply Hsrc.
Qed.

Lemma Run_deterministic_witness :
  exists best hist s1' s2',
    Run insertionSort (demo_config 3 (4 # 5) (1 # 20) "onepoint")
      (NewGeneticAlgorithm demo_source (demo_config 3 (4 # 5) (1 # 20) "onepoint"))
    = Ok ((best, hist), s1')
    /\ Run insertionSort (demo_config 3 (4 # 5) (1 # 20) "onepoint")
         (NewGeneticAlgorithm (cut_source (pos (rng s1')) demo_source)
            (demo_config 3 (4 # 5) (1 # 20) "onepoint"))
       = Ok ((best, hist), s2')
    /\ population s2' = population s1'
    /\ mem s2' = mem s1'
    /\ bestFitness s2' = bestFitness s1'
    /\ pos (rng s2') = pos (rng s1').
Proof.
  destruct (Run_fresh insertionSort demo_source insertionSort_perm
              (demo_config 3 (4 # 5) (1 # 20) "onepoint"))
    as (best & hist & s1' & l & HRun & _); [cbn; lia|cbn; lia|].
  destruct (proj1 (Run_deterministic insertionSort demo_source
                     (cut_source (pos (rng s1')) demo_source)
                     (demo_config 3 (4 # 5) (1 # 20) "onepoint")
                     (demo_config 3 (4 # 5) (1 # 20) "onepoint")
                     ltac:(unfold same_settings; cbn; repeat split))
              best hist s1' HRun) as (s2' & HRun2 & H).
  - intros n Hn. unfold cut_source.
    destruct (Nat.ltb_spec n (pos (rng s1'))); [reflexivity|lia].
  - exists best, hist, s1', s2'. exact (conj HRun (conj HRun2 H)).
Defined.

(** Struct copies share their array: without crossover a child is a copy
    of its parent, [mutate] writes into the parent's array, and the
    [Fitness] of every other copy, the elite among them, is left as it
    was.  In this run the third individual of the final population
    records fitness 2 over genes that evaluate to 7. *)
Remark fitness_field_can_be_stale :
  let r := Run insertionSort (demo_config 3 0 (1 # 2) "onepoint")
             (NewGeneticAlgorithm demo_source
                (demo_config 3 0 (1 # 2) "onepoint")) in
  (s ← final_state r; population s !! 2) = Some {| Genes := 1; Fitness := 2 |}
  /\ (s ← final_state r; mem s !! 1) = Some [1; 1; 1]%Z
  /\ FitnessFunc (demo_config 3 0 (1 # 2) "onepoint") [1; 1; 1]%Z = 7%Q.
Proof. vm_compute. repeat split. Qed.

(* ===================================================================== *)
(** * More on the engine                                                 *)
(* ===================================================================== *)

Lemma Float64_drawn s :
  Float64 s = Ok (draw_at (rng s) (pos (rng s)), drawn s).
Proof. reflexivity. Qed.

Lemma store_byte_with_mem s p i v g :
  mem s !! p = Some g -> i < length g ->
  store_byte p i v s = Ok (tt, with_mem (<[p := <[i := v]> g]> (mem s)) s).
Proof.
  intros Hp Hi. unfold store_byte, load, mbind, M_bind, get; simpl.
  rewrite Hp; simpl. by rewrite decide_True.
Qed.

Lemma make_bytes_with_mem s (n : Z) :
  (0 <= n)%Z ->
  make_bytes n s
  = Ok (length (mem s), with_mem (mem s ++ [replicate (Z.to_nat n) 0%Z]) s).
Proof.
  intros Hn. unfold make_bytes. destruct (Z.ltb_spec n 0); [lia|]. reflexivity.
Qed.

Lemma evaluate_eq config s p g :
  mem s !! p = Some g -> evaluate config p s = Ok (FitnessFunc config g, s).
Proof.
  intros Hp. unfold evaluate, load, mbind, M_bind, get; simpl. by rewrite Hp.
Qed.

Lemma bit_array_zeros L : bit_array L (replicate L 0%Z).
Proof. split; [apply length_replicate|]. apply Forall_replicate. by left. Qed.

Lemma bit_array_insert L g i v :
  bit_array L g -> Decode.is_bit v -> bit_array L (<[i := v]> g).
Proof.
  intros (Hl & Hb) Hv. split; [by rewrite length_insert|].
  by apply Forall_insert.
Qed.

(** The loop of [Initialize] that fills the array [p]. *)
Lemma fill_bits_spec L p s :
  (exists g, mem s !! p = Some g /\ bit_array L g) ->
  wp (for_range L 0 (fun j =>
        d ← Float64;
        if Qltb d (1 # 2) then store_byte p j 1%Z else store_byte p j 0%Z))
    (fun _ s' =>
       population s' = population s /\ bestFitness s' = bestFitness s /\
       tape (rng s') = tape (rng s) /\ pos (rng s') = L + pos (rng s) /\
       length (mem s') = length (mem s) /\
       (forall q, q ≠ p -> mem s' !! q = mem s !! q) /\
       exists g, mem s' !! p = Some g /\ bit_array L g) s.
Proof.
  intros Hg. eapply wp_mono.
  - apply (wp_for_range (fun j s' =>
       population s' = population s /\ bestFitness s' = bestFitness s /\
       tape (rng s') = tape (rng s) /\ pos (rng s') = j + pos (rng s) /\
       length (mem s') = length (mem s) /\
       (forall q, q ≠ p -> mem s' !! q = mem s !! q) /\
       exists g, mem s' !! p = Some g /\ bit_array L g)).
    + repeat split; done.
    + intros j s1 Hj (P1 & B1 & T1 & C1 & Len1 & O1 & g & Hp & Hbits).
      simpl in Hj. apply wp_bind. unfold wp at 1. rewrite Float64_drawn.
      assert (forall v, Decode.is_bit v ->
        wp (store_byte p j v) (fun _ s' =>
          population s' = population s /\ bestFitness s' = bestFitness s /\
          tape (rng s') = tape (rng s) /\ pos (rng s') = S j + pos (rng s) /\
          length (mem s') = length (mem s) /\
          (forall q, q ≠ p -> mem s' !! q = mem s !! q) /\
          exists g, mem s' !! p = Some g /\ bit_array L g) (drawn s1)) as Hst.
      { intros v Hv. unfold wp.
        rewrite (store_byte_with_mem (drawn s1) p j v g Hp)
          by (destruct Hbits as [-> _]; lia).
        simpl. repeat split; try done.
        - by rewrite C1.
        - by rewrite length_insert.
        - intros q Hq. rewrite list_lookup_insert_ne by done. by apply O1.
        - exists (<[j := v]> g). split.
          + apply list_lookup_insert_eq. by eapply lookup_lt_Some.
          + by apply bit_array_insert. }
      destruct (Qltb _ _); apply Hst; [by right|by left].
  - intros [] s' H. exact H.
Qed.

(** [Initialize], as a rule of the logic. *)
Lemma wp_Initialize_fresh config s :
  (0 <= PopulationSize config)%Z -> (0 <= BitsPerGene config)%Z ->
  let L := Z.to_nat (BitsPerGene config) in
  let N := Z.to_nat (PopulationSize config) in
  wp (Initialize config) (fun _ s' =>
    length (population s') = N
    /\ (forall k individual, population s' !! k = Some individual ->
          Genes individual = length (mem s) + k
          /\ well_formed L (mem s') individual
          /\ fresh_fitness config (mem s') individual)
    /\ length (mem s') = length (mem s) + N
    /\ (forall q, q < length (mem s) -> mem s' !! q = mem s !! q)
    /\ bestFitness s' = bestFitness s
    /\ tape (rng s') = tape (rng s)
    /\ pos (rng s') = N * L + pos (rng s)) s.
Proof.
  intros HN HL L N.
  unfold Initialize. destruct (Z.ltb_spec (PopulationSize config) 0) as [Hneg|_]; [lia|].
    apply wp_bind, wp_set_population. fold N. fold L.
    eapply wp_mono.
    - apply (wp_for_range (fun i s' =>
        length (population s') = i
        /\ (forall k individual, population s' !! k = Some individual ->
              Genes individual = length (mem s) + k
              /\ well_formed L (mem s') individual
              /\ fresh_fitness config (mem s') individual)
        /\ length (mem s') = length (mem s) + i
        /\ (forall q, q < length (mem s) -> mem s' !! q = mem s !! q)
        /\ bestFitness s' = bestFitness s
        /\ tape (rng s') = tape (rng s)
        /\ pos (rng s') = i * L + pos (rng s))).
      + simpl. repeat split; try done; try lia.
      + intros i s1 _ (Len1 & Inds & M1 & Old1 & B1 & T1 & C1).
        apply wp_bind. unfold wp at 1.
        rewrite make_bytes_with_mem by done. fold L.
        set (p := length (mem s1)).
        set (s2 := with_mem (mem s1 ++ [replicate L 0%Z]) s1).
        apply wp_bind. eapply wp_mono.
        { apply (fill_bits_spec L p s2). exists (replicate L 0%Z). split.
          - simpl. by rewrite lookup_app_r, Nat.sub_diag.
          - apply bit_array_zeros. }
        intros [] s3 (P3 & B3 & T3 & C3 & Len3 & O3 & g & Hp & Hbits).
        simpl in P3, B3, T3, C3, Len3.
        apply wp_bind. unfold wp at 1. rewrite (evaluate_eq config s3 p g Hp).
        apply wp_bind, wp_get. apply wp_set_population. simpl.
        rewrite length_app in Len3. simpl in Len3.
        assert (forall q, q < p -> mem s3 !! q = mem s1 !! q) as Old3.
        { intros q Hq. rewrite O3 by lia. simpl. by apply lookup_app_l. }
        split; [rewrite length_app, P3; simpl; lia|].
        split; [|split; [lia|split; [|split; [congruence|split; [congruence|lia]]]]].
        * intros k x Hk. rewrite P3 in Hk.
          apply lookup_app_Some in Hk as [Hk|(Hge & Hk)].
          -- destruct (Inds k x Hk) as (G & (gx & Hgx & Hbx) & (gy & Hgy & Hfy)).
             assert (Genes x < p) as Hlt.
             { unfold p. apply lookup_lt_Some in Hgx. done. }
             split; [done|]. split.
             ++ exists gx. by rewrite Old3.
             ++ exists gy. by rewrite Old3.
          -- rewrite Len1 in Hge, Hk.
             apply list_lookup_singleton_Some in Hk as (Hk0 & <-). simpl.
             split; [unfold p; lia|]. split; by exists g.
        * intros q Hq. rewrite Old3 by (unfold p; lia). by apply Old1.
    - intros [] s' Hpost. simpl in Hpost. exact Hpost.
Qed.

(** X1. [Initialize] builds [PopulationSize] individuals; the [k]-th owns
    the [k]-th new array, [BitsPerGene] bits long, and records the fitness
    of exactly those bits.  The arrays there before, the history and the
    stream are left alone, and [PopulationSize * BitsPerGene] draws are
    consumed. *)
Theorem Initialize_fresh_population config s :
  (0 <= PopulationSize config)%Z -> (0 <= BitsPerGene config)%Z ->
  exists s',
    Initialize config s = Ok (tt, s')
    /\ length (population s') = Z.to_nat (PopulationSize config)
    /\ (forall k individual, population s' !! k = Some individual ->
          Genes individual = length (mem s) + k
          /\ well_formed (Z.to_nat (BitsPerGene config)) (mem s') individual
          /\ fresh_fitness config (mem s') individual)
    /\ length (mem s') = length (mem s) + Z.to_nat (PopulationSize config)
    /\ (forall q, q < length (mem s) -> mem s' !! q = mem s !! q)
    /\ bestFitness s' = bestFitness s
    /\ tape (rng s') = tape (rng s)
    /\ pos (rng s')
       = Z.to_nat (PopulationSize config) * Z.to_nat (BitsPerGene config)
         + pos (rng s).
Proof.
  intros HN HL.
  pose proof (wp_Initialize_fresh config s HN HL) as H. cbv zeta in H.
  apply wp_ok in H as ([] & s' & Hinit & H). exists s'. split; [done|exact H].
Qed.

Lemma population_at_eq s k h (i : Z) x :
  (0 <= i)%Z -> population s !! Z.to_nat i = Some x ->
  population_at i (st_after s k h) = Ok (x, st_after s k h).
Proof.
  intros Hi Hx. unfold population_at, mbind, M_bind, get; simpl.
  destruct (Z.ltb_spec i 0); [lia|]. by rewrite Hx.
Qed.

Lemma candidate_is_Some s k :
  population s ≠ [] -> exists x, candidate s k = Some x /\ x ∈ population s.
Proof.
  intros Hne. unfold candidate.
  assert (0 < length (population s)) as Hlen
    by (destruct (population s); [done|simpl; lia]).
  pose proof (Z.mod_pos_bound (tape (rng s) (k + pos (rng s)))
                (Z.of_nat (length (population s))) ltac:(lia)) as Hb.
  destruct (lookup_lt_is_Some_2 (population s)
              (Z.to_nat (tape (rng s) (k + pos (rng s))
                         mod Z.of_nat (length (population s))))
              ltac:(lia)) as [x Hx].
  exists x. split; [done|]. by eapply list_elem_of_lookup_2.
Qed.

Lemma fitter_le_l a b : (Fitness a <= Fitness (fitter a b))%Q.
Proof.
  unfold fitter. destruct (Qltb _ _) eqn:E; [|apply Qle_refl].
  apply Qltb_lt in E. by apply Qlt_le_weak.
Qed.

Lemma fitter_le_r a b : (Fitness b <= Fitness (fitter a b))%Q.
Proof.
  unfold fitter. destruct (Qltb _ _) eqn:E; [apply Qle_refl|].
  by apply Qltb_ge in E.
Qed.

(** X2. On a non-empty population [tournamentSelection] draws three
    candidates (with replacement), consumes exactly three draws and
    changes nothing else; it returns the candidate that beat the earlier
    ones strictly, so no candidate is fitter than the winner and the first
    drawn keeps every tie. *)
Theorem tournament_picks_fittest s :
  population s ≠ [] ->
  exists c0 c1 c2,
    candidate s 0 = Some c0 /\ candidate s 1 = Some c1 /\ candidate s 2 = Some c2
    /\ tournamentSelection s
       = Ok (fitter (fitter c0 c1) c2, st_after s 3 (mem s))
    /\ fitter (fitter c0 c1) c2 ∈ population s
    /\ (Fitness c0 <= Fitness (fitter (fitter c0 c1) c2))%Q
    /\ (Fitness c1 <= Fitness (fitter (fitter c0 c1) c2))%Q
    /\ (Fitness c2 <= Fitness (fitter (fitter c0 c1) c2))%Q
    /\ ((Fitness c1 <= Fitness c0)%Q -> (Fitness c2 <= Fitness c0)%Q ->
        fitter (fitter c0 c1) c2 = c0).
Proof.
  intros Hne.
  destruct (candidate_is_Some s 0 Hne) as (c0 & H0 & I0).
  destruct (candidate_is_Some s 1 Hne) as (c1 & H1 & I1).
  destruct (candidate_is_Some s 2 Hne) as (c2 & H2 & I2).
  exists c0, c1, c2. split; [done|]. split; [done|]. split; [done|].
  assert (0 < length (population s)) as Hlen
    by (destruct (population s); [done|simpl; lia]).
  assert (forall k, (0 <= tape (rng s) (k + pos (rng s))
                     mod Z.of_nat (length (population s)))%Z) as Hpos.
  { intros k. apply Z.mod_pos_bound. lia. }
  assert (0 < Z.of_nat (length (population s)))%Z as Hn by lia.
  split.
  { rewrite (eta_st_after s) at 1. unfold tournamentSelection, candidate in *.
    rewrite (bind_ok _ _ _ _ _ eq_refl). simpl population.
    rewrite (bind_ok _ _ _ _ _ (Intn_eq s 0 (mem s) _ Hn)).
    rewrite (bind_ok _ _ _ _ _ (population_at_eq s 1 (mem s) _ c0 (Hpos 0) H0)).
    change (tournamentSize - 1) with 2. simpl tournament_rounds.
    rewrite (bind_ok _ _ _ _ _ eq_refl). simpl population.
    rewrite (bind_ok _ _ _ _ _ (Intn_eq s 1 (mem s) _ Hn)).
    rewrite (bind_ok _ _ _ _ _ (population_at_eq s 2 (mem s) _ c1 (Hpos 1) H1)).
    rewrite (bind_ok _ _ _ _ _ eq_refl). simpl population.
    rewrite (bind_ok _ _ _ _ _ (Intn_eq s 2 (mem s) _ Hn)).
    rewrite (bind_ok _ _ _ _ _ (population_at_eq s 3 (mem s) _ c2 (Hpos 2) H2)).
    reflexivity. }
  split.
  { unfold fitter. by repeat destruct (Qltb _ _). }
  split; [eapply Qle_trans; [apply fitter_le_l|apply fitter_le_l]|].
  split; [eapply Qle_trans; [apply fitter_le_r|apply fitter_le_l]|].
  split; [apply fitter_le_r|].
  intros L1 L2. unfold fitter.
  rewrite (proj2 (Qltb_ge (Fitness c0) (Fitness c1)) L1).
  by rewrite (proj2 (Qltb_ge (Fitness c0) (Fitness c2)) L2).
Qed.

Lemma tournament_picks_fittest_witness :
  tournamentSelection demo_state
  = Ok ({| Genes := 0; Fitness := 5 |}, st_after demo_state 3 (mem demo_state)).
Proof.
  destruct (tournament_picks_fittest demo_state ltac:(discriminate))
    as (c0 & c1 & c2 & H0 & H1 & H2 & Hrun & _).
  vm_compute in H0, H1, H2.
  injection H0 as <-. injection H1 as <-. injection H2 as <-.
  exact Hrun.
Defined.

(** With an empty population [tournamentSelection] panics: [rng.Intn]
    rejects the bound 0. *)
Theorem tournament_of_empty_population_panics s :
  population s = [] ->
  tournamentSelection s = Panic "invalid argument to Intn".
Proof.
  intros Hpop. unfold tournamentSelection, mbind, M_bind, get. by rewrite Hpop.
Qed.

Lemma tournament_of_empty_population_panics_witness :
  tournamentSelection (NewGeneticAlgorithm demo_source (demo_config 1 0 0 ""))
  = Panic "invalid argument to Intn".
Proof.
  exact (tournament_of_empty_population_panics
           (NewGeneticAlgorithm demo_source (demo_config 1 0 0 "")) eq_refl).
Defined.

Lemma onepoint_child_lookup c g1 g2 i :
  length g1 = length g2 ->
  onepoint_child c g1 g2 !! i = if decide (i < c) then g1 !! i else g2 !! i.
Proof.
  intros Hlen. unfold onepoint_child. destruct (decide (i < c)) as [Hi|Hi].
  - destruct (decide (i < length g1)) as [Hl|Hl].
    + rewrite lookup_app_l by (rewrite length_take; lia).
      by rewrite lookup_take_lt.
    + rewrite (lookup_ge_None_2 g1) by lia. apply lookup_ge_None_2.
      rewrite length_app, length_take, length_drop. lia.
  - destruct (decide (c <= length g1)) as [Hc|Hc].
    + rewrite lookup_app_r by (rewrite length_take; lia).
      rewrite length_take, lookup_drop. f_equal. lia.
    + rewrite take_ge, drop_ge by lia. rewrite app_nil_r.
      rewrite (lookup_ge_None_2 g1), (lookup_ge_None_2 g2) by lia. done.
Qed.

Lemma onepoint_recombined c g1 g2 :
  length g1 = length g2 ->
  recombined g1 g2 (onepoint_child c g1 g2) (onepoint_child c g2 g1).
Proof.
  intros Hlen. unfold recombined.
  split; [|split].
  - unfold onepoint_child. rewrite length_app, length_take, length_drop. lia.
  - unfold onepoint_child. rewrite length_app, length_take, length_drop. lia.
  - intros i x y Hx Hy. rewrite !onepoint_child_lookup by done.
    destruct (decide (i < c)); [by left|by right].
Qed.

Lemma pick_recombined r k g1 g2 :
  length g1 = length g2 ->
  recombined g1 g2 (pick r k g1 g2) (pick r k g2 g1).
Proof.
  intros Hlen. split; [by apply pick_length|].
  split; [rewrite pick_length; done|].
  intros i x y Hx Hy.
  rewrite (pick_lookup _ _ g1 g2 i x y Hx Hy), (pick_lookup _ _ g2 g1 i y x Hy Hx).
  destruct (coin _ _ i); [by left|by right].
Qed.

Lemma recombined_bits g1 g2 h1 h2 :
  length g1 = length g2 -> recombined g1 g2 h1 h2 ->
  Forall Decode.is_bit g1 -> Forall Decode.is_bit g2 ->
  Forall Decode.is_bit h1 /\ Forall Decode.is_bit h2.
Proof.
  intros Hlen (L1 & L2 & Hpos) B1 B2.
  rewrite Forall_lookup in B1. rewrite Forall_lookup in B2.
  split; apply Forall_lookup; intros i b Hb.
  - destruct (lookup_lt_is_Some_2 g1 i) as [x Hx];
      [apply lookup_lt_Some in Hb; lia|].
    destruct (lookup_lt_is_Some_2 g2 i) as [y Hy];
      [apply lookup_lt_Some in Hb; lia|].
    destruct (Hpos i x y Hx Hy) as [[E _]|[E _]];
      rewrite Hb in E; inversion E; subst; eauto.
  - destruct (lookup_lt_is_Some_2 g1 i) as [x Hx];
      [apply lookup_lt_Some in Hb; lia|].
    destruct (lookup_lt_is_Some_2 g2 i) as [y Hy];
      [apply lookup_lt_Some in Hb; lia|].
    destruct (Hpos i x y Hx Hy) as [[_ E]|[_ E]];
      rewrite Hb in E; inversion E; subst; eauto.
Qed.

(** [crossover], whichever operator it selects, on two parents of [L >= 1]
    bytes each. *)
Lemma crossover_spec config parent1 parent2 s g1 g2 :
  mem s !! Genes parent1 = Some g1 ->
  mem s !! Genes parent2 = Some g2 ->
  length g1 = length g2 -> 1 <= length g1 ->
  exists k h1 h2,
    crossover config parent1 parent2 s
    = Ok (({| Genes := length (mem s); Fitness := 0 |},
           {| Genes := S (length (mem s)); Fitness := 0 |}),
          st_after s k (mem s ++ [h1; h2]))
    /\ recombined g1 g2 h1 h2.
Proof.
  intros H1 H2 Hlen Hpos. unfold crossover. destruct (String.eqb _ _).
  - eexists 1, _, _. split.
    + apply (onepointCrossover_spec _ _ _ g1 g2); (done || lia).
    + by apply onepoint_recombined.
  - eexists (length g1), _, _. split.
    + by apply (uniformCrossover_spec _ _ _ g1 g2).
    + by apply pick_recombined.
Qed.

(** X3. [crossover], with either operator, never writes into an array
    that exists: it appends two new arrays, the children's, and leaves the
    population and the history alone.  At every position the children hold
    the two parents' bytes, one each, so children of bit vectors are bit
    vectors. *)
Theorem crossover_allocates_and_recombines config parent1 parent2 s g1 g2 :
  mem s !! Genes parent1 = Some g1 ->
  mem s !! Genes parent2 = Some g2 ->
  length g1 = length g2 -> 1 <= length g1 ->
  exists child1 child2 s' h1 h2,
    crossover config parent1 parent2 s = Ok ((child1, child2), s')
    /\ mem s' = mem s ++ [h1; h2]
    /\ Genes child1 = length (mem s) /\ Genes child2 = S (length (mem s))
    /\ population s' = population s /\ bestFitness s' = bestFitness s
    /\ recombined g1 g2 h1 h2
    /\ (Forall Decode.is_bit g1 -> Forall Decode.is_bit g2 ->
        Forall Decode.is_bit h1 /\ Forall Decode.is_bit h2).
Proof.
  intros H1 H2 Hlen Hpos.
  destruct (crossover_spec config parent1 parent2 s g1 g2 H1 H2 Hlen Hpos)
    as (k & h1 & h2 & Hrun & Hrec).
  eexists _, _, _, h1, h2. split; [exact Hrun|]. simpl.
  do 5 (split; [done|]). split; [done|].
  intros B1 B2. by apply (recombined_bits g1 g2 h1 h2).
Qed.

Lemma crossover_allocates_and_recombines_witness :
  exists child1 child2 s' h1 h2,
    crossover (demo_config 1 1 0 "onepoint")
      {| Genes := 0; Fitness := 5 |} {| Genes := 1; Fitness := 2 |} demo_state
    = Ok ((child1, child2), s')
    /\ mem s' = mem demo_state ++ [h1; h2]
    /\ Genes child1 = 2 /\ Genes child2 = 3
    /\ population s' = population demo_state
    /\ bestFitness s' = bestFitness demo_state
    /\ recombined [1; 0; 1; 0]%Z [0; 1; 0; 0]%Z h1 h2
    /\ (Forall Decode.is_bit [1; 0; 1; 0]%Z -> Forall Decode.is_bit [0; 1; 0; 0]%Z ->
        Forall Decode.is_bit h1 /\ Forall Decode.is_bit h2).
Proof.
  refine (crossover_allocates_and_recombines (demo_config 1 1 0 "onepoint")
            {| Genes := 0; Fitness := 5 |} {| Genes := 1; Fitness := 2 |}
            demo_state [1; 0; 1; 0]%Z [0; 1; 0; 0]%Z eq_refl eq_refl eq_refl _).
  simpl. lia.
Defined.

Lemma load_eq s p g : mem s !! p = Some g -> load p s = Ok (g, s).
Proof. intros Hp. unfold load, mbind, M_bind, get; simpl. by rewrite Hp. Qed.

(** X4. On genes of length 0 the two operators part: one-point crossover
    panics, for [rng.Intn] rejects the bound 0, while uniform crossover
    returns two empty children and draws nothing. *)
Theorem crossover_of_empty_genes parent1 parent2 s :
  mem s !! Genes parent1 = Some [] ->
  mem s !! Genes parent2 = Some [] ->
  onepointCrossover parent1 parent2 s = Panic "invalid argument to Intn"
  /\ uniformCrossover parent1 parent2 s
     = Ok (({| Genes := length (mem s); Fitness := 0 |},
            {| Genes := S (length (mem s)); Fitness := 0 |}),
           st_after s 0 (mem s ++ [[]; []])).
Proof.
  intros H1 H2. split.
  - unfold onepointCrossover.
    rewrite (bind_ok _ _ _ _ _ (load_eq s _ _ H1)).
    rewrite (bind_ok _ _ _ _ _ (load_eq s _ _ H2)). reflexivity.
  - by rewrite (uniformCrossover_spec parent1 parent2 s [] [] H1 H2 eq_refl).
Qed.

Lemma crossover_of_empty_genes_witness :
  onepointCrossover {| Genes := 0; Fitness := 0 |} {| Genes := 0; Fitness := 0 |}
    (with_mem [[]] demo_state)
  = Panic "invalid argument to Intn"
  /\ uniformCrossover {| Genes := 0; Fitness := 0 |} {| Genes := 0; Fitness := 0 |}
       (with_mem [[]] demo_state)
     = Ok (({| Genes := 1; Fitness := 0 |}, {| Genes := 2; Fitness := 0 |}),
           st_after (with_mem [[]] demo_state) 0 [[]; []; []]).
Proof.
  exact (crossover_of_empty_genes {| Genes := 0; Fitness := 0 |}
           {| Genes := 0; Fitness := 0 |} (with_mem [[]] demo_state)
           eq_refl eq_refl).
Defined.

Lemma flip_bit_is_bit b : Decode.is_bit (flip_bit b).
Proof. unfold flip_bit. destruct (b =? 0)%Z; [by right|by left]. Qed.

Lemma flip_bit_involutive b : Decode.is_bit b -> flip_bit (flip_bit b) = b.
Proof. by intros [-> | ->]. Qed.

Lemma mutated_bits r k prob g :
  Forall Decode.is_bit g -> Forall Decode.is_bit (mutated r k prob g).
Proof.
  intros Hg. rewrite Forall_lookup in Hg. apply Forall_lookup. intros i b Hb.
  destruct (lookup_lt_is_Some_2 g i) as [x Hx].
  { apply lookup_lt_Some in Hb. by rewrite mutated_length in Hb. }
  rewrite (mutated_lookup _ _ _ _ _ _ Hx) in Hb. inversion Hb; subst.
  destruct (Qltb _ _); [apply flip_bit_is_bit|eauto].
Qed.

(** X5. Whatever [MutationProb] is, [mutate] writes only into the array
    of its individual: that array keeps its length and every byte either
    stays or becomes its flip (so bits stay bits); the other arrays, the
    population with its [Fitness] fields and the history are untouched;
    one draw is consumed per position. *)
Theorem mutate_touches_one_array config individual s g :
  mem s !! Genes individual = Some g ->
  exists g',
    mutate config individual s
    = Ok (tt, st_after s (length g) (<[Genes individual := g']> (mem s)))
    /\ length g' = length g
    /\ (forall i b, g !! i = Some b ->
          g' !! i = Some b \/ g' !! i = Some (flip_bit b))
    /\ (Forall Decode.is_bit g -> Forall Decode.is_bit g').
Proof.
  intros Hg. eexists. split; [by apply mutate_spec|].
  split; [apply mutated_length|]. split.
  - intros i b Hb. rewrite (mutated_lookup _ _ _ _ _ _ Hb).
    destruct (Qltb _ _); [by right|by left].
  - apply mutated_bits.
Qed.

Lemma mutate_touches_one_array_witness :
  exists g',
    mutate (demo_config 1 0 (1 # 2) "") {| Genes := 1; Fitness := 2 |} demo_state
    = Ok (tt, st_after demo_state 4 (<[1 := g']> (mem demo_state)))
    /\ length g' = 4
    /\ (forall i b, [0; 1; 0; 0]%Z !! i = Some b ->
          g' !! i = Some b \/ g' !! i = Some (flip_bit b))
    /\ (Forall Decode.is_bit [0; 1; 0; 0]%Z -> Forall Decode.is_bit g').
Proof.
  exact (mutate_touches_one_array (demo_config 1 0 (1 # 2) "")
           {| Genes := 1; Fitness := 2 |} demo_state [0; 1; 0; 0]%Z eq_refl).
Defined.

(** X6. With [MutationProb = 1] mutating a bit vector twice restores it:
    after the two calls every array is as before and twice the length in
    draws is gone. *)
Theorem mutate_twice_restores config individual s g :
  mem s !! Genes individual = Some g ->
  Forall Decode.is_bit g ->
  (MutationProb config == 1)%Q ->
  (mutate config individual ;; mutate config individual) s
  = Ok (tt, st_after s (length g + length g) (mem s)).
Proof.
  intros Hg Hbits Hp.
  assert (Genes individual < length (mem s)) as Hlt by (by eapply lookup_lt_Some).
  rewrite (bind_ok _ _ _ _ _ (mutate_spec config individual s g Hg)).
  rewrite mutated_always by done.
  rewrite (mutate_spec config individual _ (flip_bit <$> g))
    by (simpl; by apply list_lookup_insert_eq).
  simpl mem. simpl rng. rewrite mutated_always by done.
  rewrite list_insert_insert_eq, length_fmap, st_after_after.
  rewrite <- list_fmap_compose.
  replace (flip_bit ∘ flip_bit <$> g) with g; [by rewrite list_insert_id|].
  rewrite <- (list_fmap_id g) at 1. apply Forall_fmap_ext_1.
  eapply Forall_impl; [exact Hbits|]. intros b Hb. simpl.
  by rewrite flip_bit_involutive.
Qed.

Lemma mutate_twice_restores_witness :
  (mutate (demo_config 1 0 1 "") {| Genes := 0; Fitness := 5 |} ;;
   mutate (demo_config 1 0 1 "") {| Genes := 0; Fitness := 5 |}) demo_state
  = Ok (tt, st_after demo_state (4 + 4) (mem demo_state)).
Proof.
  refine (mutate_twice_restores (demo_config 1 0 1 "")
            {| Genes := 0; Fitness := 5 |} demo_state [1; 0; 1; 0]%Z
            eq_refl _ _).
  - repeat constructor; (by left) || (by right).
  - reflexivity.
Defined.

Lemma bits_kept_refl L h : bits_kept L h h.
Proof. intros p g Hp Hg. eauto. Qed.

Lemma bits_kept_trans L h1 h2 h3 :
  bits_kept L h1 h2 -> bits_kept L h2 h3 -> bits_kept L h1 h3.
Proof.
  intros H12 H23 p g Hp Hg.
  destruct (H12 p g Hp Hg) as (g' & Hp' & Hg'). eauto.
Qed.

Lemma bits_kept_app L h l : bits_kept L h (h ++ l).
Proof. intros p g Hp Hg. exists g. split; [by apply lookup_app_l_Some|done]. Qed.

Lemma bits_kept_insert L h p g' :
  (forall g, h !! p = Some g -> bit_array L g -> bit_array L g') ->
  bits_kept L h (<[p := g']> h).
Proof.
  intros Hg' q x Hq Hx. destruct (decide (p = q)) as [->|Hne].
  - exists g'. split; [|by eapply Hg'].
    apply list_lookup_insert_eq. by eapply lookup_lt_Some.
  - exists x. by rewrite list_lookup_insert_ne.
Qed.

Lemma keeps_refl L s : keeps L s s.
Proof. repeat split. apply bits_kept_refl. Qed.

Lemma keeps_trans L s1 s2 s3 : keeps L s1 s2 -> keeps L s2 s3 -> keeps L s1 s3.
Proof.
  intros (P1 & B1 & T1 & M1) (P2 & B2 & T2 & M2).
  repeat split; try congruence. by eapply bits_kept_trans.
Qed.

Lemma keeps_same_mem L s s' : frame s s' -> mem s' = mem s -> keeps L s s'.
Proof.
  intros (P & B & T & _) M. repeat split; try done. rewrite M.
  apply bits_kept_refl.
Qed.

Lemma well_formed_kept L h h' x :
  bits_kept L h h' -> well_formed L h x -> well_formed L h' x.
Proof. intros Hk (g & Hg & Hb). destruct (Hk _ _ Hg Hb) as (g' & ? & ?). by exists g'. Qed.

Lemma Forall_well_formed_kept L h h' l :
  bits_kept L h h' -> Forall (well_formed L h) l -> Forall (well_formed L h') l.
Proof.
  intros Hk H. eapply Forall_impl; [done|]. intros x. by apply well_formed_kept.
Qed.

Lemma well_formed_Genes L h x y :
  Genes x = Genes y -> well_formed L h x -> well_formed L h y.
Proof. unfold well_formed. by intros ->. Qed.

Lemma wp_crossover_bits Q config L s parent1 parent2 :
  1 <= L -> well_formed L (mem s) parent1 -> well_formed L (mem s) parent2 ->
  (forall c1 c2 s', keeps L s s' -> well_formed L (mem s') c1 ->
     well_formed L (mem s') c2 -> Q (c1, c2) s') ->
  wp (crossover config parent1 parent2) Q s.
Proof.
  intros HL (g1 & H1 & L1 & B1) (g2 & H2 & L2 & B2) HQ.
  destruct (crossover_spec config parent1 parent2 s g1 g2 H1 H2
              ltac:(congruence) ltac:(lia))
    as (k & h1 & h2 & Hrun & Hrec).
  destruct (recombined_bits g1 g2 h1 h2 ltac:(congruence) Hrec B1 B2)
    as (C1 & C2).
  destruct Hrec as (M1 & M2 & _).
  apply wp_ok. eexists _, _. split; [exact Hrun|]. apply HQ.
  - repeat split. simpl. apply bits_kept_app.
  - exists h1. split; [apply lookup_child1|]. split; [lia|done].
  - exists h2. split; [apply lookup_child2|]. split; [lia|done].
Qed.

Lemma wp_mutate_bits Q config L s individual :
  well_formed L (mem s) individual ->
  (forall s', keeps L s s' -> Q tt s') ->
  wp (mutate config individual) Q s.
Proof.
  intros (g & Hg & Hl & Hb) HQ. apply wp_ok. eexists _, _. split.
  { by apply (mutate_spec _ _ _ g). }
  apply HQ. repeat split. simpl. apply bits_kept_insert.
  intros g0 Hg0 _. rewrite Hg in Hg0. inversion Hg0; subst g0.
  split; [by rewrite mutated_length|by apply mutated_bits].
Qed.

Lemma wp_evaluate_bits Q config L s individual :
  well_formed L (mem s) individual ->
  (forall fit, Q fit s) -> wp (evaluate config (Genes individual)) Q s.
Proof.
  intros (g & Hg & _) HQ. unfold wp. rewrite (evaluate_eq config s _ g Hg).
  apply HQ.
Qed.

Lemma wp_reproduce_bits config L room :
  forall newPopulation s (Q : list Individual -> GeneticAlgorithm -> Prop),
  1 <= L -> population s ≠ [] ->
  Forall (well_formed L (mem s)) (population s) ->
  Forall (well_formed L (mem s)) newPopulation ->
  (forall np s', keeps L s s' -> length np = length newPopulation + room ->
     newPopulation `prefix_of` np -> Forall (well_formed L (mem s')) np ->
     Q np s') ->
  wp (reproduce config room newPopulation) Q s.
Proof.
  induction room as [room IH] using lt_wf_ind.
  intros newPopulation s Q HL Hne Hpop Hnew HQ.
  destruct room as [|room']; simpl.
  { apply wp_ret, HQ; [apply keeps_refl|lia|done|done]. }
  apply wp_bind, wp_tournamentSelection; [done|]. intros p1 s1 Hp1 F1 M1.
  apply wp_bind, wp_tournamentSelection; [by eapply frame_population_ne|].
  intros p2 s2 Hp2 F2 M2.
  apply wp_bind, wp_Float64_frame. intros d s3 F3 M3.
  assert (keeps L s s3) as K03.
  { apply keeps_same_mem; [eauto using frame_trans|congruence]. }
  assert (mem s3 = mem s) as M03 by congruence.
  assert (well_formed L (mem s3) p1) as V1.
  { rewrite M03. rewrite Forall_forall in Hpop. by apply Hpop. }
  assert (well_formed L (mem s3) p2) as V2.
  { rewrite M03. rewrite Forall_forall in Hpop. apply Hpop.
    destruct F1 as (<- & _). done. }
  apply wp_bind.
  apply (wp_mono _ (fun cc s4 => keeps L s3 s4 /\ well_formed L (mem s4) cc.1
                                 /\ well_formed L (mem s4) cc.2)).
  { destruct (Qltb d _).
    - apply (wp_crossover_bits _ _ L); [done..|]. intros c1 c2 s4 F4 W1 W2. done.
    - apply wp_ret. split; [apply keeps_refl|done]. }
  intros [c1 c2] s4 (K4 & W1 & W2). simpl in W1, W2.
  apply wp_bind, (wp_mutate_bits _ _ L); [done|]. intros s5 K5.
  apply wp_bind, (wp_mutate_bits _ _ L).
  { destruct K5 as (_ & _ & _ & K5). by eapply well_formed_kept. }
  intros s6 K6.
  assert (keeps L s s6) as K06 by (eauto using keeps_trans).
  destruct K06 as (P6 & B6 & T6 & S6).
  assert (bits_kept L (mem s4) (mem s6)) as S46.
  { destruct K5 as (_ & _ & _ & ?), K6 as (_ & _ & _ & ?).
    by eapply bits_kept_trans. }
  assert (well_formed L (mem s6) c1) as Y1 by (by eapply well_formed_kept).
  assert (well_formed L (mem s6) c2) as Y2 by (by eapply well_formed_kept).
  apply wp_bind, (wp_evaluate_bits _ _ L); [done|]. intros fit1.
  apply wp_bind, (wp_evaluate_bits _ _ L); [done|]. intros fit2.
  assert (well_formed L (mem s6) {| Genes := Genes c1; Fitness := fit1 |}) as X1
    by (by eapply well_formed_Genes; [|exact Y1]).
  assert (well_formed L (mem s6) {| Genes := Genes c2; Fitness := fit2 |}) as X2
    by (by eapply well_formed_Genes; [|exact Y2]).
  assert (Forall (well_formed L (mem s6)) newPopulation) as Hnew6
    by exact (Forall_well_formed_kept L _ _ _ S6 Hnew).
  destruct room' as [|room''].
  - apply wp_ret, HQ; [done| |by apply prefix_app_r|].
    + rewrite length_app. simpl. lia.
    + apply Forall_app. split; [done|]. by apply Forall_singleton.
  - apply (IH room''); [lia|done|congruence| | |].
    + rewrite P6. exact (Forall_well_formed_kept L _ _ _ S6 Hpop).
    + rewrite !Forall_app. repeat split; [done|by apply Forall_singleton..].
    + intros np s' K' Hlen Hpre Hval. apply HQ.
      * eapply keeps_trans; [|exact K']. done.
      * rewrite !length_app in Hlen. simpl in Hlen. lia.
      * etrans; [|exact Hpre]. rewrite <- app_assoc. by apply prefix_app_r.
      * done.
Qed.

Section Generations.

Variable sort_slice :
  (Individual -> Individual -> bool) -> list Individual -> list Individual.
Hypothesis sort_perm : sort_permutes sort_slice.

Lemma wp_generation_bits config s (Q : unit -> GeneticAlgorithm -> Prop) N L :
  N = Z.to_nat (PopulationSize config) -> L = Z.to_nat (BitsPerGene config) ->
  1 <= N -> 1 <= L ->
  length (population s) = N ->
  Forall (well_formed L (mem s)) (population s) ->
  (forall s' top rest,
     sort_slice by_fitness (population s) = top :: rest ->
     bestFitness s' = bestFitness s ++ [Fitness top] ->
     tape (rng s') = tape (rng s) ->
     length (population s') = N ->
     Forall (well_formed L (mem s')) (population s') ->
     take (Z.to_nat (ElitismCount config)) (top :: rest)
       `prefix_of` population s' ->
     bits_kept L (mem s) (mem s') ->
     Q tt s') ->
  wp (generation sort_slice config) Q s.
Proof.
  intros HeqN HeqL HN HL Hlen Hval HQ. unfold generation.
  pose proof (sort_perm by_fitness (population s)) as Hperm.
  destruct (sort_slice by_fitness (population s)) as [|top rest] eqn:Hsort.
  { apply Permutation_length in Hperm. simpl in Hperm. lia. }
  apply wp_bind, wp_get. rewrite Hsort.
  apply wp_bind, wp_set_population.
  apply wp_bind. unfold population_at. apply wp_bind, wp_get. simpl.
  apply wp_ret. apply wp_bind, wp_get. simpl.
  apply wp_bind, wp_set_bestFitness.
  apply wp_bind.
  destruct (Z.ltb_spec (PopulationSize config) 0); [exfalso; lia|].
  apply wp_ret. apply wp_bind, wp_get. simpl.
  set (elite := take (Z.to_nat (ElitismCount config)) (top :: rest)).
  assert (length (top :: rest) = N) as Hlen'.
  { rewrite <- Hlen. by apply Permutation_length. }
  assert (Forall (well_formed L (mem s)) (top :: rest)) as Hval'.
  { by rewrite Hperm. }
  apply wp_bind.
  apply (wp_reproduce_bits _ L); simpl; [done|done|done| |].
  { by apply Forall_take. }
  intros np s' (P' & B' & T' & S') Hnp Hpre Hnpv. simpl in *.
  apply wp_set_population. apply (HQ _ top rest); simpl; try done.
  assert (length elite <= N) as He.
  { unfold elite. rewrite length_take. simpl in *. lia. }
  lia.
Qed.

End Generations.

Section MoreRuns.

Variable sort_slice :
  (Individual -> Individual -> bool) -> list Individual -> list Individual.
Hypothesis sort_perm : sort_permutes sort_slice.

(** X7. A generation keeps the population at [PopulationSize]
    individuals of [BitsPerGene] bits each, and the next population begins
    with the [ElitismCount] fittest of the sorted current one, as struct
    copies (the same array, the same [Fitness]); an array of
    [BitsPerGene] bits remains one. *)
Theorem generation_keeps_shape_and_elites config s :
  (1 <= PopulationSize config)%Z -> (1 <= BitsPerGene config)%Z ->
  length (population s) = Z.to_nat (PopulationSize config) ->
  Forall (well_formed (Z.to_nat (BitsPerGene config)) (mem s)) (population s) ->
  exists s' top rest,
    generation sort_slice config s = Ok (tt, s')
    /\ sort_slice by_fitness (population s) = top :: rest
    /\ length (population s') = Z.to_nat (PopulationSize config)
    /\ Forall (well_formed (Z.to_nat (BitsPerGene config)) (mem s'))
         (population s')
    /\ take (Z.to_nat (ElitismCount config)) (top :: rest)
         `prefix_of` population s'
    /\ bits_kept (Z.to_nat (BitsPerGene config)) (mem s) (mem s').
Proof.
  intros HN HL Hlen Hval.
  assert (wp (generation sort_slice config) (fun _ s' => exists top rest,
    sort_slice by_fitness (population s) = top :: rest
    /\ length (population s') = Z.to_nat (PopulationSize config)
    /\ Forall (well_formed (Z.to_nat (BitsPerGene config)) (mem s'))
         (population s')
    /\ take (Z.to_nat (ElitismCount config)) (top :: rest)
         `prefix_of` population s'
    /\ bits_kept (Z.to_nat (BitsPerGene config)) (mem s) (mem s')) s) as H.
  { eapply (wp_generation_bits sort_slice sort_perm);
      [reflexivity|reflexivity|lia|lia|done|done|].
    intros s' top rest Hsort _ _ Len V Hpre Hk. by exists top, rest. }
  apply wp_ok in H as ([] & s' & Hgen & top & rest & H).
  by exists s', top, rest.
Qed.

(** A generation that keeps everybody. *)
Lemma generation_all_elite config s top rest :
  (1 <= PopulationSize config)%Z ->
  (PopulationSize config <= ElitismCount config)%Z ->
  length (population s) = Z.to_nat (PopulationSize config) ->
  sort_slice by_fitness (population s) = top :: rest ->
  generation sort_slice config s
  = Ok (tt, {| population := top :: rest;
               bestFitness := bestFitness s ++ [Fitness top];
               rng := rng s; mem := mem s |}).
Proof.
  intros HN HE Hlen Hsort.
  assert (length (top :: rest) = length (population s)) as Hl.
  { rewrite <- Hsort. apply Permutation_length, sort_perm. }
  match goal with |- _ = Ok (tt, ?t) =>
    assert (wp (generation sort_slice config) (fun _ s' => s' = t) s) as H end.
  { unfold generation.
    apply wp_bind, wp_get. rewrite Hsort.
    apply wp_bind, wp_set_population.
    apply wp_bind. unfold population_at. apply wp_bind, wp_get. simpl.
    apply wp_ret. apply wp_bind, wp_get. simpl.
    apply wp_bind, wp_set_bestFitness.
    apply wp_bind.
    destruct (Z.ltb_spec (PopulationSize config) 0) as [Hneg|_];
      [exfalso; lia|].
    apply wp_ret. apply wp_bind, wp_get. simpl population.
    rewrite take_ge by lia.
    replace (Z.to_nat (PopulationSize config) - length (top :: rest)) with 0
      by lia.
    apply wp_bind, wp_ret. apply wp_set_population. reflexivity. }
  apply wp_ok in H as ([] & s' & Hgen & ->). exact Hgen.
Qed.

(** X8. When [ElitismCount] reaches [PopulationSize] the elite loop stops
    at the end of the population (the count is clamped) and nothing is
    bred: a generation only sorts the population and records the fitness
    at its head; it draws no random number and touches no array. *)
Theorem generation_of_elites_only config s :
  (1 <= PopulationSize config)%Z ->
  (PopulationSize config <= ElitismCount config)%Z ->
  length (population s) = Z.to_nat (PopulationSize config) ->
  exists top rest,
    sort_slice by_fitness (population s) = top :: rest
    /\ generation sort_slice config s
       = Ok (tt, {| population := top :: rest;
                    bestFitness := bestFitness s ++ [Fitness top];
                    rng := rng s; mem := mem s |}).
Proof.
  intros HN HE Hlen.
  pose proof (sort_perm by_fitness (population s)) as Hperm.
  destruct (sort_slice by_fitness (population s)) as [|top rest] eqn:Hsort.
  { apply Permutation_length in Hperm. simpl in Hperm. lia. }
  exists top, rest. split; [done|]. by apply generation_all_elite.
Qed.

(** [Run], keeping track of the bits and of what the history records. *)
Lemma wp_Run_bits config s (Q : Individual * list Q -> GeneticAlgorithm -> Prop)
    N L :
  N = Z.to_nat (PopulationSize config) -> L = Z.to_nat (BitsPerGene config) ->
  1 <= N -> 1 <= L ->
  (forall top hs s',
     bestFitness s' = bestFitness s ++ hs ->
     length hs = Z.to_nat (MaxGenerations config) ->
     length (population s') = N ->
     head (population s') = Some top ->
     Forall (well_formed L (mem s')) (population s') ->
     (sort_orders sort_slice -> (1 <= ElitismCount config)%Z ->
        forall a, a ∈ hs -> (a <= Fitness top)%Q) ->
     Q (top, bestFitness s') s') ->
  wp (Run sort_slice config) Q s.
Proof.
  intros HeqN HeqL HN HL HQ. unfold Run.
  apply wp_bind.
  eapply wp_mono; [apply (wp_Initialize_fresh config s); lia|].
  cbv zeta. rewrite <- HeqN, <- HeqL.
  intros [] s0 (Len0 & Inds0 & _ & _ & B0 & _).
  assert (Forall (well_formed L (mem s0)) (population s0)) as V0.
  { apply Forall_lookup. intros k x Hk. by destruct (Inds0 k x Hk) as (_ & ? & _). }
  apply wp_bind. eapply wp_mono.
  - apply (wp_for_range (fun i s' =>
      length (population s') = N /\
      Forall (well_formed L (mem s')) (population s') /\
      exists hs, bestFitness s' = bestFitness s ++ hs /\ length hs = i /\
        (sort_orders sort_slice -> (1 <= ElitismCount config)%Z ->
           forall a, a ∈ hs ->
             exists x, x ∈ population s' /\ (a <= Fitness x)%Q))).
    + split; [done|]. split; [done|]. exists []. rewrite app_nil_r.
      split; [done|]. split; [done|]. intros _ _ a Ha.
      by apply elem_of_nil in Ha.
    + intros i s1 _ (Len1 & V1 & hs & B1 & Lhs & K1).
      apply (wp_generation_bits sort_slice sort_perm config s1 _ N L);
        [done..|].
      intros s2 top rest Hsort B2 T2 Len2 V2 Hpre _.
      split; [done|]. split; [done|]. exists (hs ++ [Fitness top]).
      rewrite B2, B1, <- app_assoc. split; [done|].
      split; [rewrite length_app; simpl; lia|].
      intros Hso HE a Ha.
      assert (top ∈ population s2) as Htop.
      { destruct (Z.to_nat (ElitismCount config)) as [|e] eqn:He; [lia|].
        simpl in Hpre. destruct Hpre as (k & ->). left. }
      exists top. split; [done|].
      apply elem_of_app in Ha as [Ha|Ha].
      * destruct (K1 Hso HE a Ha) as (x & Hx & Hle).
        eapply Qle_trans; [exact Hle|].
        by eapply (sorted_head_max sort_slice sort_perm).
      * apply list_elem_of_singleton in Ha as ->. apply Qle_refl.
  - intros [] s1 (Len1 & V1 & hs & B1 & Lhs & K1). simpl in Lhs.
    apply wp_bind, wp_get. cbv beta.
    pose proof (sort_perm by_fitness (population s1)) as Hperm.
    destruct (sort_slice by_fitness (population s1)) as [|top rest] eqn:Hsort.
    { apply Permutation_length in Hperm. simpl in Hperm. lia. }
    apply wp_bind, wp_set_population.
    apply wp_bind. unfold population_at. apply wp_bind, wp_get. simpl.
    apply wp_ret. apply wp_bind, wp_get. simpl. apply wp_ret.
    match goal with |- Q _ ?st => apply (HQ top hs st); simpl; try done end.
    + rewrite <- Len1. by apply (Permutation_length Hperm).
    + by rewrite Hperm.
    + intros Hso HE a Ha. destruct (K1 Hso HE a Ha) as (x & Hx & Hle).
      eapply Qle_trans; [exact Hle|].
      by eapply (sorted_head_max sort_slice sort_perm).
Qed.

(** X9. Whatever state the engine is in, [Run] starts from a new
    population of [PopulationSize] individuals and ends with as many, each
    on an array of [BitsPerGene] bits; the individual returned is the
    first of that final population, hence one of them; and when
    [sort.Slice] orders and an elite is kept, no entry this run adds to
    the history exceeds the fitness of the individual returned. *)
Theorem Run_keeps_bits_and_dominates_history config s :
  (1 <= PopulationSize config)%Z -> (1 <= BitsPerGene config)%Z ->
  exists best hist s' new,
    Run sort_slice config s = Ok ((best, hist), s')
    /\ hist = bestFitness s ++ new
    /\ length (population s') = Z.to_nat (PopulationSize config)
    /\ Forall (well_formed (Z.to_nat (BitsPerGene config)) (mem s'))
         (population s')
    /\ head (population s') = Some best
    /\ best ∈ population s'
    /\ well_formed (Z.to_nat (BitsPerGene config)) (mem s') best
    /\ (sort_orders sort_slice -> (1 <= ElitismCount config)%Z ->
        forall a, a ∈ new -> (a <= Fitness best)%Q).
Proof.
  intros HN HL.
  assert (wp (Run sort_slice config) (fun r s' => exists new,
    r.2 = bestFitness s ++ new
    /\ length (population s') = Z.to_nat (PopulationSize config)
    /\ Forall (well_formed (Z.to_nat (BitsPerGene config)) (mem s'))
         (population s')
    /\ head (population s') = Some r.1
    /\ r.1 ∈ population s'
    /\ well_formed (Z.to_nat (BitsPerGene config)) (mem s') r.1
    /\ (sort_orders sort_slice -> (1 <= ElitismCount config)%Z ->
        forall a, a ∈ new -> (a <= Fitness r.1)%Q)) s) as H.
  { eapply wp_Run_bits; [reflexivity|reflexivity|lia|lia|].
    intros top hs s' B _ Len Hd V K. exists hs. simpl.
    assert (top ∈ population s') as Hin.
    { destruct (population s') as [|x l]; simpl in Hd; [done|].
      inversion Hd; subst. left. }
    split; [done|]. split; [done|]. split; [done|]. split; [done|].
    split; [done|]. split; [|done].
    rewrite Forall_forall in V. by apply V. }
  apply wp_ok in H as ([best hist] & s' & HRun & new & H). simpl in H.
  by exists best, hist, s', new.
Qed.

(** X10. [Run] does not reset the history: the history it returns is the
    one the engine held, followed by [MaxGenerations] new entries (none
    when [MaxGenerations] is negative), and [GetBestFitnessHistory]
    returns that same history afterwards.  A second [Run] on one engine
    therefore returns the first run's history with its own appended. *)
Theorem Run_appends_to_history config s :
  (1 <= PopulationSize config)%Z -> (1 <= BitsPerGene config)%Z ->
  exists best hist s' new,
    Run sort_slice config s = Ok ((best, hist), s')
    /\ hist = bestFitness s ++ new
    /\ length new = Z.to_nat (MaxGenerations config)
    /\ GetBestFitnessHistory s' = Ok (hist, s').
Proof.
  intros HN HL.
  assert (wp (Run sort_slice config) (fun r s' => exists new,
    r.2 = bestFitness s ++ new
    /\ length new = Z.to_nat (MaxGenerations config)
    /\ bestFitness s' = r.2) s) as H.
  { apply (wp_Run sort_slice sort_perm); [lia|lia|].
    intros top hs s' l B Lhs _ _ _ _ _. exists hs. by simpl. }
  apply wp_ok in H as ([best hist] & s' & HRun & new & Hh & Hl & Hb).
  simpl in Hh, Hb. exists best, hist, s', new.
  split; [done|]. split; [done|]. split; [done|].
  unfold GetBestFitnessHistory, mbind, M_bind, get. simpl. by rewrite Hb.
Qed.

(** X11. With [ElitismCount >= PopulationSize] the whole run after
    [Initialize] is sorting: the arrays and the cursor of the random source
    stay as [Initialize] left them, the final population is the initial
    one in another order, and, [sort.Slice] ordering, every entry the run
    adds to the history equals the fitness of the individual returned. *)
Theorem Run_of_elites_only config s :
  sort_orders sort_slice ->
  (1 <= PopulationSize config)%Z ->
  (PopulationSize config <= ElitismCount config)%Z ->
  (0 <= BitsPerGene config)%Z ->
  exists best hist s' s0 new,
    Initialize config s = Ok (tt, s0)
    /\ Run sort_slice config s = Ok ((best, hist), s')
    /\ hist = bestFitness s ++ new
    /\ length new = Z.to_nat (MaxGenerations config)
    /\ (forall a, a ∈ new -> (a == Fitness best)%Q)
    /\ mem s' = mem s0 /\ rng s' = rng s0
    /\ population s' ≡ₚ population s0.
Proof.
  intros Hso HN HE HL.
  pose proof (wp_Initialize_fresh config s ltac:(lia) HL) as Hinit.
  cbv zeta in Hinit.
  apply wp_ok in Hinit as ([] & s0 & Hinit & Len0 & _ & _ & _ & B0 & _).
  assert (wp (Run sort_slice config) (fun r s' => exists new,
    r.2 = bestFitness s ++ new
    /\ length new = Z.to_nat (MaxGenerations config)
    /\ (forall a, a ∈ new -> (a == Fitness r.1)%Q)
    /\ mem s' = mem s0 /\ rng s' = rng s0
    /\ population s' ≡ₚ population s0) s) as H.
  { unfold Run. apply wp_bind. unfold wp at 1. rewrite Hinit.
    apply wp_bind. eapply wp_mono.
    - apply (wp_for_range (fun i s1 =>
        population s1 ≡ₚ population s0 /\ mem s1 = mem s0 /\ rng s1 = rng s0 /\
        exists hs, bestFitness s1 = bestFitness s ++ hs /\ length hs = i /\
          forall a, a ∈ hs ->
            exists x, x ∈ population s0 /\ a = Fitness x /\
              forall y, y ∈ population s0 -> (Fitness y <= a)%Q)).
      + split; [done|]. split; [done|]. split; [done|]. exists [].
        rewrite app_nil_r. split; [done|]. split; [done|].
        intros a Ha. by apply elem_of_nil in Ha.
      + intros i s1 _ (P1 & M1 & R1 & hs & B1 & Lhs & K1).
        assert (length (population s1) = Z.to_nat (PopulationSize config))
          as Len1 by (by rewrite (Permutation_length P1)).
        pose proof (sort_perm by_fitness (population s1)) as Hperm.
        destruct (sort_slice by_fitness (population s1)) as [|top rest]
          eqn:Hsort.
        { apply Permutation_length in Hperm. simpl in Hperm. lia. }
        unfold wp.
        rewrite (generation_all_elite config s1 top rest HN HE Len1 Hsort).
        simpl. split; [by rewrite Hperm|]. split; [done|]. split; [done|].
        exists (hs ++ [Fitness top]). rewrite B1, <- app_assoc.
        split; [done|]. split; [rewrite length_app; simpl; lia|].
        intros a Ha. apply elem_of_app in Ha as [Ha|Ha]; [by apply K1|].
        apply list_elem_of_singleton in Ha as ->. exists top.
        split; [rewrite <- P1, <- Hperm; left|]. split; [done|].
        intros y Hy.
        apply (sorted_head_max sort_slice sort_perm (population s1) top rest y
                 Hso Hsort).
        by rewrite P1.
    - intros [] s1 (P1 & M1 & R1 & hs & B1 & Lhs & K1). simpl in Lhs.
      apply wp_bind, wp_get. cbv beta.
      pose proof (sort_perm by_fitness (population s1)) as Hperm.
      destruct (sort_slice by_fitness (population s1)) as [|top rest] eqn:Hsort.
      { apply Permutation_length in Hperm. rewrite (Permutation_length P1) in Hperm.
        simpl in Hperm. lia. }
      apply wp_bind, wp_set_population.
      apply wp_bind. unfold population_at. apply wp_bind, wp_get. simpl.
      apply wp_ret. apply wp_bind, wp_get. simpl. apply wp_ret.
      exists hs. simpl. split; [done|]. split; [done|].
      split; [|split; [done|split; [done|by rewrite Hperm]]].
      intros a Ha. destruct (K1 a Ha) as (x & Hx & -> & Hmax).
      apply Qle_antisym.
      + apply (sorted_head_max sort_slice sort_perm (population s1) top rest x
                 Hso Hsort). by rewrite P1.
      + apply Hmax. rewrite <- P1, <- Hperm. left. }
  apply wp_ok in H as ([best hist] & s' & HRun & new & H). simpl in H.
  exists best, hist, s', s0, new. split; [done|]. split; [done|]. exact H.
Qed.

End MoreRuns.

Lemma demo_state_well_formed :
  Forall (well_formed 4 (mem demo_state)) (population demo_state).
Proof.
  repeat constructor.
  - exists [1; 0; 1; 0]%Z. split; [done|]. split; [done|].
    repeat constructor; (by left) || (by right).
  - exists [0; 1; 0; 0]%Z. split; [done|]. split; [done|].
    repeat constructor; (by left) || (by right).
Qed.

Lemma Initialize_fresh_population_witness :
  exists s',
    Initialize (pair_config 1) demo_state = Ok (tt, s')
    /\ length (population s') = 2
    /\ (forall k individual, population s' !! k = Some individual ->
          Genes individual = 2 + k
          /\ well_formed 4 (mem s') individual
          /\ fresh_fitness (pair_config 1) (mem s') individual)
    /\ length (mem s') = 2 + 2
    /\ (forall q, q < 2 -> mem s' !! q = mem demo_state !! q)
    /\ bestFitness s' = bestFitness demo_state
    /\ tape (rng s') = tape (rng demo_state)
    /\ pos (rng s') = 2 * 4 + pos (rng demo_state).
Proof.
  refine (Initialize_fresh_population (pair_config 1) demo_state _ _);
    cbn; lia.
Defined.

Lemma generation_keeps_shape_and_elites_witness :
  exists s' top rest,
    generation insertionSort (pair_config 1) demo_state = Ok (tt, s')
    /\ insertionSort by_fitness (population demo_state) = top :: rest
    /\ length (population s') = 2
    /\ Forall (well_formed 4 (mem s')) (population s')
    /\ take 1 (top :: rest) `prefix_of` population s'
    /\ bits_kept 4 (mem demo_state) (mem s').
Proof.
  refine (generation_keeps_shape_and_elites insertionSort insertionSort_perm
            (pair_config 1) demo_state _ _ eq_refl demo_state_well_formed);
    cbn; lia.
Defined.

Lemma generation_of_elites_only_witness :
  exists top rest,
    insertionSort by_fitness (population demo_state) = top :: rest
    /\ generation insertionSort (pair_config 5) demo_state
       = Ok (tt, {| population := top :: rest;
                    bestFitness := bestFitness demo_state ++ [Fitness top];
                    rng := rng demo_state; mem := mem demo_state |}).
Proof.
  refine (generation_of_elites_only insertionSort insertionSort_perm
            (pair_config 5) demo_state _ _ eq_refl); cbn; lia.
Defined.

Lemma Run_keeps_bits_and_dominates_history_witness :
  exists best hist s' new,
    Run insertionSort (pair_config 1) demo_state = Ok ((best, hist), s')
    /\ hist = bestFitness demo_state ++ new
    /\ length (population s') = 2
    /\ Forall (well_formed 4 (mem s')) (population s')
    /\ head (population s') = Some best
    /\ best ∈ population s'
    /\ well_formed 4 (mem s') best
    /\ (sort_orders insertionSort -> (1 <= 1)%Z ->
        forall a, a ∈ new -> (a <= Fitness best)%Q).
Proof.
  refine (Run_keeps_bits_and_dominates_history insertionSort
            insertionSort_perm (pair_config 1) demo_state _ _); cbn; lia.
Defined.

Lemma Run_appends_to_history_witness :
  exists best hist s' new,
    Run insertionSort (pair_config 1) demo_state = Ok ((best, hist), s')
    /\ hist = bestFitness demo_state ++ new
    /\ length new = 2
    /\ GetBestFitnessHistory s' = Ok (hist, s').
Proof.
  refine (Run_appends_to_history insertionSort insertionSort_perm
            (pair_config 1) demo_state _ _); cbn; lia.
Defined.

Lemma Run_of_elites_only_witness :
  exists best hist s' s0 new,
    Initialize (pair_config 2) demo_state = Ok (tt, s0)
    /\ Run insertionSort (pair_config 2) demo_state = Ok ((best, hist), s')
    /\ hist = bestFitness demo_state ++ new
    /\ length new = 2
    /\ (forall a, a ∈ new -> (a == Fitness best)%Q)
    /\ mem s' = mem s0 /\ rng s' = rng s0
    /\ population s' ≡ₚ population s0.
Proof.
  refine (Run_of_elites_only insertionSort insertionSort_perm
            (pair_config 2) demo_state insertionSort_orders _ _ _); cbn; lia.
Defined.

(* ===================================================================== *)
(** * [StdDev] and the experiment runner                                 *)
(* ===================================================================== *)

(** X16. [StdDev] of no values divides 0 by 0: the result is NaN, whatever
    the mean. *)
Theorem StdDev_of_nothing Pow mean : StdDev Pow [] mean = nan.
Proof. reflexivity. Qed.

Module RunnerFacts.
Import Runner.

Lemma bind_length {A B} (f : A -> list B) (l : list A) n :
  (forall x, x ∈ l -> length (f x) = n) -> length (l ≫= f) = length l * n.
Proof.
  induction l as [|a l IH]; intros Hf; [done|].
  rewrite bind_cons, length_app, Hf by left. rewrite IH; [simpl; lia|].
  intros x Hx. apply Hf. by right.
Qed.

(** X17. [generateConfigs] returns one configuration for every choice of
    one value from each of the six lists: as many as the product of the
    six lengths (none when a list is empty), and a configuration is
    generated exactly when each of its fields is in its list. *)
Theorem generateConfigs_is_the_product paramGrid :
  length (generateConfigs paramGrid)
  = length (PopulationSizes paramGrid) * (length (MaxGenerationsGrid paramGrid)
    * (length (CrossoverProbs paramGrid) * (length (MutationProbs paramGrid)
    * (length (CrossoverTypes paramGrid) * length (ElitismCounts paramGrid)))))
  /\ forall c,
       c ∈ generateConfigs paramGrid <->
       PopulationSize c ∈ PopulationSizes paramGrid
       /\ MaxGenerations c ∈ MaxGenerationsGrid paramGrid
       /\ CrossoverProb c ∈ CrossoverProbs paramGrid
       /\ MutationProb c ∈ MutationProbs paramGrid
       /\ CrossoverType c ∈ CrossoverTypes paramGrid
       /\ ElitismCount c ∈ ElitismCounts paramGrid.
Proof.
  split.
  - unfold generateConfigs.
    repeat (apply bind_length; intros ? _).
    rewrite (bind_length _ _ 1); [lia|done].
  - intros c. unfold generateConfigs. split.
    + intros H.
      apply list_elem_of_bind in H as (a1 & H & H1).
      apply list_elem_of_bind in H as (a2 & H & H2).
      apply list_elem_of_bind in H as (a3 & H & H3).
      apply list_elem_of_bind in H as (a4 & H & H4).
      apply list_elem_of_bind in H as (a5 & H & H5).
      apply list_elem_of_bind in H as (a6 & H & H6).
      apply list_elem_of_singleton in H as ->. simpl. done.
    + intros (H1 & H2 & H3 & H4 & H5 & H6).
      apply list_elem_of_bind. eexists. split; [|exact H1].
      apply list_elem_of_bind. eexists. split; [|exact H2].
      apply list_elem_of_bind. eexists. split; [|exact H3].
      apply list_elem_of_bind. eexists. split; [|exact H4].
      apply list_elem_of_bind. eexists. split; [|exact H5].
      apply list_elem_of_bind. eexists. split; [|exact H6].
      destruct c. simpl. left.
Qed.

Lemma max_loop_spec (l : list Q) : forall m,
  let r := fold_left (fun maxVal val => if Qltb maxVal val then val else maxVal)
             l m in
  (r = m \/ r ∈ l) /\ (m <= r)%Q /\ forall v, v ∈ l -> (v <= r)%Q.
Proof.
  induction l as [|a l IH]; intros m; simpl.
  - split; [by left|]. split; [apply Qle_refl|]. intros v Hv.
    by apply elem_of_nil in Hv.
  - destruct (Qltb m a) eqn:E.
    + apply Qltb_lt in E. destruct (IH a) as (Hin & Hle & Hall).
      split; [right; destruct Hin as [-> | Hin]; [left|by right]|].
      split; [eapply Qle_trans; [apply Qlt_le_weak, E|done]|].
      intros v Hv. apply elem_of_cons in Hv as [-> | Hv]; [done|by apply Hall].
    + apply Qltb_ge in E. destruct (IH m) as (Hin & Hle & Hall).
      split; [destruct Hin as [-> | Hin]; [by left|right; by right]|].
      split; [done|].
      intros v Hv. apply elem_of_cons in Hv as [-> | Hv]; [|by apply Hall].
      by eapply Qle_trans.
Qed.

Lemma runLinearSearchArray_spec arrayData elapsed r :
  runLinearSearchArray arrayData elapsed = Ok r ->
  TaskName r = "array_search" /\ BestValue r ∈ arrayData
  /\ forall v, v ∈ arrayData -> (v <= BestValue r)%Q.
Proof.
  destruct arrayData as [|first rest]; [done|]. intros Hr.
  unfold runLinearSearchArray in Hr. inversion Hr; subst r; clear Hr.
  cbn [TaskName BestValue]. split; [done|].
  pose proof (max_loop_spec (first :: rest) first) as (Hin & _ & Hall).
  cbv zeta in Hin, Hall. simpl in Hin, Hall. simpl.
  split; [|exact Hall]. destruct Hin as [Heq | Hin]; [rewrite Heq; left|done].
Qed.

(** X18. On a non-empty array [runLinearSearchArray] returns, under the
    task name ["array_search"], a value of the array that no value of the
    array exceeds; on an empty array it panics at [arrayData[0]]. *)
Theorem linear_search_finds_the_maximum arrayData elapsed :
  (arrayData ≠ [] ->
   exists r, runLinearSearchArray arrayData elapsed = Ok r
     /\ TaskName r = "array_search"
     /\ BestValue r ∈ arrayData
     /\ forall v, v ∈ arrayData -> (v <= BestValue r)%Q)
  /\ (arrayData = [] ->
      runLinearSearchArray arrayData elapsed = Panic "index out of range").
Proof.
  split; [|by intros ->].
  intros Hne. destruct arrayData as [|first rest] eqn:E; [done|].
  eexists. split; [reflexivity|]. by apply (runLinearSearchArray_spec _ elapsed).
Qed.

(** X19. For genes of at most 63 bytes, any bytes, and a non-empty array
    the fitness closure of the array task never panics: it returns the
    element at index [BytesToInt genes mod len(arrayData)]; over an empty
    array it panics with a division by zero. *)
Theorem arrayFitnessFunc_in_range arrayData genes :
  ((length genes <= 63)%nat -> arrayData ≠ [] ->
   exists v, arrayFitnessFunc arrayData genes = Ok v
     /\ arrayData !! Z.to_nat (Decode.BytesToInt genes
                               mod Z.of_nat (length arrayData)) = Some v)
  /\ (arrayData = [] ->
      arrayFitnessFunc arrayData genes = Panic "integer divide by zero").
Proof.
  split; [|by intros ->].
  intros Hlen Hne. unfold arrayFitnessFunc.
  assert (0 < length arrayData) as Hpos
    by (destruct arrayData; [done|simpl; lia]).
  rewrite decide_False by lia.
  pose proof (DecodeFacts.BytesToInt_range genes Hlen) as [Hge _].
  rewrite Z.rem_mod_nonneg by lia.
  pose proof (Z.mod_pos_bound (Decode.BytesToInt genes)
                (Z.of_nat (length arrayData)) ltac:(lia)) as Hb.
  destruct (Z.ltb_spec (Decode.BytesToInt genes mod Z.of_nat (length arrayData)) 0);
    [lia|].
  destruct (lookup_lt_is_Some_2 arrayData
              (Z.to_nat (Decode.BytesToInt genes mod Z.of_nat (length arrayData)))
              ltac:(lia)) as [v Hv].
  exists v. by rewrite Hv.
Qed.

(** X20. In the array task the genetic algorithm cannot beat the linear
    search: every fitness the closure returns is at most the [BestValue]
    of [runLinearSearchArray] on the same array, so the absolute error
    [linearBest - fitness] is never negative. *)
Theorem array_fitness_below_linear_best arrayData genes elapsed v r :
  arrayFitnessFunc arrayData genes = Ok v ->
  runLinearSearchArray arrayData elapsed = Ok r ->
  (0 <= BestValue r - v)%Q.
Proof.
  intros Hfit Hrun. unfold arrayFitnessFunc in Hfit.
  destruct (decide (length arrayData = 0)); [done|].
  destruct (_ <? 0)%Z; [done|].
  destruct (arrayData !! _) as [x|] eqn:Hx; [|done]. inversion Hfit; subst x.
  destruct (runLinearSearchArray_spec arrayData elapsed r Hrun) as (_ & _ & Hall).
  apply -> Qle_minus_iff. apply Hall. by eapply list_elem_of_lookup_2.
Qed.

End RunnerFacts.

Lemma array_fitness_below_linear_best_witness :
  (0 <= 4 - 1)%Q.
Proof.
  exact (RunnerFacts.array_fitness_below_linear_best [3; 1; 4]%Q [1; 0]%Z 7 1
           {| Runner.TaskName := "array_search"; Runner.BestValue := 4;
              Runner.ExecutionTime := 7 |} eq_refl eq_refl).
Defined.
